(** * Statutory-text addressing and annotation: a shallow embedding

    The development follows the two front ends of the repository:
    - [Title17]: the single-title viewer, [src/App.tsx] (the revision
      that carries paragraph tools and term annotation);
    - [USCode]: the multi-title viewer, [uscode/src/App.tsx].

    Both are written against JavaScript strings and regular expressions,
    which module [JS] models first. *)

From Stdlib Require Import String Ascii.
From stdpp Require Import base list gmap.

Local Open Scope N_scope.
Local Open Scope list_scope.

(** ** JavaScript strings and regular expressions *)

Module JS.

(** A JavaScript string is a sequence of UTF-16 code units. *)
Abbreviation char := N (only parsing).
Abbreviation jsstring := (list N) (only parsing).

(** Source literals: Basic Latin text is written as a Rocq string. *)
Definition js (s : string) : jsstring :=
  map N_of_ascii (list_ascii_of_string s).

(** Code units that a source literal cannot spell directly. *)
Definition dq : jsstring := [34].          (* the ASCII double quote *)
Definition ldquo : char := 8220.           (* U+201C *)
Definition rdquo : char := 8221.           (* U+201D *)
Definition hellip : char := 8230.          (* U+2026 *)

(** *** Character classes *)

Definition inRange (lo hi c : char) : bool := (lo <=? c) && (c <=? hi).

Definition isDigit (c : char) : bool := inRange 48 57 c.       (* \d *)
Definition isUpper (c : char) : bool := inRange 65 90 c.       (* [A-Z] *)
Definition isLower (c : char) : bool := inRange 97 122 c.      (* [a-z] *)

(** [\w], which also decides [\b]. *)
Definition isWordChar (c : char) : bool :=
  isDigit c || isUpper c || isLower c || (c =? 95).

(** Line terminators: the code units [.] does not match. *)
Definition isLineTerminator (c : char) : bool :=
  (c =? 10) || (c =? 13) || (c =? 8232) || (c =? 8233).

(** [\s], and the characters [trim] removes: white space and line
    terminators. *)
Definition isSpace (c : char) : bool :=
  inRange 9 13 c || (c =? 32) || (c =? 160) || (c =? 5760)
  || inRange 8192 8202 c || (c =? 8232) || (c =? 8233) || (c =? 8239)
  || (c =? 8287) || (c =? 12288) || (c =? 65279).

Definition dot (c : char) : bool := negb (isLineTerminator c).   (* . *)
Definition anyChar (c : char) : bool := true.                    (* [\s\S] *)
Definition isChar (x : char) (c : char) : bool := c =? x.
Definition notChar (x : char) (c : char) : bool := negb (c =? x).  (* [^x] *)

(** Case mapping is modelled on Basic Latin letters; every other code
    unit is its own lower case and its own canonical form. *)
Definition toLowerChar (c : char) : char := if isUpper c then c + 32 else c.
Definition toLowerCase (s : jsstring) : jsstring := map toLowerChar s.

(** Canonicalize of the [i] flag (upper-casing of a single code unit). *)
Definition canonicalize (c : char) : char := if isLower c then c - 32 else c.
Definition isCharI (x : char) (c : char) : bool :=
  canonicalize c =? canonicalize x.

(** *** Regular expressions

    The abstract syntax of the patterns the sources use. *)
Inductive regex : Type :=
| Eps                                   (* the empty pattern *)
| Chr (p : char -> bool)                (* one character of a class *)
| Seq (r1 r2 : regex)                   (* r1 r2 *)
| Alt (r1 r2 : regex)                   (* r1|r2 *)
| Star (greedy : bool) (r : regex)      (* r* and r*? *)
| Group (n : nat) (r : regex)           (* capture group number n *)
| Bol                                   (* ^ *)
| Eol                                   (* $ *)
| WordB.                                (* \b *)

Definition Plus (greedy : bool) (r : regex) : regex := Seq r (Star greedy r).
Definition Opt (r : regex) : regex := Alt r Eps.                 (* r? *)
Definition seqs (rs : list regex) : regex := foldr Seq Eps rs.
Definition alts (rs : list regex) : regex :=
  match rs with
  | [] => Eps
  | r :: rs' => foldl Alt r rs'
  end.
Definition Lit (s : jsstring) : regex := seqs (map (fun x => Chr (isChar x)) s).

(** A matcher state: the input already passed (most recent code unit
    first), the input still ahead, and the captures made so far (most
    recent first). *)
Record mstate : Type := MState {
  before : list char;
  after : list char;
  caps : list (nat * jsstring)
}.

(** The text consumed between two states of one run. *)
Definition consumed (st st' : mstate) : jsstring :=
  take (length (after st) - length (after st'))%nat (after st).

Definition capture (n : nat) (st st' : mstate) : mstate :=
  MState (before st') (after st') ((n, consumed st st') :: caps st').

Definition atWordBoundary (st : mstate) : bool :=
  let a := match before st with c :: _ => isWordChar c | [] => false end in
  let b := match after st with c :: _ => isWordChar c | [] => false end in
  xorb a b.

(** Repetition.  An iteration that consumes nothing is rejected, as the
    language's RepeatMatcher does, so [S (length (after st))] rounds of
    fuel cover every run. *)
Fixpoint star (fuel : nat) (m : mstate -> list mstate) (greedy : bool)
    (st : mstate) : list mstate :=
  match fuel with
  | O => [st]
  | S fuel' =>
      let more :=
        flat_map
          (fun st' =>
             if (length (after st') <? length (after st))%nat
             then star fuel' m greedy st' else [])
          (m st) in
      if greedy then more ++ [st] else st :: more
  end.

(** Backtracking as a list of successes: every way [r] can match at
    [st], in the order a backtracking matcher tries them.  The first
    element is the match the engine reports. *)
Fixpoint rmatch (r : regex) (st : mstate) : list mstate :=
  match r with
  | Eps => [st]
  | Chr p =>
      match after st with
      | c :: rest =>
          if p c then [MState (c :: before st) rest (caps st)] else []
      | [] => []
      end
  | Seq r1 r2 => flat_map (rmatch r2) (rmatch r1 st)
  | Alt r1 r2 => rmatch r1 st ++ rmatch r2 st
  | Star greedy r1 => star (S (length (after st))) (rmatch r1) greedy st
  | Group n r1 => map (capture n st) (rmatch r1 st)
  | Bol => match before st with [] => [st] | _ :: _ => [] end
  | Eol => match after st with [] => [st] | _ :: _ => [] end
  | WordB => if atWordBoundary st then [st] else []
  end.

(** The leftmost match at or after the current position: the state
    where it starts and the state where it ends. *)
Fixpoint search (r : regex) (bef aft : list char) : option (mstate * mstate) :=
  match rmatch r (MState bef aft []) with
  | e :: _ => Some (MState bef aft [], e)
  | [] =>
      match aft with
      | [] => None
      | c :: rest => search r (c :: bef) rest
      end
  end.

(** [m[n]] of a match that ended in state [e]. *)
Fixpoint assoc (n : nat) (l : list (nat * jsstring)) : option jsstring :=
  match l with
  | [] => None
  | (k, v) :: l' => if (k =? n)%nat then Some v else assoc n l'
  end.
Definition group (n : nat) (e : mstate) : jsstring :=
  default [] (assoc n (caps e)).

(** [s.match(re)] and [re.exec(s)] for a pattern without the [g] flag. *)
Definition exec (r : regex) (s : jsstring) : option (mstate * mstate) :=
  search r [] s.

(** [s.replace(re, f)] for a pattern without the [g] flag: the first
    match only. *)
Definition replaceFirst (r : regex) (f : jsstring -> jsstring)
    (s : jsstring) : jsstring :=
  match exec r s with
  | None => s
  | Some (b, e) =>
      take (length s - length (after b))%nat s ++ f (consumed b e) ++ after e
  end.

(** The pieces a [g] pattern cuts a string into: text between matches
    ([false]) and the matches themselves ([true]), in order.  After an
    empty match the scan moves on by one code unit. *)
Fixpoint segments (fuel : nat) (r : regex) (bef aft : list char)
    : list (bool * jsstring) :=
  match fuel with
  | O => [(false, aft)]
  | S fuel' =>
      match search r bef aft with
      | None => [(false, aft)]
      | Some (b, e) =>
          let skipped := take (length aft - length (after b))%nat aft in
          let m := consumed b e in
          (false, skipped) :: (true, m) ::
            match m, after e with
            | [], c :: rest =>
                (false, [c]) :: segments fuel' r (c :: before e) rest
            | [], [] => []
            | _ :: _, _ => segments fuel' r (before e) (after e)
            end
      end
  end.

(** [s.replace(re, f)] for a pattern with the [g] flag. *)
Definition replaceAll (r : regex) (f : jsstring -> jsstring)
    (s : jsstring) : jsstring :=
  concat
    (map (fun seg : bool * jsstring => if seg.1 then f seg.2 else seg.2)
       (segments (S (length s)) r [] s)).

(** The loop [while ((m = re.exec(s)) !== null) ...] over a [g]
    pattern: the matches in order.  [exec] resumes where the previous
    match ended, so an empty match would be found again for ever; the
    loop then never ends, and no amount of fuel gives a result. *)
Fixpoint execLoop (fuel : nat) (r : regex) (bef aft : list char)
    : option (list (mstate * mstate)) :=
  match fuel with
  | O => None
  | S fuel' =>
      match search r bef aft with
      | None => Some []
      | Some (b, e) =>
          cons (b, e) <$> execLoop fuel' r (before e) (after e)
      end
  end.

(** [s.split(re)] for a pattern that is one capture group and cannot
    match the empty string: text, separator, text, ..., text. *)
Fixpoint splitLoop (fuel : nat) (r : regex) (bef aft : list char)
    : list jsstring :=
  match fuel with
  | O => [aft]
  | S fuel' =>
      match search r bef aft with
      | None => [aft]
      | Some (b, e) =>
          take (length aft - length (after b))%nat aft ::
          group 1 e :: splitLoop fuel' r (before e) (after e)
      end
  end.
Definition split (r : regex) (s : jsstring) : list jsstring :=
  splitLoop (S (length s)) r [] s.

(** [s.trim()]. *)
Fixpoint trimStart (s : jsstring) : jsstring :=
  match s with
  | c :: s' => if isSpace c then trimStart s' else s
  | [] => []
  end.
Definition trim (s : jsstring) : jsstring :=
  reverse (trimStart (reverse (trimStart s))).

(** [s.startsWith(p)], [s.slice(n)], [s.indexOf(c)]. *)
Fixpoint startsWith (p s : jsstring) : bool :=
  match p, s with
  | [], _ => true
  | x :: p', c :: s' => (c =? x) && startsWith p' s'
  | _ :: _, [] => false
  end.
Definition slice (n : nat) (s : jsstring) : jsstring := drop n s.
Fixpoint indexOf (x : char) (s : jsstring) : option nat :=
  match s with
  | [] => None
  | c :: s' => if c =? x then Some 0%nat else S <$> indexOf x s'
  end.

(** [a.sort(cmp)]: the sort is stable, so its result is the one an
    insertion sort gives that never moves an element past an equal one. *)
Fixpoint insertSorted {A} (cmp : A -> A -> Z) (x : A) (l : list A) : list A :=
  match l with
  | [] => [x]
  | y :: l' => if (cmp x y <=? 0)%Z then x :: l else y :: insertSorted cmp x l'
  end.
Definition sort {A} (cmp : A -> A -> Z) (l : list A) : list A :=
  foldr (insertSorted cmp) [] l.

End JS.

(** ** Data shared by both front ends ([types.ts]) *)

Module Types.
Import JS.

Record ContentBlock : Type := {
  type : jsstring;
  indent : Z;
  html : jsstring
}.

(** Block types that correspond to structural subdivisions. *)
Definition STRUCTURAL_TYPES : gset jsstring :=
  list_to_set
    [js "subsection"; js "paragraph"; js "subparagraph"; js "clause";
     js "subclause"; js "item"; js "subitem"].

(** [STRUCTURAL_TYPES.has(t)]. *)
Definition isStructural (t : jsstring) : bool :=
  bool_decide (t ∈ STRUCTURAL_TYPES).

(** The value a path builder keeps for a block. *)
Record ParaMeta : Type := {
  path : jsstring;
  anchorId : jsstring          (* the field [id] of the source *)
}.

(** [content.forEach((block, i) => ...)] and [for (let i = 0; ...)]
    threading the variables the loop body updates. *)
Fixpoint forEach {St A} (f : St -> nat -> A -> St) (i : nat) (l : list A)
    (acc : St) : St :=
  match l with
  | [] => acc
  | x :: l' => forEach f (S i) l' (f acc i x)
  end.

(** A string is truthy when it is not empty. *)
Definition truthy (s : jsstring) : bool :=
  match s with [] => false | _ :: _ => true end.

Definition spanNumOpen : jsstring :=
  js "<span class=" ++ dq ++ js "num" ++ dq ++ js ">".
Definition spanClose : jsstring := js "</span>".

(** [/[^a-z0-9]+/g] *)
Definition nonAlnumRe : regex :=
  Plus true (Chr (fun c => negb (isLower c || isDigit c))).

(** [/<p class="(indent\d+)">([\s\S]*?)<\/p>/g] *)
Definition pRegex : regex :=
  seqs [Lit (js "<p class=" ++ dq);
        Group 1 (Seq (Lit (js "indent")) (Plus true (Chr isDigit)));
        Lit (dq ++ js ">");
        Group 2 (Star false (Chr anyChar));
        Lit (js "</p>")].

(** [/^#\/?/] *)
Definition hashPrefixRe : regex := seqs [Bol; Chr (isChar 35); Opt (Chr (isChar 47))].

(** [\d+[A-Z]*] *)
Definition numRe : regex :=
  Seq (Plus true (Chr isDigit)) (Star true (Chr isUpper)).

End Types.

(** ** The single-title viewer, [src/App.tsx] *)

Module Title17.
Import JS Types.

(** *** Paragraph tool helpers *)

Record SplitHtml : Type := { numText : jsstring; restHtml : jsstring }.

(** [/^<span class="num">([^<]* )<\/span>([\s\S]* )/] (a space keeps
    the comment open; the pattern has none) *)
Definition splitBlockHtmlRe : regex :=
  seqs [Bol; Lit spanNumOpen; Group 1 (Star true (Chr (notChar 60)));
        Lit spanClose; Group 2 (Star true (Chr anyChar))].

Definition splitBlockHtml (html : jsstring) : option SplitHtml :=
  match exec splitBlockHtmlRe html with
  | None => None
  | Some (_, m) => Some {| numText := group 1 m; restHtml := group 2 m |}
  end.

(** An entry of the builder's stack.  The stack is kept with its last
    element (the one [pop] removes) at the head of the list. *)
Record StackEntry : Type := { entryIndent : Z; entryNumText : jsstring }.

(** [while (stack.length > 0 && top.indent >= indent) stack.pop()] *)
Fixpoint popDeeper (indent : Z) (stack : list StackEntry) : list StackEntry :=
  match stack with
  | e :: stack' =>
      if (indent <=? entryIndent e)%Z then popDeeper indent stack' else stack
  | [] => []
  end.

(** [stack.map(e => e.numText).join('')] *)
Definition stackPath (stack : list StackEntry) : jsstring :=
  concat (reverse (map entryNumText stack)).

(** The body of the [forEach] callback. *)
Definition visit (sectionNum : jsstring)
    (acc : gmap nat ParaMeta * list StackEntry) (i : nat)
    (block : ContentBlock) : gmap nat ParaMeta * list StackEntry :=
  if negb (isStructural (type block)) then acc
  else
    match splitBlockHtml (html block) with
    | None => acc
    | Some split =>
        let stack :=
          {| entryIndent := indent block; entryNumText := trim (numText split) |}
            :: popDeeper (indent block) acc.2 in
        let path := stackPath stack in
        (<[i := {| path := path;
                   anchorId := js "p-" ++ sectionNum ++ path |}]> acc.1,
         stack)
    end.

Definition buildParaMetaMap (content : list ContentBlock)
    (sectionNum : jsstring) : gmap nat ParaMeta :=
  (forEach (visit sectionNum) 0 content (∅, [])).1.

(** *** Section 101 definition helpers *)

Record Sec101Def : Type := {
  indentClass : jsstring;
  innerHtml : jsstring;
  defTerm : option jsstring;     (* [term], [null] when absent *)
  defSlug : option jsstring      (* [slug], [null] when absent *)
}.

(** [/“([^”]+)”/] *)
Definition quotedTermRe : regex :=
  seqs [Chr (isChar ldquo); Group 1 (Plus true (Chr (notChar rdquo)));
        Chr (isChar rdquo)].

(** [/^-+|-+$/g] *)
Definition edgeHyphensRe : regex :=
  Alt (Seq Bol (Plus true (Chr (isChar 45))))
      (Seq (Plus true (Chr (isChar 45))) Eol).

(** [term.toLowerCase().replace(/[^a-z0-9]+/g, '-').replace(/^-+|-+$/g, '')] *)
Definition slugOf (term : jsstring) : jsstring :=
  replaceAll edgeHyphensRe (fun _ => [])
    (replaceAll nonAlnumRe (fun _ => js "-") (toLowerCase term)).

(** The body of the [while] loop, for one match of [pRegex]. *)
Definition sec101Def (m : mstate * mstate) : Sec101Def :=
  let indentClass := group 1 m.2 in
  let innerHtml := group 2 m.2 in
  let tm :=
    if bool_decide (indentClass = js "indent1")
    then exec quotedTermRe innerHtml else None in
  {| indentClass := indentClass;
     innerHtml := innerHtml;
     defTerm := (fun tm => group 1 tm.2) <$> tm;
     defSlug := (fun tm => slugOf (group 1 tm.2)) <$> tm |}.

(** [None] stands for a loop that never ends. *)
Definition parseSec101Defs (html : jsstring) : option (list Sec101Def) :=
  map sec101Def <$> execLoop (S (length html)) pRegex [] html.

(** *** Term annotation *)

Record TermDef : Type := {
  term : jsstring;
  slug : jsstring;
  source : jsstring
}.

(** The pattern of one term.  The source escapes the metacharacters
    of the term, writes [\s+] for each space and hands the text to
    [RegExp] with the [i] flag: after escaping, every code unit of the
    term stands for itself, and a space for a run of white space. *)
Definition termPattern (t : jsstring) : regex :=
  seqs (map (fun c => if c =? 32 then Plus true (Chr isSpace)
                      else Chr (isCharI c)) t).

(** [new RegExp(`\\b(${pattern})\\b`, 'gi')] *)
Definition termRe (terms : list TermDef) : regex :=
  seqs [WordB; Group 1 (alts (map (fun t => termPattern (term t)) terms)); WordB].

(** [/(<[^>]+>)/g] *)
Definition tagRe : regex :=
  Group 1 (seqs [Chr (isChar 60); Plus true (Chr (notChar 62)); Chr (isChar 62)]).

(** [new Map(terms.map(t => [t.term.toLowerCase(), {slug, source}]))]:
    the entries are set in order, a later one replacing an earlier one
    under the same key. *)
Definition infoByLower (terms : list TermDef) : gmap jsstring (jsstring * jsstring) :=
  foldl (fun m t => <[toLowerCase (term t) := (slug t, source t)]> m) ∅ terms.

Definition defTermSpan (info : jsstring * jsstring) (text : jsstring) : jsstring :=
  js "<span class=" ++ dq ++ js "def-term" ++ dq
    ++ js " data-slug=" ++ dq ++ info.1 ++ dq
    ++ js " data-def-source=" ++ dq ++ info.2 ++ dq ++ js ">"
    ++ text ++ js "</span>".

(** The callback of [part.replace(termRe, ...)]. *)
Definition wrapMatch (terms : list TermDef) (m : jsstring) : jsstring :=
  match infoByLower terms !! toLowerCase m with
  | Some info => defTermSpan info m
  | None => m
  end.

(** The function [annotate] that [buildTermAnnotator] returns when it
    has terms. *)
Definition annotate (terms : list TermDef) (html : jsstring) : jsstring :=
  concat
    (imap (fun i part =>
             if Nat.odd i then part
             else replaceAll (termRe terms) (wrapMatch terms) part)
       (split tagRe html)).

Definition byLengthDesc (a b : TermDef) : Z :=
  (Z.of_nat (length (term b)) - Z.of_nat (length (term a)))%Z.

Definition buildTermAnnotator (termDefs : list TermDef) : jsstring -> jsstring :=
  let terms :=
    sort byLengthDesc
      (filter (fun d => truthy (term d) && truthy (slug d) = true) termDefs) in
  match terms with
  | [] => fun html => html
  | _ :: _ => annotate terms
  end.

(** *** Rendering of one block of an ordinary section

    What [SectionView] puts on the page for block [i]: a block with
    paragraph tools (anchor, designator button, annotated body) or the
    default rendering of the block's markup.  Class names are left out. *)
Inductive Rendered : Type :=
| ParagraphToolBlock (anchor button body : jsstring)
| DefaultBlock (body : jsstring).

Definition renderBlock (paraMetaMap : gmap nat ParaMeta)
    (annotateTerms : jsstring -> jsstring) (i : nat) (block : ContentBlock)
    : Rendered :=
  match paraMetaMap !! i with
  | Some meta =>
      match splitBlockHtml (html block) with
      | Some split =>
          ParagraphToolBlock (anchorId meta) (numText split)
            (annotateTerms (restHtml split))
      | None => DefaultBlock (annotateTerms (html block))
      end
  | None => DefaultBlock (annotateTerms (html block))
  end.

(** *** URL / hash routing *)

Inductive ViewState : Type :=
| Home
| Chapter (chapterNum : jsstring)
| SectionV (sectionNum : jsstring) (paragraphAnchor : option jsstring).

(** [/^(N)\/def\/(.+)$/], with [N] the pattern [numRe] *)
Definition defAnchorRe : regex :=
  seqs [Bol; Group 1 numRe; Lit (js "/def/"); Group 2 (Plus true (Chr dot)); Eol].

Definition parseHash (hash : jsstring) : ViewState :=
  let h := replaceFirst hashPrefixRe (fun _ => []) hash in
  if negb (truthy h) then Home
  else if startsWith (js "section/") h then
    let rest := slice 8 h in
    match exec defAnchorRe rest with
    | Some (_, defMatch) =>
        SectionV (group 1 defMatch) (Some (js "def/" ++ group 2 defMatch))
    | None =>
        match indexOf 40 rest with
        | Some (S k) =>
            SectionV (take (S k) rest) (Some (slice (S k) rest))
        | _ => SectionV rest None
        end
    end
  else if startsWith (js "chapter/") h then Chapter (slice 8 h)
  else Home.

Definition viewToHash (view : ViewState) : jsstring :=
  match view with
  | SectionV sectionNum _ => js "#section/" ++ sectionNum
  | Chapter chapterNum => js "#chapter/" ++ chapterNum
  | Home => js "#"
  end.

End Title17.

(** ** The multi-title viewer, [uscode/src/App.tsx] *)

Module USCode.
Import JS Types.

(** *** Paragraph tools helpers *)

(** What a call can end in: a value, or the [RangeError] that
    assigning an invalid array length raises. *)
Inductive outcome (A : Type) : Type :=
| Returns (a : A)
| RangeError.
Arguments Returns {A} a.
Arguments RangeError {A}.

(** [/<span class="num">(.*?)<\/span>/] *)
Definition numSpanRe : regex :=
  seqs [Lit spanNumOpen; Group 1 (Star false (Chr dot)); Lit spanClose].

(** The largest length an array can have. *)
Definition maxArrayLength : Z := 4294967295.

(** [stack.slice(0, depth + 1).join('')]: an empty slot joins as the
    empty string. *)
Definition joinSlots (stack : list (option jsstring)) : jsstring :=
  concat (map (default []) stack).

(** The body of the [for] loop.  The stack is an array of strings in
    which [stack.length = depth] may leave empty slots ([None]). *)
Definition visit (sectionNum : jsstring)
    (acc : outcome (gmap nat ParaMeta * list (option jsstring))) (i : nat)
    (block : ContentBlock)
    : outcome (gmap nat ParaMeta * list (option jsstring)) :=
  match acc with
  | RangeError => RangeError
  | Returns (map, stack) =>
      if negb (isStructural (type block)) then acc
      else
        match exec numSpanRe (html block) with
        | None => acc
        | Some (_, m) =>
            let num := group 1 m in
            let depth := (indent block - 1)%Z in
            if (depth <? 0)%Z || (maxArrayLength <? depth)%Z then RangeError
            else
              let stack := resize (Z.to_nat depth) None stack in
              (* [stack[depth] = num]: index [2^32 - 1] is not an array
                 index, and the assignment leaves the elements alone *)
              let stack :=
                if (depth =? maxArrayLength)%Z then stack
                else stack ++ [Some num] in
              let path := joinSlots (take (Z.to_nat depth + 1) stack) in
              Returns
                (<[i := {| path := path;
                           anchorId := js "p-" ++ sectionNum ++ path |}]> map,
                 stack)
        end
  end.

Definition buildParaMetaMap (blocks : list ContentBlock)
    (sectionNum : jsstring) : outcome (gmap nat ParaMeta) :=
  match forEach (visit sectionNum) 0 blocks (Returns (∅, [])) with
  | Returns (map, _) => Returns map
  | RangeError => RangeError
  end.

(** *** Definition-section helpers *)

Record Sec101Def : Type := {
  slug : jsstring;
  term : jsstring;
  innerHtml : jsstring;
  indentClass : jsstring
}.

(** The pattern for a quoted term: U+201C, one or more code units that
    are neither the ASCII double quote nor U+201D, U+201D. *)
Definition quotedTermRe : regex :=
  seqs [Chr (isChar ldquo);
        Group 1 (Plus true (Chr (fun c => negb ((c =? 34) || (c =? rdquo)))));
        Chr (isChar rdquo)].

(** [/^-|-$/g] *)
Definition edgeHyphenRe : regex :=
  Alt (Seq Bol (Chr (isChar 45))) (Seq (Chr (isChar 45)) Eol).

(** [term.toLowerCase().replace(/[^a-z0-9]+/g, '-').replace(/^-|-$/g, '')] *)
Definition slugOf (term : jsstring) : jsstring :=
  replaceAll edgeHyphenRe (fun _ => [])
    (replaceAll nonAlnumRe (fun _ => js "-") (toLowerCase term)).

(** The body of the [while] loop, for one match of [pRegex]. *)
Definition sec101Def (m : mstate * mstate) : Sec101Def :=
  let indentClass := group 1 m.2 in
  let innerHtml := group 2 m.2 in
  if bool_decide (indentClass = js "indent1") then
    let term :=
      match exec quotedTermRe innerHtml with
      | Some (_, termMatch) => group 1 termMatch
      | None => []
      end in
    {| slug := slugOf term; term := term;
       innerHtml := innerHtml; indentClass := indentClass |}
  else
    {| slug := []; term := [];
       innerHtml := innerHtml; indentClass := indentClass |}.

(** [None] stands for a loop that never ends. *)
Definition parseSec101Defs (html : jsstring) : option (list Sec101Def) :=
  map sec101Def <$> execLoop (S (length html)) pRegex [] html.

(** *** URL / hash routing *)

Inductive ViewState : Type :=
| Home
| Title (titleNum : jsstring)
| SectionV (titleNum sectionNum : jsstring) (paragraphAnchor : option jsstring).

(** The common start of the section patterns: [^t(N)\/s(N)], with [N]
    the pattern [numRe]. *)
Definition sectionPrefix (tail : list regex) : regex :=
  seqs ([Bol; Chr (isChar 116); Group 1 numRe; Lit (js "/s"); Group 2 numRe]
          ++ tail).

(** [/^t(N)\/s(N)\/def\/(.+)$/] *)
Definition defRe : regex :=
  sectionPrefix [Lit (js "/def/"); Group 3 (Plus true (Chr dot)); Eol].

(** [/^t(N)\/s(N)(\(.+)$/] *)
Definition secParenRe : regex :=
  sectionPrefix [Group 3 (Seq (Chr (isChar 40)) (Plus true (Chr dot))); Eol].

(** [/^t(N)\/s(N)$/] *)
Definition secRe : regex := sectionPrefix [Eol].

(** [/^t(N)$/] *)
Definition titleRe : regex :=
  seqs [Bol; Chr (isChar 116); Group 1 numRe; Eol].

Definition parseHash (hash : jsstring) : ViewState :=
  let h := replaceFirst hashPrefixRe (fun _ => []) hash in
  if negb (truthy h) then Home
  else
    match exec defRe h with
    | Some (_, defMatch) =>
        SectionV (group 1 defMatch) (group 2 defMatch)
          (Some (js "def/" ++ group 3 defMatch))
    | None =>
    match exec secParenRe h with
    | Some (_, secParenMatch) =>
        SectionV (group 1 secParenMatch) (group 2 secParenMatch)
          (Some (group 3 secParenMatch))
    | None =>
    match exec secRe h with
    | Some (_, secMatch) => SectionV (group 1 secMatch) (group 2 secMatch) None
    | None =>
    match exec titleRe h with
    | Some (_, titleMatch) => Title (group 1 titleMatch)
    | None => Home
    end end end end.

Definition viewToHash (view : ViewState) : jsstring :=
  match view with
  | Home => js "#"
  | Title titleNum => js "#t" ++ titleNum
  | SectionV titleNum sectionNum paragraphAnchor =>
      let anchor :=
        match paragraphAnchor with
        | Some a =>
            if truthy a then
              if startsWith (js "def/") a then js "/" ++ a else a
            else []
        | None => []
        end in
      js "#t" ++ titleNum ++ js "/s" ++ sectionNum ++ anchor
  end.

End USCode.

(** ** Shapes of addresses and of markup, used to state the results *)

Module Shape.
Import JS Types.

(** A state [l] further on in the same input, with [rest] still ahead. *)
Definition advance (l : jsstring) (rest : jsstring) (st : mstate) : mstate :=
  MState (reverse l ++ before st) rest (caps st).

(** The state after group [n] has captured [l]. *)
Definition captured (n : nat) (l : jsstring) (rest : jsstring) (st : mstate)
    : mstate :=
  MState (reverse l ++ before st) rest ((n, l) :: caps st).

(** The next character is not of class [p] (or there is none). *)
Definition blocked (p : char -> bool) (s : jsstring) : Prop :=
  match s with c :: _ => p c = false | [] => True end.

(** The next character is of class [p]. *)
Definition ahead (p : char -> bool) (st : mstate) : Prop :=
  match after st with c :: _ => p c = true | [] => False end.

Definition isAlnumCap (c : char) : bool := isDigit c || isUpper c.

(** A pattern that cannot start at a digit or a capital letter. *)
Definition rejectsAlnum (K : regex) : Prop :=
  forall st, ahead isAlnumCap st -> rmatch K st = [].

(** An identifier of the address grammar: digits, then capital
    letters, as [numRe] accepts them. *)
Fixpoint digitsThenCaps (s : jsstring) : bool :=
  match s with
  | [] => true
  | c :: s' => if isDigit c then digitsThenCaps s' else forallb isUpper s
  end.
Definition isNumber (s : jsstring) : bool :=
  match s with
  | c :: s' => isDigit c && digitsThenCaps s'
  | [] => false
  end.

(** A structural paragraph anchor: an open parenthesis and at least
    one more character, none of them a line terminator. *)
Definition isParenPath (a : jsstring) : bool :=
  match a with
  | c :: c' :: r => (c =? 40) && forallb dot (c' :: r)
  | _ => false
  end.

(** A definition anchor: [def/] and a non-empty slug without line
    terminators. *)
Definition isDefAnchor (a : jsstring) : bool :=
  startsWith (js "def/") a && truthy (slice 4 a) && forallb dot (slice 4 a).

(** The targets of the multi-title viewer that the address grammar can
    spell. *)
Definition wellFormed (v : USCode.ViewState) : bool :=
  match v with
  | USCode.Home => true
  | USCode.Title t => isNumber t
  | USCode.SectionV t s a =>
      isNumber t && isNumber s &&
      match a with
      | None => true
      | Some a => isParenPath a || isDefAnchor a
      end
  end.

(** The targets of the single-title viewer without a paragraph anchor. *)
Definition plainTarget (v : Title17.ViewState) : bool :=
  match v with
  | Title17.Home => true
  | Title17.Chapter _ => true
  | Title17.SectionV s None => isNumber s
  | Title17.SectionV _ (Some _) => false
  end.

(** The designator token the single-title builder reads off a block:
    present when the block has a structural type and its markup begins
    with a designator span. *)
Definition designator (b : ContentBlock) : option jsstring :=
  if isStructural (type b)
  then (fun split => trim (Title17.numText split))
         <$> Title17.splitBlockHtml (html b)
  else None.

(** Contiguous depths: the first block with a designator is at depth
    0, and each later one is at most one level below the block with a
    designator before it.  [level] is the deepest indent the next
    block may have. *)
Fixpoint contiguousFrom (level : Z) (content : list ContentBlock) : bool :=
  match content with
  | [] => true
  | b :: rest =>
      match designator b with
      | Some _ =>
          (0 <=? indent b)%Z && (indent b <=? level)%Z
          && contiguousFrom (indent b + 1) rest
      | None => contiguousFrom level rest
      end
  end.
Definition contiguous (content : list ContentBlock) : bool :=
  contiguousFrom 0 content.

(** The markup begins with a designator span of the exact shape
    [<span class="num">token</span>], the token free of [<]. *)
Definition beginsWithDesignatorSpan (html : jsstring) : Prop :=
  exists token rest,
    html = spanNumOpen ++ token ++ spanClose ++ rest
    /\ forallb (notChar 60) token = true.

(** A stack of the single-title builder whose entries sit at the
    indents 0, 1, 2, ... from the bottom. *)
Inductive levelled : list Title17.StackEntry -> Prop :=
| levelled_nil : levelled []
| levelled_cons e stack :
    Title17.entryIndent e = Z.of_nat (length stack) ->
    levelled stack -> levelled (e :: stack).

(** [tokens] are the designator tokens of block [i] and of its open
    ancestors: one per depth from 0 to the block's own, each the
    designator of a block at that depth at or before [i], the last one
    the block's own. *)
Definition tokenPath (content : list ContentBlock) (i : nat)
    (b : ContentBlock) (tokens : list jsstring) : Prop :=
  length tokens = S (Z.to_nat (indent b))
  /\ last tokens = designator b
  /\ forall k tok, tokens !! k = Some tok ->
       exists j b', (j <= i)%nat /\ content !! j = Some b'
                    /\ indent b' = Z.of_nat k /\ designator b' = Some tok.

(** Every entry of a stack was read off an earlier block. *)
Definition provenance (done : list ContentBlock)
    (stack : list Title17.StackEntry) : Prop :=
  forall e, e ∈ stack ->
    exists j b', done !! j = Some b'
                 /\ indent b' = Title17.entryIndent e
                 /\ designator b' = Some (Title17.entryNumText e).

(** The designator token the multi-title builder reads off a block:
    present when the block has a structural type and its markup holds
    a designator span; the token is the text of the first one, as it
    stands. *)
Definition firstNumSpan (b : ContentBlock) : option jsstring :=
  if isStructural (type b)
  then (fun r => group 1 r.2) <$> exec USCode.numSpanRe (html b)
  else None.

(** Contiguous depths counted from indent 1: the first block with a
    designator is at indent 1, and each later one is at most one level
    below the block with a designator before it. *)
Fixpoint contiguousFromOne (level : Z) (blocks : list ContentBlock) : bool :=
  match blocks with
  | [] => true
  | b :: rest =>
      match firstNumSpan b with
      | Some _ =>
          (1 <=? indent b)%Z && (indent b <=? level)%Z
          && contiguousFromOne (indent b + 1) rest
      | None => contiguousFromOne level rest
      end
  end.

(** [tokens] are the designator tokens of block [i] and of its open
    ancestors in the multi-title builder: one per indent from 1 to the
    block's own. *)
Definition tokenPathFromOne (blocks : list ContentBlock) (i : nat)
    (b : ContentBlock) (tokens : list jsstring) : Prop :=
  length tokens = Z.to_nat (indent b)
  /\ last tokens = firstNumSpan b
  /\ forall k tok, tokens !! k = Some tok ->
       exists j b', (j <= i)%nat /\ blocks !! j = Some b'
                    /\ indent b' = Z.of_nat (S k) /\ firstNumSpan b' = Some tok.

(** *** Auxiliary definitions for the proofs *)

(** The section patterns of the multi-title decoder after [^]. *)
Definition sectionBody (tail : list regex) : regex :=
  Seq (Chr (isChar 116))
    (Seq (Group 1 numRe) (Seq (Lit (js "/s")) (Seq (Group 2 numRe) (seqs tail)))).

(** The state after [t<title>/s<section>] has been read. *)
Definition afterSection (t s rest : jsstring) : mstate :=
  MState (reverse s ++ reverse (js "/s") ++ reverse t ++ [116]) rest
    [(2%nat, s); (1%nat, t)].

(** What one block with a designator adds to the map of the
    single-title builder. *)
Definition entryFor (sec : jsstring) (b : ContentBlock) (tok : jsstring)
    (stk : list Title17.StackEntry) : ParaMeta :=
  let stack :=
    {| Title17.entryIndent := indent b; Title17.entryNumText := tok |}
      :: Title17.popDeeper (indent b) stk in
  {| path := Title17.stackPath stack;
     anchorId := js "p-" ++ sec ++ Title17.stackPath stack |}.

Definition goodEntry (sec : jsstring) (content : list ContentBlock) (i : nat)
    (meta : ParaMeta) : Prop :=
  exists b tokens,
    content !! i = Some b /\ tokenPath content i b tokens
    /\ path meta = concat tokens
    /\ anchorId meta = js "p-" ++ sec ++ path meta.

(** Every token of a stack without empty slots was read off an earlier
    block, at the indent of its slot. *)
Definition slotProvenance (done : list ContentBlock)
    (tokens : list jsstring) : Prop :=
  forall k tok, tokens !! k = Some tok ->
    exists j b', done !! j = Some b'
                 /\ indent b' = Z.of_nat (S k) /\ firstNumSpan b' = Some tok.

Definition goodSlotEntry (sec : jsstring) (blocks : list ContentBlock)
    (i : nat) (meta : ParaMeta) : Prop :=
  exists b tokens,
    blocks !! i = Some b /\ tokenPathFromOne blocks i b tokens
    /\ path meta = concat tokens
    /\ anchorId meta = js "p-" ++ sec ++ path meta.

(** [splitBlockHtmlRe] after [^]. *)
Definition spanBody : regex :=
  seqs [Lit spanNumOpen; Group 1 (Star true (Chr (notChar 60)));
        Lit spanClose; Group 2 (Star true (Chr anyChar))].

(** [e] lies further on than [st] in the same input. *)
Definition reaches (st e : mstate) : Prop :=
  exists l, after st = l ++ after e /\ before e = reverse l ++ before st.

(** The result of a replacement, from the pieces of the string. *)
Definition render (f : jsstring -> jsstring) (segs : list (bool * jsstring))
    : jsstring :=
  concat (map (fun seg : bool * jsstring => if seg.1 then f seg.2 else seg.2) segs).

(** A tag segment: [<], one or more characters other than [>], and the
    first [>] after them. *)
Definition isTag (t : jsstring) : Prop :=
  exists body, t = 60 :: body ++ [62] /\ body <> []
               /\ forallb (notChar 62) body = true.

(** A tag segment lies somewhere in [x]. *)
Definition hasTag (x : jsstring) : Prop :=
  exists a t b, x = a ++ t ++ b /\ isTag t.

(** A fragment put together from its text segments and the tag segments
    between them: text, tag, text, ..., text. *)
Fixpoint weave (texts tags : list jsstring) : jsstring :=
  match texts with
  | [] => []
  | t :: texts' =>
      t ++ match tags with
           | [] => []
           | g :: tags' => g ++ weave texts' tags'
           end
  end.

(** The same pieces as the list [split] returns. *)
Fixpoint alternate (texts tags : list jsstring) : list jsstring :=
  match texts with
  | [] => []
  | t :: texts' =>
      t :: match tags with
           | [] => []
           | g :: tags' => g :: alternate texts' tags'
           end
  end.

(** The pattern inside the capture group of [tagRe]. *)
Definition tagBody : regex :=
  seqs [Chr (isChar 60); Plus true (Chr (notChar 62)); Chr (isChar 62)].

(** *** The slug as the specification words it

    "lowercase, non-alphanumeric runs collapsed to a single separator,
    leading/trailing separators stripped".  These definitions follow
    that sentence; the slug of the sources is [Title17.slugOf] and
    [USCode.slugOf]. *)

Definition isSlugChar (c : char) : bool := isLower c || isDigit c.

(** Each maximal run of other characters becomes one hyphen; [inRun]
    tells that the run's hyphen has been written. *)
Fixpoint collapseRuns (inRun : bool) (s : jsstring) : jsstring :=
  match s with
  | [] => []
  | c :: s' =>
      if isSlugChar c then c :: collapseRuns false s'
      else if inRun then collapseRuns true s'
      else 45 :: collapseRuns true s'
  end.

Fixpoint dropLeadingHyphens (s : jsstring) : jsstring :=
  match s with
  | c :: s' => if c =? 45 then dropLeadingHyphens s' else s
  | [] => []
  end.

Fixpoint dropTrailingHyphens (s : jsstring) : jsstring :=
  match s with
  | [] => []
  | c :: s' =>
      match dropTrailingHyphens s' with
      | [] => if c =? 45 then [] else [c]
      | r => c :: r
      end
  end.

Definition slugSpec (term : jsstring) : jsstring :=
  dropTrailingHyphens (dropLeadingHyphens (collapseRuns false (toLowerCase term))).

(** No two hyphens in a row. *)
Fixpoint singleHyphens (s : jsstring) : bool :=
  match s with
  | [] => true
  | c :: s' =>
      (negb (c =? 45)
       || match s' with c' :: _ => negb (c' =? 45) | [] => true end)
      && singleHyphens s'
  end.

(** The pattern for a quoted term, over the class [p] of the characters
    a term may have: U+201C, one or more characters of [p], U+201D. *)
Definition quotedRe (p : char -> bool) : regex :=
  seqs [Chr (isChar ldquo); Group 1 (Plus true (Chr p)); Chr (isChar rdquo)].

(** [/[^a-z0-9]/] as a class. *)
Definition notSlugChar (c : char) : bool := negb (isLower c || isDigit c).

(** *** Phrases in running text *)









(** The characters a term of the multi-title viewer may have: all but
    the ASCII double quote and U+201D. *)
Definition plainTermChar (c : char) : bool := negb ((c =? 34) || (c =? rdquo)).

(** The path the multi-title builder gives block [i], when it returns. *)
Definition pathAt (r : USCode.outcome (gmap nat ParaMeta)) (i : nat)
    : option jsstring :=
  match r with
  | USCode.Returns m => path <$> m !! i
  | USCode.RangeError => None
  end.

End Shape.

(** ** Concrete inputs *)

Module Examples.
Import JS Types.

Definition block (t : jsstring) (i : Z) (h : jsstring) : ContentBlock :=
  {| type := t; indent := i; html := h |}.

(** A subsection (b) at indent 0 and its paragraph (1) at indent 1. *)
Definition outline : list ContentBlock :=
  [block (js "subsection") 0 (spanNumOpen ++ js "(b)</span> text");
   block (js "paragraph") 1 (spanNumOpen ++ js "(1)</span> more")].

(** The same two blocks one level down, at indents 1 and 2. *)
Definition outlineFromOne : list ContentBlock :=
  [block (js "subsection") 1 (spanNumOpen ++ js "(b)</span> text");
   block (js "paragraph") 2 (spanNumOpen ++ js "(1)</span> more")].


(** A paragraph whose markup has no designator span, between two that
    have one. *)
Definition bare : ContentBlock :=
  block (js "paragraph") 1 (js "In this section, the term applies.").
Definition before_bare : list ContentBlock :=
  [block (js "subsection") 0 (spanNumOpen ++ js "(a)</span> first")].
Definition after_bare : list ContentBlock :=
  [block (js "paragraph") 1 (spanNumOpen ++ js "(1)</span> second")].

Definition termDef (t s src : jsstring) : Title17.TermDef :=
  {| Title17.term := t; Title17.slug := s; Title17.source := src |}.

Definition author : Title17.TermDef :=
  termDef (js "author") (js "author") (js "101").

(** A link whose title attribute holds a [>] before the word author. *)
Definition linkWithGt : jsstring :=
  js "<a title=" ++ dq ++ js "x > author" ++ dq ++ js ">t</a>".

(** A link whose title attribute is the word author. *)
Definition linkPlain : jsstring :=
  js "<a title=" ++ dq ++ js "author" ++ dq ++ js ">the author</a>".

Definition indent1Open : jsstring := js "<p class=" ++ dq ++ js "indent1" ++ dq ++ js ">".

(** The paragraph of the motion picture definition. *)
Definition motionPictureInner : jsstring :=
  [ldquo] ++ js "motion picture" ++ [rdquo] ++ js " means audiovisual works"
    ++ [hellip].
Definition motionPicture : jsstring :=
  indent1Open ++ motionPictureInner ++ js "</p>".

(** A paragraph whose first quoted span holds an ASCII double quote. *)
Definition inchMarkInner : jsstring :=
  [ldquo] ++ js "5" ++ dq ++ js " disc" ++ [rdquo] ++ js " and "
    ++ [ldquo] ++ js "other" ++ [rdquo].

End Examples.

(** ** More of the JavaScript library *)

Module JSLib.
Import JS.

(** [s.indexOf(t)] for a string [t]: the first position where [t]
    occurs in [s]; [None] stands for -1. *)
Fixpoint indexOfStr (t s : jsstring) : option nat :=
  if startsWith t s then Some 0%nat
  else match s with
       | [] => None
       | _ :: s' => S <$> indexOfStr t s'
       end.

(** [s.includes(t)]. *)
Definition includes (t s : jsstring) : bool :=
  match indexOfStr t s with Some _ => true | None => false end.

(** [a.findIndex(p)]; [None] stands for -1. *)
Fixpoint findIndex {A} (p : A -> bool) (a : list A) : option nat :=
  match a with
  | [] => None
  | x :: a' => if p x then Some 0%nat else S <$> findIndex p a'
  end.

(** A pattern text with the [i] flag whose every code unit stands for
    itself, letters in either case. *)
Definition LitI (s : jsstring) : regex :=
  seqs (map (fun x => Chr (isCharI x)) s).

(** [re.test(s)]. *)
Definition test (r : regex) (s : jsstring) : bool :=
  match exec r s with Some _ => true | None => false end.

End JSLib.

(** ** Deep links of the single-title viewer ([SectionView], [src/App.tsx]) *)

Module Title17Links.
Import JS Types JSLib.

(** The element the effect "scroll to the paragraph/definition anchor"
    looks up once the section is loaded; [None] when the effect returns
    at once. *)
Definition scrollTargetId (sectionNum : jsstring)
    (paragraphAnchor : option jsstring) : option jsstring :=
  match paragraphAnchor with
  | None => None
  | Some a =>
      if negb (truthy a) then None
      else Some (if startsWith (js "def/") a
                 then js "def-" ++ sectionNum ++ js "-" ++ slice 4 a
                 else js "p-" ++ sectionNum ++ a)
  end.

(** The fragment of [paraUrl], the address the paragraph tools offer
    for a block with the path [path]. *)
Definition paraHash (sectionNum path : jsstring) : jsstring :=
  js "#section/" ++ sectionNum ++ path.

(** The fragment of [url], the address the tools of a definition of
    section 101 offer. *)
Definition defHash (slug : jsstring) : jsstring :=
  js "#section/101/def/" ++ slug.

(** [popupId], the [id] of the paragraph of a definition. *)
Definition popupId (slug : jsstring) : jsstring := js "def-101-" ++ slug.

End Title17Links.

(** ** Deep links of the multi-title viewer ([SectionView],
    [uscode/src/App.tsx]) *)

Module USCodeLinks.
Import JS Types JSLib.

Definition scrollTargetId (sectionNum : jsstring)
    (paragraphAnchor : option jsstring) : option jsstring :=
  match paragraphAnchor with
  | None => None
  | Some a =>
      if negb (truthy a) then None
      else Some (if startsWith (js "def/") a
                 then js "def-" ++ sectionNum ++ js "-" ++ slice 4 a
                 else js "p-" ++ sectionNum ++ a)
  end.

(** The fragment of [paraUrl]. *)
Definition paraHash (titleNum sectionNum path : jsstring) : jsstring :=
  js "#t" ++ titleNum ++ js "/s" ++ sectionNum ++ path.

(** The fragment of [url] of a definition. *)
Definition defHash (titleNum sectionNum slug : jsstring) : jsstring :=
  js "#t" ++ titleNum ++ js "/s" ++ sectionNum ++ js "/def/" ++ slug.

Definition popupId (sectionNum slug : jsstring) : jsstring :=
  js "def-" ++ sectionNum ++ js "-" ++ slug.

End USCodeLinks.

(** ** The codec of the first revision of [src/App.tsx] *)

Module Title17Rev1.
Import JS Types.

Inductive ViewState : Type :=
| Home
| Chapter (chapterNum : jsstring)
| SectionV (sectionNum : jsstring).

Definition parseHash (hash : jsstring) : ViewState :=
  let h := replaceFirst hashPrefixRe (fun _ => []) hash in
  if negb (truthy h) then Home
  else if startsWith (js "section/") h then SectionV (slice 8 h)
  else if startsWith (js "chapter/") h then Chapter (slice 8 h)
  else Home.

Definition viewToHash (view : ViewState) : jsstring :=
  match view with
  | SectionV sectionNum => js "#section/" ++ sectionNum
  | Chapter chapterNum => js "#chapter/" ++ chapterNum
  | Home => js "#"
  end.

End Title17Rev1.

(** ** Definition tools of the single-title viewer ([src/App.tsx]) *)

Module Title17Defs.
Import JS Types JSLib.

(** [`${n}`] for an integer [n] below 10^21 in absolute value: its
    decimal digits, with a minus sign when it is negative. *)
Fixpoint digitsOf (fuel : nat) (n : N) (acc : jsstring) : jsstring :=
  match fuel with
  | O => acc
  | S fuel' =>
      let acc' := (48 + n mod 10) :: acc in
      if n / 10 =? 0 then acc' else digitsOf fuel' (n / 10) acc'
  end.
Definition numberToString (z : Z) : jsstring :=
  match z with
  | Z0 => js "0"
  | Zpos p => digitsOf (N.size_nat (Npos p)) (Npos p) []
  | Zneg p => 45 :: digitsOf (N.size_nat (Npos p)) (Npos p) []
  end.

(** *** Section 101 *)

(** Split a definition's inner HTML at the first occurrence of the
    quoted term: the text before it and the text after it, or [None]
    for [null]. *)
Definition splitAtFirstTerm (html term : jsstring)
    : option (jsstring * jsstring) :=
  let target := [ldquo] ++ term ++ [rdquo] in
  match indexOfStr target html with
  | None => None
  | Some idx => Some (take idx html, slice (idx + length target) html)
  end.

(** [`<p class="def-popup-para ${indentClass}">${innerHtml}</p>`] *)
Definition defPopupPara (d : Title17.Sec101Def) : jsstring :=
  js "<p class=" ++ dq ++ js "def-popup-para " ++ Title17.indentClass d ++ dq
    ++ js ">" ++ Title17.innerHtml d ++ js "</p>".

(** The loop of [getFullDefHtml] from index [i] on, [rest] being the
    definitions from [i] on and [parts] the paragraphs pushed so far. *)
Fixpoint fullDefLoop (idx i : nat) (rest : list Title17.Sec101Def)
    (parts : list jsstring) : list jsstring :=
  match rest with
  | [] => parts
  | d :: rest' =>
      if (idx <? i)%nat && bool_decide (Title17.indentClass d = js "indent1")
      then parts
      else fullDefLoop idx (S i) rest' (parts ++ [defPopupPara d])
  end.

(** Collect the full definition HTML for a section 101 slug. *)
Definition getFullDefHtml (defs : list Title17.Sec101Def) (slug : jsstring)
    : jsstring :=
  match findIndex (fun d => bool_decide (Title17.defSlug d = Some slug)) defs with
  | None => []
  | Some idx => concat (fullDefLoop idx idx (drop idx defs) [])
  end.

(** *** Section 115(e) *)

Record Sec115eDef : Type := {
  blockIndex : nat;
  term : jsstring;
  slug : jsstring;
  anchor : jsstring;
  indent : Z
}.

(** [/class="num">\(e\)/] *)
Definition subsectionERe : regex :=
  Lit (js "class=" ++ dq ++ js "num" ++ dq ++ js ">(e)").

(** [/^<span class="num">([^<]+)<\/span>/] *)
Definition numMatchRe : regex :=
  seqs [Bol; Lit spanNumOpen; Group 1 (Plus true (Chr (notChar 60)));
        Lit spanClose].

(** What the loop of [parseSec115eDefs] pushes for block [i], if
    anything. *)
Definition sec115eDef (i : nat) (block : ContentBlock) : option Sec115eDef :=
  if (Types.indent block =? 2)%Z then
    match exec Title17.quotedTermRe (html block) with
    | Some (_, termMatch) =>
        let term := group 1 termMatch in
        let designator :=
          match exec numMatchRe (html block) with
          | Some (_, numMatch) => trim (group 1 numMatch)
          | None => []
          end in
        Some {| blockIndex := i; term := term; slug := Title17.slugOf term;
                anchor := js "(e)" ++ designator; indent := 2 |}
    | None => None
    end
  else None.

(** The loop of [parseSec115eDefs] from index [i] on. *)
Fixpoint sec115eLoop (i : nat) (content : list ContentBlock) (inE : bool)
    (defs : list Sec115eDef) : list Sec115eDef :=
  match content with
  | [] => defs
  | block :: rest =>
      if bool_decide (type block = js "subsection")
         && test subsectionERe (html block)
      then sec115eLoop (S i) rest true defs
      else if inE && bool_decide (type block = js "subsection")
              && (Types.indent block <=? 1)%Z
      then defs
      else if negb inE then sec115eLoop (S i) rest inE defs
      else
        sec115eLoop (S i) rest inE
          match sec115eDef i block with
          | Some d => defs ++ [d]
          | None => defs
          end
  end.

Definition parseSec115eDefs (content : list ContentBlock) : list Sec115eDef :=
  sec115eLoop 0 content false [].

(** [`<div class="def-popup-block" style="padding-left:${relPad}px">${html}</div>`] *)
Definition defPopupBlock (def : Sec115eDef) (block : ContentBlock) : jsstring :=
  let relPad := ((Types.indent block - indent def) * 24)%Z in
  js "<div class=" ++ dq ++ js "def-popup-block" ++ dq
    ++ js " style=" ++ dq ++ js "padding-left:" ++ numberToString relPad
    ++ js "px" ++ dq ++ js ">" ++ html block ++ js "</div>".

(** The loop of [getSec115eDefHtml] from index [i] on. *)
Fixpoint sec115eHtmlLoop (def : Sec115eDef) (i : nat)
    (rest : list ContentBlock) (parts : list jsstring) : list jsstring :=
  match rest with
  | [] => parts
  | block :: rest' =>
      if (blockIndex def <? i)%nat && (Types.indent block <=? indent def)%Z
      then parts
      else sec115eHtmlLoop def (S i) rest' (parts ++ [defPopupBlock def block])
  end.

Definition getSec115eDefHtml (content : list ContentBlock) (def : Sec115eDef)
    : jsstring :=
  concat (sec115eHtmlLoop def (blockIndex def) (drop (blockIndex def) content) []).

End Title17Defs.

(** ** Paragraph and definition tools of the multi-title viewer
    ([uscode/src/App.tsx]) *)

Module USCodeDefs.
Import JS Types JSLib.

Record SplitHtml : Type := { numText : jsstring; restHtml : jsstring }.

(** [/^(<span class="num">)(.*?)(<\/span>)([\s\S]* )$/] (a space keeps
    the comment open; the pattern has none) *)
Definition splitBlockHtmlRe : regex :=
  seqs [Bol; Group 1 (Lit spanNumOpen); Group 2 (Star false (Chr dot));
        Group 3 (Lit spanClose); Group 4 (Star true (Chr anyChar)); Eol].

Definition splitBlockHtml (html : jsstring) : option SplitHtml :=
  match exec splitBlockHtmlRe html with
  | None => None
  | Some (_, m) => Some {| numText := group 2 m; restHtml := group 4 m |}
  end.

(** The term is escaped before it goes into the pattern, so every code
    unit of it stands for itself:
    [new RegExp(`(\u201c${escaped}\u201d)`)]. *)
Definition firstTermRe (term : jsstring) : regex :=
  Group 1 (Lit ([ldquo] ++ term ++ [rdquo])).

(** [html.search(re)], then [html.match(re)]. *)
Definition splitAtFirstTerm (html term : jsstring)
    : option (jsstring * jsstring) :=
  match exec (firstTermRe term) html with
  | None => None
  | Some (b, e) =>
      let idx := (length html - length (after b))%nat in
      let endIdx := (idx + length (consumed b e))%nat in
      Some (take idx html, slice endIdx html)
  end.

(** What [SectionView] puts on the page for block [i] of an ordinary
    section.  Class names are left out. *)
Inductive Rendered : Type :=
| ParagraphToolBlock (anchor button body : jsstring)
| DefaultBlock (body : jsstring).

Definition renderBlock (paraMetaMap : gmap nat ParaMeta) (i : nat)
    (block : ContentBlock) : Rendered :=
  match paraMetaMap !! i with
  | Some meta =>
      match splitBlockHtml (html block) with
      | Some split =>
          ParagraphToolBlock (anchorId meta) (numText split) (restHtml split)
      | None => DefaultBlock (html block)
      end
  | None => DefaultBlock (html block)
  end.

End USCodeDefs.

(** ** Notes, reports and cross-references of the single-title viewer
    ([src/App.tsx]) *)

Module Title17Notes.
Import JS Types JSLib.

(** *** Committee reports *)

Record ReportRef : Type := report {
  citation : jsstring;
  body : jsstring;
  govinfoPkg : jsstring
}.

(** The own properties of the table, in the order of the source. *)
Definition PUB_LAW_REPORTS : list (jsstring * list ReportRef) :=
  [(js "94-553",
     [report (js "H.R. Rep. No. 94-1476") (js "House") (js "CRPT-94hrpt1476");
      report (js "S. Rep. No. 94-473") (js "Senate") (js "CRPT-94srpt473");
      report (js "H.R. Rep. No. 94-1733") (js "Conference") (js "CRPT-94hrpt1733")]);
   (js "96-517",
     [report (js "H.R. Rep. No. 96-1307") (js "House") (js "CRPT-96hrpt1307")]);
   (js "100-568",
     [report (js "H.R. Rep. No. 100-609") (js "House") (js "CRPT-100hrpt609");
      report (js "S. Rep. No. 100-352") (js "Senate") (js "CRPT-100srpt352")]);
   (js "101-650",
     [report (js "H.R. Rep. No. 101-735") (js "House") (js "CRPT-101hrpt735")]);
   (js "102-307",
     [report (js "H.R. Rep. No. 102-379") (js "House") (js "CRPT-102hrpt379")]);
   (js "102-563",
     [report (js "S. Rep. No. 102-294") (js "Senate") (js "CRPT-102srpt294");
      report (js "H.R. Rep. No. 102-873") (js "House") (js "CRPT-102hrpt873")]);
   (js "103-465",
     [report (js "H.R. Rep. No. 103-826") (js "House") (js "CRPT-103hrpt826")]);
   (js "104-39",
     [report (js "S. Rep. No. 104-128") (js "Senate") (js "CRPT-104srpt128")]);
   (js "105-80",
     [report (js "H.R. Rep. No. 105-339") (js "House") (js "CRPT-105hrpt339")]);
   (js "105-298",
     [report (js "H.R. Rep. No. 105-452") (js "House") (js "CRPT-105hrpt452")]);
   (js "105-304",
     [report (js "H.R. Rep. No. 105-551 (Pt." ++ [160] ++ js "1)") (js "House") (js "CRPT-105hrpt551pt1");
      report (js "H.R. Rep. No. 105-551 (Pt." ++ [160] ++ js "2)") (js "House") (js "CRPT-105hrpt551pt2");
      report (js "S. Rep. No. 105-190") (js "Senate") (js "CRPT-105srpt190");
      report (js "H.R. Rep. No. 105-796") (js "Conference") (js "CRPT-105hrpt796")]);
   (js "107-273",
     [report (js "H.R. Rep. No. 107-687") (js "House") (js "CRPT-107hrpt687")]);
   (js "108-419",
     [report (js "S. Rep. No. 108-144") (js "Senate") (js "CRPT-108srpt144")]);
   (js "110-403",
     [report (js "H.R. Rep. No. 110-617") (js "House") (js "CRPT-110hrpt617")]);
   (js "111-295",
     [report (js "H.R. Rep. No. 111-669") (js "House") (js "CRPT-111hrpt669")]);
   (js "115-264",
     [report (js "H.R. Rep. No. 115-651") (js "House") (js "CRPT-115hrpt651");
      report (js "S. Rep. No. 115-339") (js "Senate") (js "CRPT-115srpt339")]);
   (js "116-260",
     [report (js "H.R. Rep. No. 116-252") (js "House") (js "CRPT-116hrpt252")])].

(** [/Pub\.\s*L\.\s*(\d+)[–\-](\d+)/g]; the dash is U+2013. *)
Definition pubLawRe : regex :=
  seqs [Lit (js "Pub."); Star true (Chr isSpace); Lit (js "L.");
        Star true (Chr isSpace); Group 1 (Plus true (Chr isDigit));
        Chr (fun c => (c =? 8211) || (c =? 45));
        Group 2 (Plus true (Chr isDigit))].

(** [seen.add(x)] on a [Set] kept in insertion order. *)
Definition setAdd (x : jsstring) (seen : list jsstring) : list jsstring :=
  if bool_decide (x ∈ seen) then seen else seen ++ [x].

(** Parse all "Congress-LawNum" pairs out of a sourceCredit string.
    [None] stands for a loop that never ends. *)
Definition extractPubLaws (sourceCredit : jsstring) : option (list jsstring) :=
  foldl (fun seen m => setAdd (group 1 m.2 ++ js "-" ++ group 2 m.2) seen) []
    <$> execLoop (S (length sourceCredit)) pubLawRe [] sourceCredit.

(** [PUB_LAW_REPORTS[pl] ?? []] for a key that names no member of
    [Object.prototype]; the keys [extractPubLaws] returns are digits, a
    hyphen and digits. *)
Definition reportsOf (pl : jsstring) : list ReportRef :=
  default []
    (snd <$> find (fun kv => bool_decide (kv.1 = pl)) PUB_LAW_REPORTS).

Definition reportsForSourceCredit (sourceCredit : jsstring)
    : option (list ReportRef) :=
  flat_map reportsOf <$> extractPubLaws sourceCredit.

(** *** USLM link resolver *)

(** What a click ends in. *)
Inductive ClickResult : Type :=
| Ignored                               (* returns before [preventDefault] *)
| Navigate (v : Title17.ViewState)      (* [preventDefault], [onNavigate(v)] *)
| OpenWindow (url : jsstring)           (* [preventDefault], [window.open(url, ...)] *)
| Prevented.                            (* [preventDefault] and nothing else *)

(** [/^\/us\/usc\/t17\/s(\d+[A-Z0-9]* )/i] (a space keeps the comment
    open; the pattern has none).  With the [i] flag the class holds the
    letters of both cases. *)
Definition uscRe : regex :=
  seqs [Bol; LitI (js "/us/usc/t17/s");
        Group 1 (Seq (Plus true (Chr isDigit))
                   (Star true (Chr (fun c => isUpper c || isLower c || isDigit c))))].

(** [/^\/us\/pl\/(\d+)\/(\d+)/] *)
Definition plRe : regex :=
  seqs [Bol; Lit (js "/us/pl/"); Group 1 (Plus true (Chr isDigit));
        Lit (js "/"); Group 2 (Plus true (Chr isDigit))].

(** [/^\/us\/stat\/(\d+)\/(\d+)/] *)
Definition statRe : regex :=
  seqs [Bol; Lit (js "/us/stat/"); Group 1 (Plus true (Chr isDigit));
        Lit (js "/"); Group 2 (Plus true (Chr isDigit))].

(** [anchorHref] is what the click finds: [None] when the target has
    no enclosing [a], [Some None] when the [a] has no [href]. *)
Definition handleUslmClick (anchorHref : option (option jsstring))
    : ClickResult :=
  match anchorHref with
  | None => Ignored
  | Some None => Ignored
  | Some (Some href) =>
      if negb (truthy href) || negb (startsWith (js "/us/") href) then Ignored
      else
        match exec uscRe href with
        | Some (_, uscMatch) =>
            Navigate (Title17.SectionV (group 1 uscMatch) None)
        | None =>
        match exec plRe href with
        | Some (_, plMatch) =>
            OpenWindow (js "https://www.govinfo.gov/link/plaw/"
                          ++ group 1 plMatch ++ js "/public/" ++ group 2 plMatch)
        | None =>
        match exec statRe href with
        | Some (_, statMatch) =>
            OpenWindow (js "https://www.govinfo.gov/link/statute/"
                          ++ group 1 statMatch ++ js "/" ++ group 2 statMatch)
        | None => Prevented
        end end end
  end.

(** *** Notes panel (the same loop in both viewers) *)

Record NoteBlock : Type := {
  topic : jsstring;
  heading : jsstring;
  html : jsstring
}.

Definition TOPIC_HEADING : list (jsstring * jsstring) :=
  [(js "historicalAndRevision", js "Historical and Revision Notes");
   (js "amendments", js "Amendments");
   (js "effectiveDateOfAmendment", js "Effective Date of Amendment");
   (js "editorialNotes", js "Editorial Notes");
   (js "statutoryNotes", js "Statutory Notes");
   (js "referencesInText", js "References in Text");
   (js "shortTitleOfAmendment", js "Short Title");
   (js "effectiveDate", js "Effective Date");
   (js "priorProvisions", js "Prior Provisions");
   (js "separability", js "Separability");
   (js "execDoc", js "Executive Document");
   (js "removalDescription", js "Removal Description");
   (js "definitions", js "Definitions");
   (js "savings", js "Savings Provisions");
   (js "constitutionality", js "Constitutionality");
   (js "codification", js "Codification");
   (js "executiveOrder", js "Executive Order")].

(** The names [Object.prototype] answers to: for them the lookup
    [TOPIC_HEADING[topic]] gives an inherited member, which is not a
    string and is truthy. *)
Definition objectPrototypeKeys : list jsstring :=
  [js "constructor"; js "hasOwnProperty"; js "isPrototypeOf";
   js "propertyIsEnumerable"; js "toLocaleString"; js "toString";
   js "valueOf"; js "__proto__"; js "__defineGetter__";
   js "__defineSetter__"; js "__lookupGetter__"; js "__lookupSetter__"].

(** The value of a heading: a string, or the member of
    [Object.prototype] of that name. *)
Inductive Heading : Type :=
| Text (s : jsstring)
| Inherited (key : jsstring).

Definition truthyHeading (h : Heading) : bool :=
  match h with
  | Text s => truthy s
  | Inherited _ => true
  end.

(** [note.heading || TOPIC_HEADING[note.topic] || ''] *)
Definition headingOf (note : NoteBlock) : Heading :=
  if truthy (heading note) then Text (heading note)
  else
    match find (fun kv => bool_decide (kv.1 = topic note)) TOPIC_HEADING with
    | Some kv => if truthy kv.2 then Text kv.2 else Text []
    | None =>
        if bool_decide (topic note ∈ objectPrototypeKeys)
        then Inherited (topic note) else Text []
    end.

Record RenderedNote : Type := {
  itemHeading : Heading;        (* [heading] *)
  isHeader : bool;
  itemHtml : jsstring           (* [html] *)
}.

(** The body of the loop over the notes: the items pushed so far and
    [pendingHeader]. *)
Definition noteStep (st : list RenderedNote * Heading) (note : NoteBlock)
    : list RenderedNote * Heading :=
  let '(rendered, pendingHeader) := st in
  let heading := headingOf note in
  if negb (truthy (html note)) then (rendered, heading)
  else
    (rendered ++
       [{| itemHeading := if truthyHeading pendingHeader then pendingHeader
                          else heading;
           isHeader := truthyHeading pendingHeader;
           itemHtml := html note |}],
     Text []).

(** The list [rendered] that [NotesPanel] maps over. *)
Definition renderedNotes (notes : list NoteBlock) : list RenderedNote :=
  let '(rendered, pendingHeader) := foldl noteStep ([], Text []) notes in
  if truthyHeading pendingHeader
  then rendered ++ [{| itemHeading := pendingHeader; isHeader := false;
                       itemHtml := [] |}]
  else rendered.

End Title17Notes.

(** ** The table of contents ([types.ts]) *)

Module TocSection.
Import JS.
Record t : Type := {
  number : jsstring;
  numText : jsstring;
  heading : jsstring;
  identifier : jsstring
}.
End TocSection.

Module TocChapter.
Import JS.
Record t : Type := {
  number : jsstring;
  heading : jsstring;
  identifier : jsstring;
  sections : list TocSection.t
}.
End TocChapter.

Module TocTitle.
Import JS.
Record t : Type := {
  number : jsstring;
  name : jsstring;
  identifier : jsstring;
  chapters : list TocChapter.t
}.
End TocTitle.

(** ** Moving through the table of contents *)

Module Title17Nav.
Import JS Types JSLib.

(** [tocData.chapters.flatMap(ch => ch.sections)] *)
Definition allSections (chapters : list TocChapter.t) : list TocSection.t :=
  flat_map TocChapter.sections chapters.

(** [allSections.findIndex(s => s.number === sectionNum)] *)
Definition sectionIndex (all : list TocSection.t) (sectionNum : jsstring) : Z :=
  match findIndex (fun s => bool_decide (TocSection.number s = sectionNum)) all with
  | Some i => Z.of_nat i
  | None => (-1)%Z
  end.

Definition prevSection (all : list TocSection.t) (sectionNum : jsstring)
    : option TocSection.t :=
  let i := sectionIndex all sectionNum in
  if (0 <? i)%Z then all !! Z.to_nat (i - 1) else None.

Definition nextSection (all : list TocSection.t) (sectionNum : jsstring)
    : option TocSection.t :=
  let i := sectionIndex all sectionNum in
  if (i <? Z.of_nat (length all) - 1)%Z then all !! Z.to_nat (i + 1) else None.

(** [highlightText]: the parts of the text and whether each is
    marked.  The query is escaped before it goes into the pattern, so
    every code unit of it stands for itself, letters in either case:
    [new RegExp(`(${escapedQuery})`, 'gi')]. *)
Definition highlightText (text query : jsstring) : list (bool * jsstring) :=
  if negb (truthy query) then [(false, text)]
  else
    map (fun part =>
           (bool_decide (toLowerCase part = toLowerCase query), part))
      (split (Group 1 (LitI query)) text).

End Title17Nav.

Module USCodeNav.
Import JS Types JSLib.

Record SearchResult : Type := {
  titleNum : jsstring;
  titleName : jsstring;
  section : TocSection.t
}.

(** The test of the innermost loop of the search. *)
Definition hit (q : jsstring) (title : TocTitle.t) (sec : TocSection.t) : bool :=
  includes q (toLowerCase (TocSection.heading sec))
  || includes q (toLowerCase (TocSection.number sec))
  || includes q (TocTitle.number title ++ js " usc " ++ TocSection.number sec).

(** The three loops of the search.  The flag tells that the function
    has returned from inside the loop. *)
Fixpoint searchSections (q : jsstring) (title : TocTitle.t)
    (secs : list TocSection.t) (results : list SearchResult)
    : list SearchResult * bool :=
  match secs with
  | [] => (results, false)
  | sec :: secs' =>
      if hit q title sec then
        let results :=
          results ++ [{| titleNum := TocTitle.number title;
                         titleName := TocTitle.name title;
                         section := sec |}] in
        if (60 <=? length results)%nat then (results, true)
        else searchSections q title secs' results
      else searchSections q title secs' results
  end.

Fixpoint searchChapters (q : jsstring) (title : TocTitle.t)
    (chs : list TocChapter.t) (results : list SearchResult)
    : list SearchResult * bool :=
  match chs with
  | [] => (results, false)
  | ch :: chs' =>
      let '(results, returned) :=
        searchSections q title (TocChapter.sections ch) results in
      if returned then (results, true)
      else searchChapters q title chs' results
  end.

Fixpoint searchTitles (q : jsstring) (titles : list TocTitle.t)
    (results : list SearchResult) : list SearchResult :=
  match titles with
  | [] => results
  | title :: titles' =>
      let '(results, returned) :=
        searchChapters q title (TocTitle.chapters title) results in
      if returned then results else searchTitles q titles' results
  end.

(** [searchResults] of the sidebar; [None] for [null]. *)
Definition searchResults (titles : list TocTitle.t) (query : jsstring)
    : option (list SearchResult) :=
  if negb (truthy (trim query)) then None
  else Some (searchTitles (toLowerCase query) titles []).

End USCodeNav.

(** ** Per-title data fetching of the multi-title viewer
    ([uscode/src/App.tsx]) *)

Module USCodeFetch.
Import JS Types.

(** The two module-level maps, and the requests [fetch] has been asked
    to make so far.  The data of a title is left abstract. *)
Record State (Data : Type) : Type := {
  titleCache : gmap jsstring Data;
  titlePromises : gset jsstring;     (* the keys of [titlePromises] *)
  requests : list jsstring           (* [fetch(`./data/t${titleNum}.json`)] *)
}.
Arguments titleCache {Data} _.
Arguments titlePromises {Data} _.
Arguments requests {Data} _.

Definition initial {Data} : State Data :=
  {| titleCache := ∅; titlePromises := ∅; requests := [] |}.

(** What a call of [fetchTitle] hands back. *)
Inductive Answer (Data : Type) : Type :=
| Resolved (data : Data)            (* [Promise.resolve(titleCache.get(titleNum))] *)
| Pending (titleNum : jsstring).    (* the promise kept for the title *)
Arguments Resolved {Data} data.
Arguments Pending {Data} titleNum.

Definition fetchTitle {Data} (st : State Data) (titleNum : jsstring)
    : State Data * Answer Data :=
  match titleCache st !! titleNum with
  | Some data => (st, Resolved data)
  | None =>
      if bool_decide (titleNum ∈ titlePromises st) then (st, Pending titleNum)
      else
        ({| titleCache := titleCache st;
            titlePromises := {[ titleNum ]} ∪ titlePromises st;
            requests := requests st ++ [titleNum] |},
         Pending titleNum)
  end.

(** The second [then] of the promise: the data has arrived. *)
Definition arrived {Data} (st : State Data) (titleNum : jsstring) (data : Data)
    : State Data :=
  {| titleCache := <[titleNum := data]> (titleCache st);
     titlePromises := titlePromises st;
     requests := requests st |}.

(** What happens to the module: a call, the arrival of the data of a
    request, or the failure of a request (which changes nothing). *)
Inductive Event (Data : Type) : Type :=
| Call (titleNum : jsstring)
| Arrives (titleNum : jsstring) (data : Data)
| Fails (titleNum : jsstring).
Arguments Call {Data} titleNum.
Arguments Arrives {Data} titleNum data.
Arguments Fails {Data} titleNum.

Definition step {Data} (st : State Data) (ev : Event Data) : State Data :=
  match ev with
  | Call titleNum => (fetchTitle st titleNum).1
  | Arrives titleNum data => arrived st titleNum data
  | Fails _ => st
  end.

Definition run {Data} (events : list (Event Data)) : State Data :=
  foldl step initial events.

End USCodeFetch.

(** ** Shapes used to state the further results *)

Module Props.
Import JS Types JSLib.


(** The paragraphs that continue a definition of section 101: those up
    to the next paragraph of class [indent1]. *)
Fixpoint subParagraphs (rest : list Title17.Sec101Def)
    : list Title17.Sec101Def :=
  match rest with
  | [] => []
  | d :: rest' =>
      if bool_decide (Title17.indentClass d = js "indent1") then []
      else d :: subParagraphs rest'
  end.

(** The blocks below a block of indent [level]: those up to the next
    block that is not deeper. *)
Fixpoint deeperBlocks (level : Z) (rest : list ContentBlock)
    : list ContentBlock :=
  match rest with
  | [] => []
  | b :: rest' =>
      if (indent b <=? level)%Z then [] else b :: deeperBlocks level rest'
  end.

(** The block opens subsection (e). *)
Definition opensE (b : ContentBlock) : bool :=
  bool_decide (type b = js "subsection")
  && test Title17Defs.subsectionERe (html b).

(** A pattern whose every match consumes input. *)
Definition consuming (r : regex) : Prop :=
  forall st e, In e (rmatch r st) -> (length (after e) < length (after st))%nat.

(** A key of the table of committee reports: digits, a hyphen,
    digits. *)
Definition isLawKey (k : jsstring) : Prop :=
  exists congress law,
    k = congress ++ js "-" ++ law
    /\ congress <> [] /\ forallb isDigit congress = true
    /\ law <> [] /\ forallb isDigit law = true.

(** The text cites the public law [congress]-[law]. *)
Definition citesLaw (s congress law : jsstring) : Prop :=
  exists x ws1 ws2 dash y,
    s = x ++ js "Pub." ++ ws1 ++ js "L." ++ ws2 ++ congress ++ [dash] ++ law ++ y
    /\ forallb isSpace ws1 = true /\ forallb isSpace ws2 = true
    /\ (dash = 8211 \/ dash = 45).

(** A section number as the link resolver reads it: a digit, then
    digits and letters. *)
Definition isAlnum (c : char) : bool := isUpper c || isLower c || isDigit c.
Definition isSectionId (s : jsstring) : bool :=
  match s with
  | c :: s' => isDigit c && forallb isAlnum s'
  | [] => false
  end.

Definition isDigits (s : jsstring) : bool := truthy s && forallb isDigit s.

(** Every section of the table of contents that the query hits, in
    the order of the table. *)
Definition resultOf (title : TocTitle.t) (sec : TocSection.t)
    : USCodeNav.SearchResult :=
  {| USCodeNav.titleNum := TocTitle.number title;
     USCodeNav.titleName := TocTitle.name title;
     USCodeNav.section := sec |}.
Definition sectionHits (q : jsstring) (title : TocTitle.t)
    (secs : list TocSection.t) : list USCodeNav.SearchResult :=
  map (resultOf title) (List.filter (USCodeNav.hit q title) secs).
Definition chapterHits (q : jsstring) (title : TocTitle.t)
    (chs : list TocChapter.t) : list USCodeNav.SearchResult :=
  flat_map (fun ch => sectionHits q title (TocChapter.sections ch)) chs.
Definition allHits (q : jsstring) (titles : list TocTitle.t)
    : list USCodeNav.SearchResult :=
  flat_map (fun title => chapterHits q title (TocTitle.chapters title)) titles.

(** The markup begins with a designator span as the multi-title
    viewer reads it: the token runs up to the first [</span>] and holds
    no line terminator. *)
Definition beginsWithSpan (html token rest : jsstring) : Prop :=
  html = spanNumOpen ++ token ++ spanClose ++ rest
  /\ forallb dot token = true
  /\ indexOfStr spanClose (token ++ spanClose ++ rest) = Some (length token).

(** The pattern of [USCodeDefs.splitBlockHtml] after the token. *)
Definition closeAndRest : regex :=
  seqs [Group 3 (Lit spanClose); Group 4 (Star true (Chr anyChar)); Eol].

(** An indent whose padding JavaScript computes exactly and writes in
    plain digits. *)
Definition plainIndent (b : ContentBlock) : Prop :=
  (Z.abs (indent b) < 2 ^ 32)%Z.

(** A code unit of Basic Latin, where the case mapping of the model is
    that of JavaScript. *)
Definition isBasicLatin (c : char) : bool := c <? 128.

(** Strictly increasing numbers. *)
Inductive ascending : list nat -> Prop :=
| ascending_nil : ascending []
| ascending_cons x l :
    Forall (lt x) l -> ascending l -> ascending (x :: l).

End Props.

(** ** More concrete inputs *)

Module MoreExamples.
Import JS Types JSLib.

(** The record [parseSec101Defs] makes of the motion picture
    paragraph, in the single-title viewer and in the multi-title one. *)
Definition motionPictureDef : Title17.Sec101Def :=
  {| Title17.indentClass := js "indent1";
     Title17.innerHtml := Examples.motionPictureInner;
     Title17.defTerm := Some (js "motion picture");
     Title17.defSlug := Some (js "motion-picture") |}.
Definition motionPictureUsc : USCode.Sec101Def :=
  {| USCode.slug := js "motion-picture";
     USCode.term := js "motion picture";
     USCode.innerHtml := Examples.motionPictureInner;
     USCode.indentClass := js "indent1" |}.

(** A sub-item of a definition and the definition after it. *)
Definition subItem : Title17.Sec101Def :=
  {| Title17.indentClass := js "indent2";
     Title17.innerHtml := js "(1) a first kind;";
     Title17.defTerm := None;
     Title17.defSlug := None |}.
Definition nextDef : Title17.Sec101Def :=
  {| Title17.indentClass := js "indent1";
     Title17.innerHtml := [ldquo] ++ js "Phonorecords" ++ [rdquo] ++ js " are objects.";
     Title17.defTerm := Some (js "Phonorecords");
     Title17.defSlug := Some (js "phonorecords") |}.

(** Subsection (e) of a section with one definition and a clause
    below it, between subsections (d) and (f). *)
Definition section115 : list ContentBlock :=
  [Examples.block (js "subsection") 1 (spanNumOpen ++ js "(d)</span> Before.");
   Examples.block (js "subsection") 1 (spanNumOpen ++ js "(e)</span> Definitions.");
   Examples.block (js "paragraph") 2
     (spanNumOpen ++ js "(1)</span> The term " ++ [ldquo] ++ js "Cover" ++ [rdquo]
        ++ js " means a wrapper.");
   Examples.block (js "subparagraph") 3 (spanNumOpen ++ js "(A)</span> of paper;");
   Examples.block (js "subsection") 1 (spanNumOpen ++ js "(f)</span> After.")].
Definition coverDef : Title17Defs.Sec115eDef :=
  {| Title17Defs.blockIndex := 2;
     Title17Defs.term := js "Cover";
     Title17Defs.slug := js "cover";
     Title17Defs.anchor := js "(e)(1)";
     Title17Defs.indent := 2 |}.

(** A source credit that cites one public law twice and another once. *)
Definition credit : jsstring :=
  js "Pub. L. 94" ++ [8211] ++ js "553, title I; Pub. L. 105-304; Pub.L. 94-553.".

(** Three notes: a heading without a body, a note it heads, a note of
    its own. *)
Definition note (t h b : jsstring) : Title17Notes.NoteBlock :=
  {| Title17Notes.topic := t; Title17Notes.heading := h; Title17Notes.html := b |}.
Definition notes : list Title17Notes.NoteBlock :=
  [note (js "editorialNotes") [] [];
   note (js "amendments") [] (js "<p>2004</p>");
   note (js "miscellaneous") (js "Effective Date") (js "<p>1978</p>")].

(** A table of contents of one title with two chapters. *)
Definition sec (n h : jsstring) : TocSection.t :=
  {| TocSection.number := n; TocSection.numText := [167; 32] ++ n;
     TocSection.heading := h; TocSection.identifier := js "/us/usc/t17/s" ++ n |}.
Definition chapter (n h : jsstring) (ss : list TocSection.t) : TocChapter.t :=
  {| TocChapter.number := n; TocChapter.heading := h;
     TocChapter.identifier := js "/us/usc/t17/ch" ++ n; TocChapter.sections := ss |}.
Definition chapters : list TocChapter.t :=
  [chapter (js "1") (js "Subject Matter and Scope of Copyright")
     [sec (js "101") (js "Definitions"); sec (js "102") (js "Subject matter")];
   chapter (js "2") (js "Copyright Ownership and Transfer")
     [sec (js "201") (js "Ownership of copyright")]].

End MoreExamples.


(** * Proofs *)

Import JS Types Shape.

(** ** The matcher *)

Lemma flat_map_singleton {A B} (f : A -> list B) (x : A) :
  flat_map f [x] = f x.
Proof. simpl. apply app_nil_r. Qed.

Lemma rmatch_seq r1 r2 st :
  rmatch (Seq r1 r2) st = flat_map (rmatch r2) (rmatch r1 st).
Proof. reflexivity. Qed.

Lemma rmatch_group n r st :
  rmatch (Group n r) st = map (capture n st) (rmatch r st).
Proof. reflexivity. Qed.

Lemma rmatch_chr_hit p c rest st :
  after st = c :: rest -> p c = true ->
  rmatch (Chr p) st = [advance [c] rest st].
Proof. intros Ha Hp. simpl. rewrite Ha, Hp. reflexivity. Qed.

Lemma rmatch_chr_miss p c rest st :
  after st = c :: rest -> p c = false -> rmatch (Chr p) st = [].
Proof. intros Ha Hp. simpl. rewrite Ha, Hp. reflexivity. Qed.

Lemma rmatch_chr_end p st : after st = [] -> rmatch (Chr p) st = [].
Proof. intros Ha. simpl. rewrite Ha. reflexivity. Qed.

(** Literals *)
Lemma rmatch_lit_app l rest st K :
  after st = l ++ rest ->
  rmatch (Seq (Lit l) K) st = rmatch K (advance l rest st).
Proof.
  revert st. induction l as [|x l IH]; intros st Ha.
  - destruct st as [b a c]. simpl in *. subst a. unfold advance. simpl.
    apply app_nil_r.
  - change (Lit (x :: l)) with (Seq (Chr (isChar x)) (Lit l)).
    rewrite rmatch_seq.
    rewrite (rmatch_seq (Chr (isChar x)) (Lit l)).
    rewrite (rmatch_chr_hit _ x (l ++ rest)); [|done|unfold isChar; apply N.eqb_refl].
    rewrite flat_map_singleton.
    rewrite <- rmatch_seq. rewrite (IH (advance [x] (l ++ rest) st)); [|done].
    unfold advance. simpl. rewrite reverse_cons, <- app_assoc. reflexivity.
Qed.

Lemma advance_nil st : advance [] (after st) st = st.
Proof. destruct st; reflexivity. Qed.

Lemma advance_advance l1 r1 l2 r2 st :
  advance l2 r2 (advance l1 r1 st) = advance (l1 ++ l2) r2 st.
Proof. unfold advance. simpl. rewrite reverse_app, <- app_assoc. reflexivity. Qed.

Lemma rmatch_lit_miss l st K :
  (forall rest, after st <> l ++ rest) -> rmatch (Seq (Lit l) K) st = [].
Proof.
  revert st. induction l as [|x l IH]; intros st Hne.
  - exfalso. apply (Hne (after st)). reflexivity.
  - change (Lit (x :: l)) with (Seq (Chr (isChar x)) (Lit l)).
    rewrite rmatch_seq, (rmatch_seq (Chr (isChar x)) (Lit l)).
    destruct (after st) as [|c rest] eqn:Ha.
    + rewrite rmatch_chr_end by done. reflexivity.
    + destruct (isChar x c) eqn:Hc.
      * rewrite (rmatch_chr_hit _ c rest) by done.
        rewrite flat_map_singleton, <- rmatch_seq.
        apply IH. intros rest' Hr. simpl in Hr. subst rest.
        apply (Hne rest'). unfold isChar in Hc. apply N.eqb_eq in Hc.
        subst c. reflexivity.
      * rewrite (rmatch_chr_miss _ c rest) by done. reflexivity.
Qed.

(** Repetition of a character class *)
Lemma rmatch_star_hit p g c rest st :
  after st = c :: rest -> p c = true ->
  rmatch (Star g (Chr p)) st =
    if g then rmatch (Star g (Chr p)) (advance [c] rest st) ++ [st]
    else st :: rmatch (Star g (Chr p)) (advance [c] rest st).
Proof.
  intros Ha Hp.
  change (rmatch (Star g (Chr p)) st)
    with (star (S (length (after st))) (rmatch (Chr p)) g st).
  cbn [star]. rewrite (rmatch_chr_hit p c rest st Ha Hp).
  rewrite flat_map_singleton. rewrite Ha. cbn [advance after length].
  assert (Hlt : (length rest <? S (length rest))%nat = true)
    by (apply Nat.ltb_lt; lia).
  rewrite Hlt.
  change (rmatch (Star g (Chr p)) (advance [c] rest st))
    with (star (S (length rest)) (rmatch (Chr p)) g (advance [c] rest st)).
  reflexivity.
Qed.


Lemma rmatch_star_stop p g st :
  blocked p (after st) -> rmatch (Star g (Chr p)) st = [st].
Proof.
  intros Hb.
  change (rmatch (Star g (Chr p)) st)
    with (star (S (length (after st))) (rmatch (Chr p)) g st).
  cbn [star]. unfold blocked in Hb. simpl.
  destruct (after st) as [|c rest]; [destruct g; reflexivity|].
  rewrite Hb. destruct g; reflexivity.
Qed.

(** A greedy repetition over a run of the class: the whole run first,
    then only states that still have a character of the class ahead. *)
Lemma star_run p run : forall tail st,
  forallb p run = true -> blocked p tail -> after st = run ++ tail ->
  exists others,
    rmatch (Star true (Chr p)) st = advance run tail st :: others
    /\ Forall (ahead p) others.
Proof.
  induction run as [|c run IH]; intros tail st Hrun Hb Ha.
  - exists []. split; [|constructor].
    rewrite rmatch_star_stop by (rewrite Ha; exact Hb).
    simpl in Ha. rewrite <- Ha, advance_nil. reflexivity.
  - simpl in Hrun. apply andb_true_iff in Hrun as [Hc Hrun].
    rewrite (rmatch_star_hit p true c (run ++ tail) st Ha Hc).
    destruct (IH tail (advance [c] (run ++ tail) st) Hrun Hb eq_refl)
      as (others & Ho & Hall).
    exists (others ++ [st]). split.
    + rewrite Ho, advance_advance. reflexivity.
    + apply Forall_app. split; [exact Hall|].
      constructor; [|constructor]. unfold ahead. rewrite Ha. exact Hc.
Qed.

(** The same for [p+]. *)
Lemma plus_run p c run tail st :
  p c = true -> forallb p run = true -> blocked p tail ->
  after st = c :: run ++ tail ->
  exists others,
    rmatch (Plus true (Chr p)) st = advance (c :: run) tail st :: others
    /\ Forall (ahead p) others.
Proof.
  intros Hc Hrun Hb Ha. unfold Plus. rewrite rmatch_seq.
  rewrite (rmatch_chr_hit p c (run ++ tail) st Ha Hc), flat_map_singleton.
  destruct (star_run p run tail (advance [c] (run ++ tail) st) Hrun Hb eq_refl)
    as (others & Ho & Hall).
  exists others. split; [|exact Hall].
  rewrite Ho, advance_advance. reflexivity.
Qed.

Lemma plus_none p st K :
  blocked p (after st) -> rmatch (Seq (Plus true (Chr p)) K) st = [].
Proof.
  intros Hb. unfold Plus. rewrite !rmatch_seq. unfold blocked in Hb.
  destruct (after st) as [|c rest] eqn:Ha.
  - rewrite rmatch_chr_end by done. reflexivity.
  - rewrite (rmatch_chr_miss p c rest) by done. reflexivity.
Qed.

(** Anchored search *)
Lemma search_bol_later r : forall aft c bef,
  search (Seq Bol r) (c :: bef) aft = None.
Proof.
  induction aft as [|x aft IH]; intros c bef; simpl; [reflexivity|].
  apply IH.
Qed.

Lemma search_bol r s :
  search (Seq Bol r) [] s =
    match rmatch r (MState [] s []) with
    | e :: _ => Some (MState [] s [], e)
    | [] => None
    end.
Proof.
  destruct s as [|c s]; simpl; rewrite app_nil_r.
  - destruct (rmatch r _); reflexivity.
  - destruct (rmatch r _); [|reflexivity]. apply search_bol_later.
Qed.

(** ** Identifiers of the address grammar *)

Lemma consumed_advance l rest st :
  after st = l ++ rest -> consumed st (advance l rest st) = l.
Proof.
  intros Ha. unfold consumed, advance. simpl. rewrite Ha.
  rewrite length_app.
  replace (length l + length rest - length rest)%nat with (length l) by lia.
  apply take_app_length.
Qed.

Lemma capture_advance n l rest st :
  after st = l ++ rest ->
  capture n st (advance l rest st) = captured n l rest st.
Proof.
  intros Ha. unfold capture, captured.
  rewrite (consumed_advance l rest st Ha). reflexivity.
Qed.

Lemma ahead_capture p n st e : ahead p e -> ahead p (capture n st e).
Proof. unfold ahead. simpl. auto. Qed.

Lemma digit_not_upper c : isDigit c = true -> isUpper c = false.
Proof.
  unfold isDigit, isUpper, inRange. intros H.
  apply andb_true_iff in H as [H1 H2].
  apply N.leb_le in H1, H2. apply andb_false_iff. left.
  apply N.leb_gt. lia.
Qed.

Lemma upper_not_digit c : isUpper c = true -> isDigit c = false.
Proof.
  intros H. destruct (isDigit c) eqn:E; [|reflexivity].
  apply digit_not_upper in E. congruence.
Qed.

Lemma digitsThenCaps_split s :
  digitsThenCaps s = true ->
  exists d u, s = d ++ u /\ forallb isDigit d = true
              /\ forallb isUpper u = true.
Proof.
  induction s as [|c s IH]; intros H.
  - exists [], []. auto.
  - simpl in H. destruct (isDigit c) eqn:Hd.
    + destruct (IH H) as (d & u & -> & Hdd & Hu).
      exists (c :: d), u. simpl. rewrite Hd. auto.
    + exists [], (c :: s). auto.
Qed.

Lemma blocked_digit_caps u tail :
  forallb isUpper u = true -> blocked isDigit tail -> blocked isDigit (u ++ tail).
Proof.
  destruct u as [|c u]; [auto|]. simpl. intros H _.
  apply andb_true_iff in H as [H _]. apply upper_not_digit, H.
Qed.

Lemma star_blocked_id p (l : list mstate) :
  Forall (fun st => blocked p (after st)) l ->
  flat_map (rmatch (Star true (Chr p))) l = l.
Proof.
  induction 1 as [|st l Hst _ IH]; [reflexivity|].
  cbn [flat_map]. rewrite rmatch_star_stop by exact Hst. rewrite IH.
  reflexivity.
Qed.

(** [numRe] over an identifier: the whole identifier first; every other
    way to match stops at a digit or a capital letter. *)
Lemma numRe_results s tail st :
  isNumber s = true -> blocked isAlnumCap tail -> after st = s ++ tail ->
  exists others,
    rmatch numRe st = advance s tail st :: others
    /\ Forall (ahead isAlnumCap) others.
Proof.
  intros Hs Hb Ha. destruct s as [|c s]; [discriminate|].
  simpl in Hs. apply andb_true_iff in Hs as [Hc Hs].
  destruct (digitsThenCaps_split s Hs) as (d & u & -> & Hd & Hu).
  assert (Hbd : blocked isDigit tail /\ blocked isUpper tail).
  { destruct tail as [|x tail]; [split; exact I|]. simpl in *.
    unfold isAlnumCap in Hb. apply orb_false_iff in Hb. exact Hb. }
  destruct Hbd as [Hbd Hbu].
  unfold numRe. rewrite rmatch_seq.
  destruct (plus_run isDigit c d (u ++ tail) st Hc Hd
              (blocked_digit_caps u tail Hu Hbd))
    as (od & Hod & Hdall).
  { rewrite Ha. simpl. rewrite <- app_assoc. reflexivity. }
  rewrite Hod. cbn [flat_map].
  destruct (star_run isUpper u tail (advance (c :: d) (u ++ tail) st) Hu Hbu eq_refl)
    as (ou & Hou & Huall).
  rewrite Hou, advance_advance.
  rewrite star_blocked_id.
  2:{ eapply Forall_impl; [exact Hdall|]. intros e He. unfold ahead in He.
      unfold blocked. destruct (after e); [exact I|].
      apply digit_not_upper, He. }
  exists (ou ++ od). split.
  { reflexivity. }
  apply Forall_app. split.
  - eapply Forall_impl; [exact Huall|]. intros e He. unfold ahead in *.
    destruct (after e); [exact He|]. unfold isAlnumCap. rewrite He.
    apply orb_true_r.
  - eapply Forall_impl; [exact Hdall|]. intros e He. unfold ahead in *.
    destruct (after e); [exact He|]. unfold isAlnumCap. rewrite He.
    reflexivity.
Qed.

Lemma flat_map_rejected {A} (f : mstate -> list A) (P : mstate -> Prop) l :
  (forall st, P st -> f st = []) -> Forall P l -> flat_map f l = [].
Proof.
  intros Hf. induction 1 as [|st l Hst _ IH]; [reflexivity|].
  cbn [flat_map]. rewrite (Hf st Hst), IH. reflexivity.
Qed.

(** A captured identifier followed by a pattern that cannot start
    inside it: the match is forced. *)
Lemma group_num_seq n s tail st K :
  isNumber s = true -> blocked isAlnumCap tail -> after st = s ++ tail ->
  rejectsAlnum K ->
  rmatch (Seq (Group n numRe) K) st = rmatch K (captured n s tail st).
Proof.
  intros Hs Hb Ha HK.
  destruct (numRe_results s tail st Hs Hb Ha) as (others & Ho & Hall).
  rewrite rmatch_seq. cbn [rmatch]. fold numRe. rewrite Ho.
  cbn [map flat_map]. rewrite (capture_advance n s tail st Ha).
  rewrite (flat_map_rejected (rmatch K) (ahead isAlnumCap)).
  - apply app_nil_r.
  - exact HK.
  - apply Forall_map. eapply Forall_impl; [exact Hall|].
    intros e He. apply ahead_capture, He.
Qed.

Lemma rejects_lit x l K :
  isAlnumCap x = false -> rejectsAlnum (Seq (Lit (x :: l)) K).
Proof.
  intros Hx st Hst. apply rmatch_lit_miss. intros rest Hr.
  unfold ahead in Hst. rewrite Hr in Hst. simpl in Hst. congruence.
Qed.

Lemma rejects_eol K : rejectsAlnum (Seq Eol K).
Proof.
  intros st Hst. rewrite rmatch_seq. unfold ahead in Hst. simpl.
  destruct (after st); [contradiction|reflexivity].
Qed.

Lemma rejects_group_chr n x R K :
  isAlnumCap x = false -> rejectsAlnum (Seq (Group n (Seq (Chr (isChar x)) R)) K).
Proof.
  intros Hx st Hst. rewrite rmatch_seq. cbn [rmatch]. unfold ahead in Hst.
  destruct (after st) as [|c rest]; [contradiction|].
  destruct (isChar x c) eqn:E; [|reflexivity].
  unfold isChar in E. apply N.eqb_eq in E. subst c. congruence.
Qed.

(** ** The multi-title codec *)

Lemma group_eol n X l st others :
  after st = l -> rmatch X st = advance l [] st :: others ->
  Forall (fun e => after e <> []) others ->
  rmatch (Seq (Group n X) (Seq Eol Eps)) st = [captured n l [] st].
Proof.
  intros Ha HX Hall. rewrite rmatch_seq. cbn [rmatch]. rewrite HX.
  cbn [map flat_map]. rewrite capture_advance by (rewrite app_nil_r; exact Ha).
  cbn [captured after flat_map]. rewrite app_nil_r.
  rewrite (flat_map_rejected _ (fun e => after e <> [])).
  - reflexivity.
  - intros e He. cbn [rmatch flat_map]. destruct (after e); [congruence|reflexivity].
  - apply Forall_map. eapply Forall_impl; [exact Hall|]. intros e He. exact He.
Qed.

Lemma ahead_nonempty p l :
  Forall (ahead p) l -> Forall (fun e : mstate => after e <> []) l.
Proof.
  intros H. eapply Forall_impl; [exact H|]. intros e He. unfold ahead in He.
  destruct (after e); [contradiction|discriminate].
Qed.

Lemma strip_hash_t x :
  replaceFirst hashPrefixRe (fun _ => []) (35 :: 116 :: x) = 116 :: x.
Proof.
  unfold replaceFirst, exec, hashPrefixRe. cbn.
  rewrite Nat.sub_diag. reflexivity.
Qed.

Lemma strip_hash_s x :
  replaceFirst hashPrefixRe (fun _ => []) (35 :: 115 :: x) = 115 :: x.
Proof.
  unfold replaceFirst, exec, hashPrefixRe. cbn.
  rewrite Nat.sub_diag. reflexivity.
Qed.

Lemma strip_hash_c x :
  replaceFirst hashPrefixRe (fun _ => []) (35 :: 99 :: x) = 99 :: x.
Proof.
  unfold replaceFirst, exec, hashPrefixRe. cbn.
  rewrite Nat.sub_diag. reflexivity.
Qed.


Lemma sectionPrefix_eq tail : USCode.sectionPrefix tail = Seq Bol (sectionBody tail).
Proof. reflexivity. Qed.


Lemma sectionPrefix_section t s rest tail :
  isNumber t = true -> isNumber s = true -> blocked isAlnumCap rest ->
  rejectsAlnum (seqs tail) ->
  exec (USCode.sectionPrefix tail) (116 :: t ++ js "/s" ++ s ++ rest) =
    match rmatch (seqs tail) (afterSection t s rest) with
    | e :: _ => Some (MState [] (116 :: t ++ js "/s" ++ s ++ rest) [], e)
    | [] => None
    end.
Proof.
  intros Ht Hs Hb Htail. unfold exec.
  rewrite sectionPrefix_eq, search_bol. unfold sectionBody.
  rewrite rmatch_seq.
  rewrite (rmatch_chr_hit _ 116 (t ++ js "/s" ++ s ++ rest)) by done.
  rewrite flat_map_singleton.
  rewrite (group_num_seq 1 t (js "/s" ++ s ++ rest)); [|exact Ht|reflexivity|done|].
  2:{ apply rejects_lit. reflexivity. }
  rewrite (rmatch_lit_app (js "/s") (s ++ rest)) by done.
  rewrite (group_num_seq 2 s rest); [|exact Hs|exact Hb|done|exact Htail].
  reflexivity.
Qed.

Lemma sectionPrefix_title t tail :
  isNumber t = true -> exec (USCode.sectionPrefix tail) (116 :: t) = None.
Proof.
  intros Ht. unfold exec.
  rewrite sectionPrefix_eq, search_bol. unfold sectionBody.
  rewrite rmatch_seq.
  rewrite (rmatch_chr_hit _ 116 t) by done.
  rewrite flat_map_singleton.
  rewrite (group_num_seq 1 t []); [|exact Ht|exact I|simpl; by rewrite app_nil_r|].
  2:{ apply rejects_lit. reflexivity. }
  rewrite rmatch_lit_miss; [reflexivity|]. intros rest. discriminate.
Qed.

Lemma titleRe_title t :
  isNumber t = true ->
  exec USCode.titleRe (116 :: t) =
    Some (MState [] (116 :: t) [], captured 1 t [] (advance [116] t (MState [] (116 :: t) []))).
Proof.
  intros Ht. unfold exec, USCode.titleRe. cbn [seqs foldr].
  rewrite search_bol. rewrite rmatch_seq.
  rewrite (rmatch_chr_hit _ 116 t) by done.
  rewrite flat_map_singleton.
  rewrite (group_num_seq 1 t []); [|exact Ht|exact I|simpl; by rewrite app_nil_r|].
  2:{ apply rejects_eol. }
  reflexivity.
Qed.

Lemma defTail_rejects :
  rejectsAlnum (seqs [Lit (js "/def/"); Group 3 (Plus true (Chr dot)); Eol]).
Proof. apply (rejects_lit 47). reflexivity. Qed.

Lemma parenTail_rejects :
  rejectsAlnum (seqs [Group 3 (Seq (Chr (isChar 40)) (Plus true (Chr dot))); Eol]).
Proof. apply rejects_group_chr. reflexivity. Qed.

Lemma eolTail_rejects : rejectsAlnum (seqs [Eol]).
Proof. apply rejects_eol. Qed.

(** The three tails on the three kinds of remainder. *)
Lemma defTail_def st slug :
  after st = js "/def/" ++ slug -> slug <> [] -> forallb dot slug = true ->
  rmatch (seqs [Lit (js "/def/"); Group 3 (Plus true (Chr dot)); Eol]) st
    = [captured 3 slug [] (advance (js "/def/") slug st)].
Proof.
  intros Ha Hne Hdot. cbn [seqs foldr].
  rewrite (rmatch_lit_app _ slug) by exact Ha.
  destruct slug as [|c r]; [congruence|]. simpl in Hdot.
  apply andb_true_iff in Hdot as [Hc Hr].
  destruct (plus_run dot c r [] (advance (js "/def/") (c :: r) st) Hc Hr I)
    as (others & Ho & Hall).
  { simpl. by rewrite app_nil_r. }
  eapply group_eol; [reflexivity|exact Ho|].
  eapply ahead_nonempty, Hall.
Qed.

Lemma defTail_other st :
  (forall rest, after st <> js "/def/" ++ rest) ->
  rmatch (seqs [Lit (js "/def/"); Group 3 (Plus true (Chr dot)); Eol]) st = [].
Proof. intros H. cbn [seqs foldr]. apply rmatch_lit_miss, H. Qed.

Lemma parenTail_paren st c r :
  after st = 40 :: c :: r -> forallb dot (c :: r) = true ->
  rmatch (seqs [Group 3 (Seq (Chr (isChar 40)) (Plus true (Chr dot))); Eol]) st
    = [captured 3 (40 :: c :: r) [] st].
Proof.
  intros Ha Hdot. cbn [seqs foldr]. simpl in Hdot.
  apply andb_true_iff in Hdot as [Hc Hr].
  destruct (plus_run dot c r [] (advance [40] (c :: r) st) Hc Hr I)
    as (others & Ho & Hall).
  { simpl. by rewrite app_nil_r. }
  eapply (group_eol 3 _ (40 :: c :: r) st others); [exact Ha| |].
  - rewrite rmatch_seq, (rmatch_chr_hit _ 40 (c :: r)) by done.
    rewrite flat_map_singleton. rewrite advance_advance in Ho. exact Ho.
  - eapply ahead_nonempty, Hall.
Qed.

Lemma parenTail_other st :
  blocked (isChar 40) (after st) ->
  rmatch (seqs [Group 3 (Seq (Chr (isChar 40)) (Plus true (Chr dot))); Eol]) st = [].
Proof.
  intros Hb. cbn [seqs foldr]. rewrite rmatch_seq. cbn [rmatch].
  unfold blocked in Hb. destruct (after st) as [|x rest]; [reflexivity|].
  rewrite Hb. reflexivity.
Qed.

Lemma eolTail st :
  rmatch (seqs [Eol]) st = match after st with [] => [st] | _ :: _ => [] end.
Proof. cbn [seqs foldr rmatch]. destruct (after st); reflexivity. Qed.

Lemma startsWith_app p : forall s,
  startsWith p s = true -> s = p ++ drop (length p) s.
Proof.
  induction p as [|x p IH]; intros s H; [reflexivity|].
  destruct s as [|c s]; [discriminate|]. simpl in H.
  apply andb_true_iff in H as [Hc H]. apply N.eqb_eq in Hc. subst c.
  simpl. f_equal. apply IH, H.
Qed.

Theorem uscode_roundtrip v :
  wellFormed v = true -> USCode.parseHash (USCode.viewToHash v) = v.
Proof.
  destruct v as [|t|t s a]; intros Hwf.
  - reflexivity.
  - simpl in Hwf. unfold USCode.viewToHash.
    change (js "#t" ++ t) with (35 :: 116 :: t).
    unfold USCode.parseHash. rewrite strip_hash_t. cbn [truthy negb].
    unfold USCode.defRe, USCode.secParenRe, USCode.secRe.
    rewrite !sectionPrefix_title by exact Hwf.
    rewrite titleRe_title by exact Hwf. reflexivity.
  - simpl in Hwf. apply andb_true_iff in Hwf as [Hts Ha].
    apply andb_true_iff in Hts as [Ht Hs].
    unfold USCode.parseHash, USCode.defRe, USCode.secParenRe, USCode.secRe.
    destruct a as [a|].
    + apply orb_true_iff in Ha as [Hp|Hd].
      * (* a structural path *)
        destruct a as [|x [|c r]]; try discriminate.
        simpl in Hp. apply andb_true_iff in Hp as [Hx Hdot].
        apply N.eqb_eq in Hx. subst x.
        change (USCode.viewToHash (USCode.SectionV t s (Some (40 :: c :: r))))
          with (35 :: 116 :: t ++ js "/s" ++ s ++ 40 :: c :: r).
        rewrite strip_hash_t. cbn [truthy negb].
        rewrite !sectionPrefix_section;
          try assumption; try reflexivity;
          try apply defTail_rejects; try apply parenTail_rejects;
          try apply eolTail_rejects.
        rewrite defTail_other by (intros rest; discriminate).
        rewrite (parenTail_paren _ c r) by done.
        reflexivity.
      * (* a definition anchor *)
        unfold isDefAnchor in Hd. apply andb_true_iff in Hd as [Hd Hdot].
        apply andb_true_iff in Hd as [Hpre Hne].
        apply startsWith_app in Hpre. cbn [length js] in Hpre.
        unfold slice in *. set (slug := drop 4 a) in *.
        assert (Hslug : slug <> []) by (destruct slug; [discriminate|congruence]).
        unfold USCode.viewToHash.
        assert (Ht' : truthy a = true) by (rewrite Hpre; reflexivity).
        rewrite Ht'.
        assert (Hsw : startsWith (js "def/") a = true)
          by (rewrite Hpre; reflexivity).
        rewrite Hsw.
        change (js "#t" ++ t ++ js "/s" ++ s ++ js "/" ++ a)
          with (35 :: 116 :: t ++ js "/s" ++ s ++ 47 :: a).
        rewrite strip_hash_t. cbn [truthy negb].
        rewrite Hpre.
        change (47 :: js "def/" ++ slug) with (js "/def/" ++ slug).
        rewrite !sectionPrefix_section;
          try assumption; try reflexivity;
          try apply defTail_rejects; try apply parenTail_rejects;
          try apply eolTail_rejects.
        rewrite (defTail_def _ slug) by done.
        reflexivity.
    + change (USCode.viewToHash (USCode.SectionV t s None))
        with (35 :: 116 :: t ++ js "/s" ++ s ++ []).
      rewrite strip_hash_t. cbn [truthy negb].
      rewrite !sectionPrefix_section;
        try assumption; try exact I;
        try apply defTail_rejects; try apply parenTail_rejects;
        try apply eolTail_rejects.
      rewrite defTail_other by (intros rest; discriminate).
      rewrite parenTail_other by exact I.
      rewrite eolTail. reflexivity.
Qed.

(** ** The single-title codec *)

Lemma digitsThenCaps_alnum s :
  digitsThenCaps s = true -> forallb isAlnumCap s = true.
Proof.
  intros H. destruct (digitsThenCaps_split s H) as (d & u & -> & Hd & Hu).
  rewrite forallb_app. apply andb_true_iff. split.
  - apply forallb_forall. intros x Hx.
    unfold isAlnumCap. rewrite (proj1 (forallb_forall _ _) Hd x Hx). reflexivity.
  - apply forallb_forall. intros x Hx.
    unfold isAlnumCap. rewrite (proj1 (forallb_forall _ _) Hu x Hx).
    apply orb_true_r.
Qed.

Lemma isNumber_alnum s : isNumber s = true -> forallb isAlnumCap s = true.
Proof.
  destruct s as [|c s]; [discriminate|]. simpl. intros H.
  apply andb_true_iff in H as [Hc Hs]. unfold isAlnumCap at 1. rewrite Hc.
  simpl. apply digitsThenCaps_alnum, Hs.
Qed.

Lemma indexOf_absent x s :
  forallb (fun c => negb (c =? x)) s = true -> indexOf x s = None.
Proof.
  induction s as [|c s IH]; [reflexivity|]. simpl. intros H.
  apply andb_true_iff in H as [Hc Hs]. apply negb_true_iff in Hc.
  rewrite Hc, (IH Hs). reflexivity.
Qed.

Lemma isNumber_no_paren s : isNumber s = true -> indexOf 40 s = None.
Proof.
  intros H. apply indexOf_absent. apply isNumber_alnum in H.
  apply forallb_forall. intros c Hc.
  pose proof (proj1 (forallb_forall _ _) H c Hc) as Hal.
  apply negb_true_iff. apply N.eqb_neq. intros ->. discriminate.
Qed.

Lemma defAnchorRe_number s :
  isNumber s = true -> exec Title17.defAnchorRe s = None.
Proof.
  intros Hs. unfold exec, Title17.defAnchorRe. cbn [seqs foldr].
  rewrite search_bol.
  rewrite (group_num_seq 1 s []); [|exact Hs|exact I|simpl; by rewrite app_nil_r|].
  2:{ apply rejects_lit. reflexivity. }
  rewrite rmatch_lit_miss; [reflexivity|]. intros rest. discriminate.
Qed.

Theorem title17_roundtrip v :
  plainTarget v = true -> Title17.parseHash (Title17.viewToHash v) = v.
Proof.
  destruct v as [|c|s [a|]]; intros Hv; try discriminate.
  - reflexivity.
  - unfold Title17.viewToHash.
    change (js "#chapter/" ++ c) with (35 :: 99 :: js "hapter/" ++ c).
    unfold Title17.parseHash. rewrite strip_hash_c. reflexivity.
  - simpl in Hv. unfold Title17.viewToHash.
    change (js "#section/" ++ s) with (35 :: 115 :: js "ection/" ++ s).
    unfold Title17.parseHash. rewrite strip_hash_s.
    change (startsWith (js "section/") (115 :: js "ection/" ++ s)) with true.
    cbn [truthy negb]. cbv iota.
    change (slice 8 (115 :: js "ection/" ++ s)) with s.
    rewrite (defAnchorRe_number s Hv), (isNumber_no_paren s Hv). reflexivity.
Qed.

(** ** The path builder of the single-title viewer *)

Lemma map_fmap {A B} (f : A -> B) (l : list A) : map f l = f <$> l.
Proof. reflexivity. Qed.

Lemma forEach_app {St A} (f : St -> nat -> A -> St) l1 : forall i l2 acc,
  forEach f i (l1 ++ l2) acc = forEach f (i + length l1) l2 (forEach f i l1 acc).
Proof.
  induction l1 as [|x l1 IH]; intros i l2 acc; simpl.
  - rewrite Nat.add_0_r. reflexivity.
  - rewrite IH. f_equal. lia.
Qed.

Lemma popDeeper_subset d stack e :
  e ∈ Title17.popDeeper d stack -> e ∈ stack.
Proof.
  induction stack as [|x stack IH]; simpl; [auto|].
  destruct (d <=? Title17.entryIndent x)%Z; [|auto].
  intros H. apply elem_of_cons. right. apply IH, H.
Qed.

Lemma popDeeper_levelled stack :
  levelled stack -> forall d, (0 <= d <= Z.of_nat (length stack))%Z ->
  levelled (Title17.popDeeper d stack)
  /\ length (Title17.popDeeper d stack) = Z.to_nat d.
Proof.
  induction 1 as [|e stack He Hl IH]; intros d Hd; simpl in *.
  - split; [constructor|lia].
  - destruct (d <=? Title17.entryIndent e)%Z eqn:E.
    + apply Z.leb_le in E. apply IH. lia.
    + apply Z.leb_gt in E. split; [constructor; assumption|].
      simpl. lia.
Qed.

Lemma levelled_lookup stack :
  levelled stack -> forall k e,
  reverse stack !! k = Some e -> Title17.entryIndent e = Z.of_nat k.
Proof.
  induction 1 as [|x stack Hx Hl IH]; intros k e Hk.
  - destruct k; discriminate.
  - rewrite reverse_cons in Hk.
    destruct (decide (k < length stack)%nat) as [Hlt|Hge].
    + rewrite lookup_app_l in Hk by (rewrite length_reverse; exact Hlt).
      apply (IH k e Hk).
    + rewrite lookup_app_r in Hk by (rewrite length_reverse; lia).
      rewrite length_reverse in Hk.
      destruct (k - length stack)%nat as [|n] eqn:Ek; [|discriminate].
      simpl in Hk. inversion Hk; subst. rewrite Hx. f_equal. lia.
Qed.


Lemma visit_designated sec m stk i b tok :
  designator b = Some tok ->
  Title17.visit sec (m, stk) i b =
    (<[i := entryFor sec b tok stk]> m,
     {| Title17.entryIndent := indent b; Title17.entryNumText := tok |}
       :: Title17.popDeeper (indent b) stk).
Proof.
  unfold designator, Title17.visit. intros H.
  destruct (isStructural (type b)); [|discriminate]. simpl.
  destruct (Title17.splitBlockHtml (html b)) as [split|]; [|discriminate].
  simpl in H. inversion H; subst. reflexivity.
Qed.

Lemma visit_skipped sec acc i b :
  designator b = None -> Title17.visit sec acc i b = acc.
Proof.
  unfold designator, Title17.visit. intros H.
  destruct (isStructural (type b)); [|reflexivity]. simpl.
  destruct (Title17.splitBlockHtml (html b)) as [split|]; [discriminate|].
  reflexivity.
Qed.


Lemma goodEntry_app sec done l i meta :
  goodEntry sec done i meta -> goodEntry sec (done ++ l) i meta.
Proof.
  intros (b & tokens & Hb & (Hlen & Hlast & Htok) & Hp & Hid).
  exists b, tokens. repeat split; try assumption.
  - apply lookup_app_l_Some, Hb.
  - intros k tok Hk. destruct (Htok k tok Hk) as (j & b' & Hj & Hb' & Hind & Hdes).
    exists j, b'. repeat split; try assumption. apply lookup_app_l_Some, Hb'.
Qed.

Lemma entryFor_good sec done b tok stk :
  designator b = Some tok -> levelled stk -> provenance done stk ->
  (0 <= indent b <= Z.of_nat (length stk))%Z ->
  goodEntry sec (done ++ [b]) (length done) (entryFor sec b tok stk).
Proof.
  intros Hdes Hl Hprov Hd.
  destruct (popDeeper_levelled stk Hl (indent b) Hd) as [Hl' Hlen'].
  set (new := {| Title17.entryIndent := indent b; Title17.entryNumText := tok |}).
  set (stack := new :: Title17.popDeeper (indent b) stk).
  assert (Hstack : levelled stack).
  { constructor; [|exact Hl']. simpl. rewrite Hlen'. lia. }
  exists b, (reverse (map Title17.entryNumText stack)).
  split; [|split; [|split]].
  - rewrite lookup_app_r by lia. rewrite Nat.sub_diag. reflexivity.
  - split; [|split].
    + rewrite length_reverse, length_map. simpl. rewrite Hlen'. reflexivity.
    + unfold stack. simpl. rewrite reverse_cons, last_snoc, Hdes. reflexivity.
    + intros k tk Hk.
      rewrite map_fmap, <- fmap_reverse, list_lookup_fmap in Hk.
      destruct (reverse stack !! k) as [e|] eqn:He; [|discriminate].
      simpl in Hk. inversion Hk; subst tk.
      pose proof (levelled_lookup stack Hstack k e He) as Hind.
      assert (Hin : e ∈ stack).
      { apply elem_of_reverse. eapply list_elem_of_lookup_2, He. }
      unfold stack in Hin. apply elem_of_cons in Hin as [->|Hin].
      * exists (length done), b. split; [lia|]. split.
        { rewrite lookup_app_r by lia. rewrite Nat.sub_diag. reflexivity. }
        split; [rewrite <- Hind; reflexivity|exact Hdes].
      * apply popDeeper_subset in Hin.
        destruct (Hprov e Hin) as (j & b' & Hj & Hi & Hde).
        exists j, b'. split.
        { apply lookup_lt_Some in Hj. lia. }
        split; [apply lookup_app_l_Some, Hj|].
        split; [congruence|exact Hde].
  - reflexivity.
  - reflexivity.
Qed.

Lemma visit_forward sec : forall l done m stk,
  levelled stk -> provenance done stk ->
  contiguousFrom (Z.of_nat (length stk)) l = true ->
  forall i meta,
  (forEach (Title17.visit sec) (length done) l (m, stk)).1 !! i = Some meta ->
  m !! i = Some meta \/ goodEntry sec (done ++ l) i meta.
Proof.
  induction l as [|b l IH]; intros done m stk Hl Hprov Hc i meta Hi.
  - left. exact Hi.
  - simpl in Hi, Hc.
    replace (done ++ b :: l) with ((done ++ [b]) ++ l)
      by (rewrite <- app_assoc; reflexivity).
    replace (S (length done)) with (length (done ++ [b])) in Hi
      by (rewrite length_app; simpl; lia).
    destruct (designator b) as [tok|] eqn:Hdes.
    + apply andb_true_iff in Hc as [Hd Hc].
      apply andb_true_iff in Hd as [Hd1 Hd2].
      apply Z.leb_le in Hd1, Hd2.
      rewrite (visit_designated sec m stk _ b tok Hdes) in Hi.
      destruct (popDeeper_levelled stk Hl (indent b) (conj Hd1 Hd2)) as [Hl' Hlen'].
      apply IH in Hi.
      * destruct Hi as [Hi|Hi]; [|right; exact Hi].
        destruct (decide (i = length done)) as [->|Hne].
        -- rewrite lookup_insert_eq in Hi. inversion Hi; subst meta.
           right. apply goodEntry_app.
           apply entryFor_good; try assumption. lia.
        -- rewrite lookup_insert_ne in Hi by congruence. left. exact Hi.
      * constructor; [|exact Hl']. simpl. rewrite Hlen'. lia.
      * intros e He. apply elem_of_cons in He as [->|He].
        -- exists (length done), b. simpl. split; [|split; [reflexivity|exact Hdes]].
           rewrite lookup_app_r by lia. rewrite Nat.sub_diag. reflexivity.
        -- apply popDeeper_subset in He.
           destruct (Hprov e He) as (j & b' & Hj & Hrest).
           exists j, b'. split; [apply lookup_app_l_Some, Hj|exact Hrest].
      * simpl. rewrite Hlen'.
        replace (Z.of_nat (S (Z.to_nat (indent b)))) with (indent b + 1)%Z by lia.
        exact Hc.
    + rewrite (visit_skipped sec _ _ b Hdes) in Hi.
      apply IH in Hi; try assumption.
      intros e He. destruct (Hprov e He) as (j & b' & Hj & Hrest).
      exists j, b'. split; [apply lookup_app_l_Some, Hj|exact Hrest].
Qed.

Theorem title17_paths content sec i meta :
  contiguous content = true ->
  Title17.buildParaMetaMap content sec !! i = Some meta ->
  exists b tokens,
    content !! i = Some b /\ tokenPath content i b tokens
    /\ path meta = concat tokens
    /\ anchorId meta = js "p-" ++ sec ++ path meta.
Proof.
  intros Hc Hi. unfold Title17.buildParaMetaMap in Hi.
  destruct (visit_forward sec content [] ∅ [] levelled_nil) with (i := i) (meta := meta)
    as [H|H].
  - intros e He. apply elem_of_nil in He. contradiction.
  - exact Hc.
  - exact Hi.
  - rewrite lookup_empty in H. discriminate.
  - exact H.
Qed.

(** ** The designator span *)

Lemma span_split p (x : jsstring) :
  exists run tail, x = run ++ tail /\ forallb p run = true /\ blocked p tail.
Proof.
  induction x as [|c x (run & tail & -> & Hrun & Hb)].
  - exists [], []. repeat split.
  - destruct (p c) eqn:Hc.
    + exists (c :: run), tail. simpl. rewrite Hc. auto.
    + exists [], (c :: run ++ tail). simpl. auto.
Qed.

Lemma startsWith_complete p : forall s r, s = p ++ r -> startsWith p s = true.
Proof.
  induction p as [|x p IH]; intros s r ->; [reflexivity|].
  simpl. rewrite N.eqb_refl. simpl. apply (IH _ r eq_refl).
Qed.

Lemma startsWith_false p s :
  startsWith p s = false -> forall r, s <> p ++ r.
Proof.
  intros H r Hr. rewrite (startsWith_complete p s r Hr) in H. discriminate.
Qed.


Lemma splitBlockHtml_body html :
  Title17.splitBlockHtml html =
    match rmatch spanBody (MState [] html []) with
    | m :: _ => Some {| Title17.numText := group 1 m; Title17.restHtml := group 2 m |}
    | [] => None
    end.
Proof.
  unfold Title17.splitBlockHtml, exec, Title17.splitBlockHtmlRe.
  change (seqs (Bol :: ?l)) with (Seq Bol (seqs l)).
  rewrite search_bol. fold spanBody.
  destruct (rmatch spanBody _); reflexivity.
Qed.

Lemma forallb_anyChar (s : jsstring) : forallb anyChar s = true.
Proof. induction s; [reflexivity|assumption]. Qed.

Lemma splitBlockHtml_shape token rest :
  forallb (notChar 60) token = true ->
  Title17.splitBlockHtml (spanNumOpen ++ token ++ spanClose ++ rest)
    = Some {| Title17.numText := token; Title17.restHtml := rest |}.
Proof.
  intros Htok. rewrite splitBlockHtml_body. unfold spanBody. cbn [seqs foldr].
  rewrite (rmatch_lit_app spanNumOpen (token ++ spanClose ++ rest)) by done.
  set (st1 := advance spanNumOpen _ _).
  destruct (star_run (notChar 60) token (spanClose ++ rest) st1 Htok)
    as (o1 & Ho1 & _); [reflexivity|reflexivity|].
  rewrite rmatch_seq, rmatch_group, Ho1. cbn [map flat_map].
  rewrite capture_advance by reflexivity.
  rewrite (rmatch_lit_app spanClose rest) by reflexivity.
  set (st2 := advance spanClose _ _).
  destruct (star_run anyChar rest [] st2 (forallb_anyChar rest) I)
    as (o2 & Ho2 & _); [unfold st2; simpl; by rewrite app_nil_r|].
  rewrite rmatch_seq, rmatch_group, Ho2. cbn [map flat_map].
  rewrite capture_advance by (unfold st2; simpl; by rewrite app_nil_r).
  reflexivity.
Qed.

Lemma splitBlockHtml_none html :
  ~ beginsWithDesignatorSpan html -> Title17.splitBlockHtml html = None.
Proof.
  intros Hno. rewrite splitBlockHtml_body. unfold spanBody. cbn [seqs foldr].
  destruct (startsWith spanNumOpen html) eqn:Hopen.
  2:{ rewrite rmatch_lit_miss; [reflexivity|].
      apply (startsWith_false _ _ Hopen). }
  apply startsWith_app in Hopen. set (x := drop (length spanNumOpen) html) in *.
  destruct (span_split (notChar 60) x) as (run & tail & Hx & Hrun & Hb).
  rewrite (rmatch_lit_app spanNumOpen x) by (rewrite Hopen at 1; reflexivity).
  set (st1 := advance spanNumOpen _ _).
  destruct (star_run (notChar 60) run tail st1 Hrun Hb) as (o1 & Ho1 & Hall1);
    [exact Hx|].
  rewrite rmatch_seq, rmatch_group, Ho1. cbn [map flat_map].
  rewrite (flat_map_rejected _ (ahead (notChar 60))).
  - rewrite app_nil_r. rewrite rmatch_lit_miss; [reflexivity|].
    intros rest Hr. cbn [capture after advance] in Hr. subst tail.
    apply Hno. exists run, rest. split; [|exact Hrun].
    rewrite Hopen, Hx. reflexivity.
  - intros e He. apply rmatch_lit_miss. intros rest Hr.
    unfold ahead in He. rewrite Hr in He. discriminate.
  - apply Forall_map. eapply Forall_impl; [exact Hall1|].
    intros e He. apply ahead_capture, He.
Qed.

Lemma splitBlockHtml_iff html :
  Title17.splitBlockHtml html = None <-> ~ beginsWithDesignatorSpan html.
Proof.
  split; [|apply splitBlockHtml_none].
  intros Hn (token & rest & -> & Htok).
  rewrite (splitBlockHtml_shape token rest Htok) in Hn. discriminate.
Qed.

(** ** A skipped block leaves no trace *)

Lemma forEach_shift sec p : forall post i m1 m2 stk,
  (p <= i)%nat ->
  m1 !! p = None ->
  (forall j, (j < p)%nat -> m1 !! j = m2 !! j) ->
  (forall j, (p <= j)%nat -> m1 !! S j = m2 !! j) ->
  let r1 := forEach (Title17.visit sec) (S i) post (m1, stk) in
  let r2 := forEach (Title17.visit sec) i post (m2, stk) in
  r1.1 !! p = None
  /\ (forall j, (j < p)%nat -> r1.1 !! j = r2.1 !! j)
  /\ (forall j, (p <= j)%nat -> r1.1 !! S j = r2.1 !! j).
Proof.
  induction post as [|b post IH]; intros i m1 m2 stk Hpi Hp Hlt Hge; simpl.
  - auto.
  - destruct (designator b) as [tok|] eqn:Hdes.
    + rewrite !(visit_designated sec _ stk _ b tok Hdes).
      apply IH; [lia| | |].
      * rewrite lookup_insert_ne by lia. exact Hp.
      * intros j Hj. rewrite !lookup_insert_ne by lia. apply Hlt, Hj.
      * intros j Hj. destruct (decide (j = i)) as [->|Hne].
        -- rewrite !lookup_insert_eq. reflexivity.
        -- rewrite !lookup_insert_ne by lia. apply Hge, Hj.
    + rewrite !(visit_skipped sec _ _ b Hdes). apply IH; auto with lia.
Qed.

Lemma forEach_upper sec : forall l i m stk j,
  (j < i)%nat ->
  (forEach (Title17.visit sec) i l (m, stk)).1 !! j = m !! j.
Proof.
  induction l as [|b l IH]; intros i m stk j Hj; simpl; [reflexivity|].
  destruct (designator b) as [tok|] eqn:Hdes.
  - rewrite (visit_designated sec _ stk _ b tok Hdes).
    rewrite IH by lia. apply lookup_insert_ne. lia.
  - rewrite (visit_skipped sec _ _ b Hdes). apply IH. lia.
Qed.

Lemma forEach_fresh sec : forall l i m stk j,
  (i + length l <= j)%nat -> m !! j = None ->
  (forEach (Title17.visit sec) i l (m, stk)).1 !! j = None.
Proof.
  induction l as [|b l IH]; intros i m stk j Hj Hm; simpl in *; [exact Hm|].
  destruct (designator b) as [tok|] eqn:Hdes.
  - rewrite (visit_designated sec _ stk _ b tok Hdes).
    apply IH; [lia|]. rewrite lookup_insert_ne by lia. exact Hm.
  - rewrite (visit_skipped sec _ _ b Hdes). apply IH; [lia|exact Hm].
Qed.

Theorem skipped_block pre b post sec :
  designator b = None ->
  let m := Title17.buildParaMetaMap (pre ++ b :: post) sec in
  let m' := Title17.buildParaMetaMap (pre ++ post) sec in
  m !! length pre = None
  /\ (forall i, (i < length pre)%nat -> m !! i = m' !! i)
  /\ (forall i, (length pre <= i)%nat -> m !! S i = m' !! i).
Proof.
  intros Hdes. unfold Title17.buildParaMetaMap.
  rewrite !forEach_app. cbn [forEach Nat.add].
  rewrite (visit_skipped sec _ _ b Hdes).
  destruct (forEach (Title17.visit sec) 0 pre (∅, [])) as [m0 stk0] eqn:E.
  apply (forEach_shift sec (length pre) post (length pre) m0 m0 stk0).
  - lia.
  - change m0 with (m0, stk0).1. rewrite <- E.
    apply forEach_fresh; [simpl; lia|apply lookup_empty].
  - reflexivity.
  - intros j Hj. change m0 with (m0, stk0).1. rewrite <- E.
    rewrite !forEach_fresh; [reflexivity| | | |];
      simpl; try lia; apply lookup_empty.
Qed.
(** ** The path builder of the multi-title viewer *)

Lemma joinSlots_solid tokens :
  USCode.joinSlots (Some <$> tokens) = concat tokens.
Proof.
  unfold USCode.joinSlots. induction tokens as [|t tokens IH]; [reflexivity|].
  simpl. f_equal. exact IH.
Qed.

Lemma usc_visit_designated sec m tokens i b tok :
  firstNumSpan b = Some tok ->
  (1 <= indent b <= Z.of_nat (length tokens) + 1)%Z ->
  (Z.of_nat (length tokens) < USCode.maxArrayLength)%Z ->
  let tokens' := take (Z.to_nat (indent b - 1)) tokens ++ [tok] in
  USCode.visit sec (USCode.Returns (m, Some <$> tokens)) i b =
    USCode.Returns
      (<[i := {| path := concat tokens';
                 anchorId := js "p-" ++ sec ++ concat tokens' |}]> m,
       Some <$> tokens').
Proof.
  intros H Hd Hmax tokens'. unfold firstNumSpan in H. unfold USCode.visit.
  destruct (isStructural (type b)); [|discriminate]. simpl negb. cbv iota.
  destruct (exec USCode.numSpanRe (html b)) as [[m0 e]|]; [|discriminate].
  simpl in H. inversion H; subst tok. clear H.
  replace (indent b - 1 <? 0)%Z with false by (symmetry; apply Z.ltb_ge; lia).
  replace (USCode.maxArrayLength <? indent b - 1)%Z with false
    by (symmetry; apply Z.ltb_ge; lia).
  replace (indent b - 1 =? USCode.maxArrayLength)%Z with false
    by (symmetry; apply Z.eqb_neq; lia).
  cbn [orb]. cbv iota.
  assert (Hstack : resize (Z.to_nat (indent b - 1)) None (Some <$> tokens)
                     ++ [Some (group 1 e)] = Some <$> tokens').
  { unfold tokens'. rewrite fmap_app, fmap_take. f_equal.
    apply resize_le. rewrite length_fmap. lia. }
  rewrite Hstack.
  rewrite take_ge.
  2:{ unfold tokens'. rewrite length_fmap, length_app, length_take. simpl. lia. }
  rewrite joinSlots_solid. reflexivity.
Qed.

Lemma usc_visit_skipped sec acc i b :
  firstNumSpan b = None -> USCode.visit sec acc i b = acc.
Proof.
  unfold firstNumSpan, USCode.visit. intros H.
  destruct acc as [[m stack]|]; [|reflexivity].
  destruct (isStructural (type b)); [|reflexivity]. simpl.
  destruct (exec USCode.numSpanRe (html b)) as [[m0 e]|]; [discriminate|].
  reflexivity.
Qed.

Lemma goodSlotEntry_app sec done l i meta :
  goodSlotEntry sec done i meta -> goodSlotEntry sec (done ++ l) i meta.
Proof.
  intros (b & tokens & Hb & (Hlen & Hlast & Htok) & Hp & Hid).
  exists b, tokens. repeat split; try assumption.
  - apply lookup_app_l_Some, Hb.
  - intros k tok Hk. destruct (Htok k tok Hk) as (j & b' & Hj & Hb' & Hind & Hdes).
    exists j, b'. repeat split; try assumption. apply lookup_app_l_Some, Hb'.
Qed.

Lemma slotProvenance_app done l tokens :
  slotProvenance done tokens -> slotProvenance (done ++ l) tokens.
Proof.
  intros Hprov k tok Hk. destruct (Hprov k tok Hk) as (j & b' & Hj & Hrest).
  exists j, b'. split; [apply lookup_app_l_Some, Hj|exact Hrest].
Qed.

Lemma slotProvenance_push done tokens b tok :
  slotProvenance done tokens -> firstNumSpan b = Some tok ->
  (1 <= indent b <= Z.of_nat (length tokens) + 1)%Z ->
  slotProvenance (done ++ [b]) (take (Z.to_nat (indent b - 1)) tokens ++ [tok]).
Proof.
  intros Hprov Hdes Hd k tk Hk.
  assert (Hlen : length (take (Z.to_nat (indent b - 1)) tokens)
                 = Z.to_nat (indent b - 1)).
  { rewrite length_take. lia. }
  apply lookup_app_Some in Hk as [Hk|[Hge Hk]].
  - apply lookup_take_Some in Hk as [Hk _].
    apply (slotProvenance_app done [b] tokens Hprov k tk Hk).
  - rewrite Hlen in Hge, Hk.
    apply list_lookup_singleton_Some in Hk as [Hk ->].
    exists (length done), b. split.
    { rewrite lookup_app_r by lia. rewrite Nat.sub_diag. reflexivity. }
    split; [lia|exact Hdes].
Qed.

Lemma usc_visit_forward sec : forall l done m tokens,
  slotProvenance done tokens -> (length tokens <= length done)%nat ->
  (Z.of_nat (length done + length l) <= USCode.maxArrayLength)%Z ->
  contiguousFromOne (Z.of_nat (length tokens) + 1) l = true ->
  exists m' tokens',
    forEach (USCode.visit sec) (length done) l
      (USCode.Returns (m, Some <$> tokens))
      = USCode.Returns (m', Some <$> tokens')
    /\ (forall i meta, m' !! i = Some meta ->
          m !! i = Some meta \/ goodSlotEntry sec (done ++ l) i meta)
    /\ (forall i, is_Some (m !! i) -> is_Some (m' !! i))
    /\ (forall k b, l !! k = Some b -> is_Some (firstNumSpan b) ->
          is_Some (m' !! (length done + k)%nat)).
Proof.
  induction l as [|b l IH]; intros done m tokens Hprov Hlen Hmax Hc.
  - exists m, tokens. split; [reflexivity|]. split; [|split].
    + intros i meta Hi. left. exact Hi.
    + auto.
    + intros k b Hk. destruct k; discriminate.
  - simpl in Hc. cbn [forEach]. simpl length in Hmax.
    replace (done ++ b :: l) with ((done ++ [b]) ++ l)
      by (rewrite <- app_assoc; reflexivity).
    replace (S (length done)) with (length (done ++ [b]))
      by (rewrite length_app; simpl; lia).
    destruct (firstNumSpan b) as [tok|] eqn:Hdes.
    + apply andb_true_iff in Hc as [Hd Hc].
      apply andb_true_iff in Hd as [Hd1 Hd2].
      apply Z.leb_le in Hd1, Hd2.
      rewrite (usc_visit_designated sec m tokens _ b tok Hdes) by lia.
      set (tokens' := take (Z.to_nat (indent b - 1)) tokens ++ [tok]).
      assert (Hlen' : length tokens' = Z.to_nat (indent b)).
      { unfold tokens'. rewrite length_app, length_take. simpl. lia. }
      pose proof (slotProvenance_push done tokens b tok Hprov Hdes (conj Hd1 Hd2))
        as Hprov'. fold tokens' in Hprov'.
      destruct (IH (done ++ [b]) (<[length done := {| path := concat tokens';
                 anchorId := js "p-" ++ sec ++ concat tokens' |}]> m)
                  tokens' Hprov')
        as (m' & toks & Hrun & Hgood & Hkeep & Hall).
      * rewrite length_app. simpl. lia.
      * rewrite length_app. simpl. lia.
      * rewrite Hlen'. replace (Z.of_nat (Z.to_nat (indent b)) + 1)%Z
          with (indent b + 1)%Z by lia. exact Hc.
      * exists m', toks. split; [exact Hrun|]. split; [|split].
        2:{ intros i Hi. apply Hkeep. apply lookup_insert_is_Some'. right. exact Hi. }
        2:{ intros k b0 Hk Hb0. destruct k as [|k].
            - rewrite Nat.add_0_r. apply Hkeep. rewrite lookup_insert_eq. eauto.
            - simpl in Hk. specialize (Hall k b0 Hk Hb0).
              rewrite length_app in Hall. simpl in Hall.
              replace (length done + S k)%nat with (length done + 1 + k)%nat by lia.
              exact Hall. }
        intros i meta Hi. destruct (Hgood i meta Hi) as [Hi'|Hi']; [|right; exact Hi'].
        destruct (decide (i = length done)) as [->|Hne].
        -- rewrite lookup_insert_eq in Hi'. inversion Hi'; subst meta.
           right. apply goodSlotEntry_app.
           exists b, tokens'. split; [|split; [|split]].
           ++ rewrite lookup_app_r by lia. rewrite Nat.sub_diag. reflexivity.
           ++ split; [exact Hlen'|]. split.
              ** unfold tokens'. rewrite last_snoc, Hdes. reflexivity.
              ** intros k tk Hk. destruct (Hprov' k tk Hk) as (j & b' & Hj & Hrest).
                 exists j, b'. split; [|split; [exact Hj|exact Hrest]].
                 apply lookup_lt_Some in Hj. rewrite length_app in Hj.
                 simpl in Hj. lia.
           ++ reflexivity.
           ++ reflexivity.
        -- rewrite lookup_insert_ne in Hi' by congruence. left. exact Hi'.
    + rewrite (usc_visit_skipped sec _ _ b Hdes).
      destruct (IH (done ++ [b]) m tokens)
        as (m' & toks & Hrun & Hgood & Hkeep & Hall).
      * apply slotProvenance_app, Hprov.
      * rewrite length_app. simpl. lia.
      * rewrite length_app. simpl. lia.
      * exact Hc.
      * exists m', toks. split; [exact Hrun|]. split; [exact Hgood|].
        split; [exact Hkeep|].
        intros k b0 Hk Hb0. destruct k as [|k].
        -- simpl in Hk. inversion Hk; subst b0. rewrite Hdes in Hb0.
           destruct Hb0 as [? Hb0]. discriminate.
        -- simpl in Hk. specialize (Hall k b0 Hk Hb0).
           rewrite length_app in Hall. simpl in Hall.
           replace (length done + S k)%nat with (length done + 1 + k)%nat by lia.
           exact Hall.
Qed.

Theorem uscode_paths blocks sec :
  contiguousFromOne 1 blocks = true ->
  (Z.of_nat (length blocks) <= USCode.maxArrayLength)%Z ->
  exists m,
    USCode.buildParaMetaMap blocks sec = USCode.Returns m
    /\ (forall i meta, m !! i = Some meta -> goodSlotEntry sec blocks i meta)
    /\ (forall i b, blocks !! i = Some b -> is_Some (firstNumSpan b) ->
          is_Some (m !! i)).
Proof.
  intros Hc Hmax. unfold USCode.buildParaMetaMap.
  destruct (usc_visit_forward sec blocks [] ∅ [])
    as (m & toks & Hrun & Hgood & _ & Hall).
  - intros k tok Hk. destruct k; discriminate.
  - reflexivity.
  - exact Hmax.
  - exact Hc.
  - change (@nil (option (list N))) with (Some <$> (@nil (list N))).
    change (length (@nil ContentBlock)) with 0%nat in Hrun.
    rewrite Hrun. exists m. split; [reflexivity|]. split.
    + intros i meta Hi. destruct (Hgood i meta Hi) as [H|H]; [|exact H].
      rewrite lookup_empty in H. discriminate.
    + intros i b Hi Hb. apply (Hall i b Hi Hb).
Qed.

(** ** Every block with a designator gets an entry *)

Theorem title17_entries content sec i b :
  content !! i = Some b -> is_Some (designator b) ->
  is_Some (Title17.buildParaMetaMap content sec !! i).
Proof.
  intros Hi [tok Hdes].
  apply list_elem_of_split_length in Hi as (pre & post & -> & ->).
  unfold Title17.buildParaMetaMap. rewrite forEach_app. cbn [forEach Nat.add].
  destruct (forEach (Title17.visit sec) 0 pre (∅, [])) as [m0 stk0].
  rewrite (visit_designated sec m0 stk0 _ b tok Hdes).
  rewrite forEach_upper by lia. rewrite lookup_insert_eq. eauto.
Qed.


(** ** Positions only move forward *)

Lemma reaches_refl st : reaches st st.
Proof. exists []. split; reflexivity. Qed.

Lemma reaches_trans a b c : reaches a b -> reaches b c -> reaches a c.
Proof.
  intros (l1 & Ha1 & Hb1) (l2 & Ha2 & Hb2). exists (l1 ++ l2). split.
  - rewrite Ha1, Ha2, app_assoc. reflexivity.
  - rewrite Hb2, Hb1, reverse_app, app_assoc. reflexivity.
Qed.

Lemma reaches_length st e : reaches st e -> (length (after e) <= length (after st))%nat.
Proof. intros (l & Ha & _). rewrite Ha, length_app. lia. Qed.

Lemma star_reaches fuel m g :
  (forall st e, In e (m st) -> reaches st e) ->
  forall st e, In e (star fuel m g st) -> reaches st e.
Proof.
  intros Hm. induction fuel as [|fuel IH]; intros st e He.
  - simpl in He. destruct He as [<-|[]]. apply reaches_refl.
  - cbn [star] in He.
    assert (Hmore : forall e,
      In e (flat_map
              (fun st' => if (length (after st') <? length (after st))%nat
                          then star fuel m g st' else []) (m st)) ->
      reaches st e).
    { intros e' He'. apply in_flat_map in He' as (st' & Hst' & He').
      destruct (length (after st') <? length (after st))%nat; [|destruct He'].
      eapply reaches_trans; [apply Hm, Hst'|apply IH, He']. }
    destruct g.
    + apply in_app_or in He as [He|[<-|[]]]; [apply Hmore, He|apply reaches_refl].
    + destruct He as [<-|He]; [apply reaches_refl|apply Hmore, He].
Qed.

Lemma rmatch_reaches r : forall st e, In e (rmatch r st) -> reaches st e.
Proof.
  induction r as [|p|r1 IH1 r2 IH2|r1 IH1 r2 IH2|g r IH|n r IH| | |];
    intros st e He; cbn [rmatch] in He.
  - destruct He as [<-|[]]. apply reaches_refl.
  - destruct (after st) as [|c rest] eqn:Ha; [destruct He|].
    destruct (p c); [|destruct He]. destruct He as [<-|[]].
    exists [c]. simpl. split; [exact Ha|reflexivity].
  - apply in_flat_map in He as (st' & Hst' & He).
    eapply reaches_trans; [apply IH1, Hst'|apply IH2, He].
  - apply in_app_or in He as [He|He]; [apply IH1, He|apply IH2, He].
  - eapply star_reaches; [exact IH|exact He].
  - apply in_map_iff in He as (e' & <- & He').
    destruct (IH st e' He') as (l & Ha & Hb). exists l. simpl. auto.
  - destruct (before st); [|destruct He]. destruct He as [<-|[]]. apply reaches_refl.
  - destruct (after st); [|destruct He]. destruct He as [<-|[]]. apply reaches_refl.
  - destruct (atWordBoundary st); [|destruct He]. destruct He as [<-|[]].
    apply reaches_refl.
Qed.

Lemma consumed_reaches st e l :
  after st = l ++ after e -> consumed st e = l.
Proof.
  intros Ha. unfold consumed. rewrite Ha at 1. rewrite length_app.
  replace (length l + length (after e) - length (after e))%nat with (length l) by lia.
  rewrite Ha. apply take_app_length.
Qed.

(** ** Searching *)

Lemma search_here r bef aft e rest :
  rmatch r (MState bef aft []) = e :: rest ->
  search r bef aft = Some (MState bef aft [], e).
Proof. intros H. destruct aft; simpl; rewrite H; reflexivity. Qed.

Lemma search_miss r bef c aft :
  rmatch r (MState bef (c :: aft) []) = [] ->
  search r bef (c :: aft) = search r (c :: bef) aft.
Proof. intros H. simpl. rewrite H. reflexivity. Qed.

Lemma search_end r bef :
  rmatch r (MState bef [] []) = [] -> search r bef [] = None.
Proof. intros H. simpl. rewrite H. reflexivity. Qed.

Lemma search_some r : forall aft bef b e,
  search r bef aft = Some (b, e) ->
  exists skipped,
    aft = skipped ++ after b /\ b = MState (reverse skipped ++ bef) (after b) []
    /\ (exists rest, rmatch r b = e :: rest)
    /\ (forall s1 c s2, skipped = s1 ++ c :: s2 ->
          rmatch r (MState (reverse s1 ++ bef) (c :: s2 ++ after b) []) = []).
Proof.
  induction aft as [|c aft IH]; intros bef b e H.
  - simpl in H. destruct (rmatch r (MState bef [] [])) as [|e' rest] eqn:E;
      [discriminate|]. inversion H; subst. exists []. simpl.
    split; [reflexivity|]. split; [reflexivity|]. split; [eauto|].
    intros [|? ?] ? ? ?; discriminate.
  - simpl in H. destruct (rmatch r (MState bef (c :: aft) [])) as [|e' rest] eqn:E.
    + destruct (IH (c :: bef) b e H) as (sk & Hsk & Hb & Hm & Hno).
      exists (c :: sk). split; [simpl; congruence|]. split.
      { rewrite Hb at 1. rewrite reverse_cons, <- app_assoc. reflexivity. }
      split; [exact Hm|].
      intros s1 x s2 Hs. destruct s1 as [|y s1]; simpl in Hs.
      * inversion Hs; subst. simpl. exact E.
      * inversion Hs; subst. rewrite reverse_cons, <- app_assoc. simpl.
        apply (Hno s1 x s2 eq_refl).
    + inversion H; subst. exists []. simpl.
      split; [reflexivity|]. split; [reflexivity|]. split; [eauto|].
      intros [|? ?] ? ? ?; discriminate.
Qed.

Lemma search_none r : forall aft bef,
  search r bef aft = None ->
  forall s1 s2, aft = s1 ++ s2 ->
  rmatch r (MState (reverse s1 ++ bef) s2 []) = [].
Proof.
  induction aft as [|c aft IH]; intros bef H s1 s2 Hs.
  - destruct s1; [|discriminate]. simpl in Hs. subst s2. simpl in *.
    destruct (rmatch r (MState bef [] [])); [reflexivity|discriminate].
  - simpl in H. destruct (rmatch r (MState bef (c :: aft) [])) eqn:E; [|discriminate].
    destruct s1 as [|x s1]; simpl in Hs.
    + subst s2. exact E.
    + inversion Hs; subst. rewrite reverse_cons, <- app_assoc. simpl.
      apply (IH (x :: bef) H s1 s2 eq_refl).
Qed.



(** ** Cutting a string at the matches of a pattern *)

Lemma replaceAll_render r f s :
  replaceAll r f s = render f (segments (S (length s)) r [] s).
Proof. reflexivity. Qed.

Lemma segments_none fuel r bef aft :
  search r bef aft = None -> segments (S fuel) r bef aft = [(false, aft)].
Proof. intros H. cbn [segments]. rewrite H. reflexivity. Qed.

Lemma segments_match fuel r bef pre m rest b e :
  search r bef (pre ++ m ++ rest) = Some (b, e) ->
  after b = m ++ rest -> after e = rest -> m <> [] ->
  segments (S fuel) r bef (pre ++ m ++ rest) =
    (false, pre) :: (true, m) :: segments fuel r (before e) rest.
Proof.
  intros H Hb He Hm. cbn [segments]. rewrite H.
  rewrite (consumed_reaches b e m) by (rewrite Hb, He; reflexivity).
  rewrite Hb, He.
  replace (length (pre ++ m ++ rest) - length (m ++ rest))%nat with (length pre)
    by (rewrite !length_app; lia).
  rewrite take_app_length.
  destruct m; [congruence|reflexivity].
Qed.


(** A position where the pattern cannot match passes into the text
    before the next match. *)
Lemma render_miss f fuel r bef c aft :
  rmatch r (MState bef (c :: aft) []) = [] ->
  render f (segments (S fuel) r bef (c :: aft))
    = c :: render f (segments (S fuel) r (c :: bef) aft).
Proof.
  intros H. cbn [segments]. rewrite (search_miss r bef c aft H).
  destruct (search r (c :: bef) aft) as [[b e]|] eqn:E; [|reflexivity].
  destruct (search_some r aft (c :: bef) b e E) as (sk & Hsk & _).
  replace (length (c :: aft) - length (after b))%nat
    with (S (length aft - length (after b)))
    by (pose proof (f_equal length Hsk) as Hl; rewrite length_app in Hl;
        simpl; lia).
  reflexivity.
Qed.

(** ** Tag segments *)

Lemma notChar_false x c : notChar x c = false -> c = x.
Proof. unfold notChar. intros H. apply negb_false_iff, N.eqb_eq in H. exact H. Qed.

Lemma group_captured n l rest st : group n (captured n l rest st) = l.
Proof. unfold group, captured. simpl. rewrite Nat.eqb_refl. reflexivity. Qed.


Lemma tagRe_eq : Title17.tagRe = Group 1 tagBody.
Proof. reflexivity. Qed.

Lemma tag_hit st body rest :
  after st = 60 :: body ++ 62 :: rest -> body <> [] ->
  forallb (notChar 62) body = true ->
  rmatch Title17.tagRe st = [captured 1 (60 :: body ++ [62]) rest st].
Proof.
  intros Ha Hne Hbody. rewrite tagRe_eq, rmatch_group. unfold tagBody.
  cbn [seqs foldr]. rewrite rmatch_seq.
  rewrite (rmatch_chr_hit _ 60 (body ++ 62 :: rest)) by done.
  rewrite flat_map_singleton.
  destruct body as [|c body]; [congruence|]. simpl in Hbody.
  apply andb_true_iff in Hbody as [Hc Hbody].
  destruct (plus_run (notChar 62) c body (62 :: rest)
              (advance [60] ((c :: body) ++ 62 :: rest) st) Hc Hbody)
    as (others & Ho & Hall); [reflexivity|reflexivity|].
  rewrite rmatch_seq, Ho. cbn [flat_map].
  rewrite (flat_map_rejected _ (ahead (notChar 62))); [| |exact Hall].
  2:{ intros e He. rewrite rmatch_seq. unfold ahead in He.
      destruct (after e) as [|x r] eqn:Hx; [contradiction|].
      rewrite (rmatch_chr_miss _ x r); [reflexivity|exact Hx|].
      unfold isChar. apply N.eqb_neq. intros ->. discriminate. }
  rewrite app_nil_r, rmatch_seq.
  rewrite (rmatch_chr_hit _ 62 rest) by done.
  cbn [flat_map rmatch app map]. rewrite !advance_advance.
  change ([60] ++ (c :: body) ++ [62]) with (60 :: (c :: body) ++ [62]).
  rewrite capture_advance; [reflexivity|].
  rewrite Ha. simpl. rewrite <- app_assoc. reflexivity.
Qed.

Lemma tag_cases st :
  rmatch Title17.tagRe st = []
  \/ exists body rest,
       after st = 60 :: body ++ 62 :: rest /\ body <> []
       /\ forallb (notChar 62) body = true.
Proof.
  destruct (after st) as [|c x] eqn:Ha.
  { left. rewrite tagRe_eq, rmatch_group. unfold tagBody. cbn [seqs foldr].
    rewrite rmatch_seq, rmatch_chr_end by exact Ha. reflexivity. }
  destruct (N.eq_dec c 60) as [->|Hc].
  2:{ left. rewrite tagRe_eq, rmatch_group. unfold tagBody. cbn [seqs foldr].
      rewrite rmatch_seq, (rmatch_chr_miss _ c x); [reflexivity|exact Ha|].
      unfold isChar. apply N.eqb_neq. exact Hc. }
  destruct (span_split (notChar 62) x) as (run & tail & -> & Hrun & Hb).
  destruct run as [|c1 run].
  { left. rewrite tagRe_eq, rmatch_group. unfold tagBody. cbn [seqs foldr].
    rewrite rmatch_seq, (rmatch_chr_hit _ 60 tail) by done.
    rewrite flat_map_singleton, plus_none by exact Hb. reflexivity. }
  destruct tail as [|c2 tail].
  { left. rewrite tagRe_eq, rmatch_group. unfold tagBody. cbn [seqs foldr].
    rewrite rmatch_seq, (rmatch_chr_hit _ 60 ((c1 :: run) ++ [])) by done.
    rewrite flat_map_singleton. simpl in Hrun.
    apply andb_true_iff in Hrun as [Hc1 Hrun].
    destruct (plus_run (notChar 62) c1 run []
                (advance [60] ((c1 :: run) ++ []) st) Hc1 Hrun I)
      as (others & Ho & Hall); [reflexivity|].
    rewrite rmatch_seq, Ho. cbn [flat_map].
    rewrite (flat_map_rejected _ (ahead (notChar 62))); [| |exact Hall].
    2:{ intros e He. rewrite rmatch_seq. unfold ahead in He.
        destruct (after e) as [|y r] eqn:Hy; [contradiction|].
        rewrite (rmatch_chr_miss _ y r); [reflexivity|exact Hy|].
        unfold isChar. apply N.eqb_neq. intros ->. discriminate. }
    rewrite rmatch_seq, rmatch_chr_end by reflexivity. reflexivity. }
  right. simpl in Hb. apply notChar_false in Hb. subst c2.
  exists (c1 :: run), tail. split; [reflexivity|]. split; [discriminate|exact Hrun].
Qed.

Lemma tag_sound st e others :
  rmatch Title17.tagRe st = e :: others ->
  exists body rest,
    after st = 60 :: body ++ 62 :: rest /\ body <> []
    /\ forallb (notChar 62) body = true
    /\ e = captured 1 (60 :: body ++ [62]) rest st.
Proof.
  intros H. destruct (tag_cases st) as [Hn|(body & rest & Ha & Hne & Hb)].
  - rewrite Hn in H. discriminate.
  - exists body, rest. repeat split; try assumption.
    rewrite (tag_hit st body rest Ha Hne Hb) in H. inversion H. reflexivity.
Qed.

Lemma no_tag_at bef x rest :
  (forall s1 c s2, x = s1 ++ c :: s2 ->
     rmatch Title17.tagRe (MState (reverse s1 ++ bef) (c :: s2 ++ rest) []) = []) ->
  ~ hasTag x.
Proof.
  intros Hno (a & t & b & -> & (body & -> & Hne & Hbody)).
  assert (Heq : a ++ (60 :: body ++ [62]) ++ b = a ++ 60 :: (body ++ [62] ++ b)).
  { simpl. rewrite <- app_assoc. reflexivity. }
  specialize (Hno a 60 (body ++ [62] ++ b) Heq).
  rewrite (tag_hit _ body (b ++ rest)) in Hno; [discriminate| | |]; try assumption.
  simpl. rewrite <- !app_assoc. reflexivity.
Qed.

Lemma splitLoop_spec : forall fuel bef aft,
  (length aft < fuel)%nat ->
  exists texts tags,
    splitLoop fuel Title17.tagRe bef aft = alternate texts tags
    /\ length texts = S (length tags)
    /\ weave texts tags = aft
    /\ Forall isTag tags
    /\ Forall (fun x => ~ hasTag x) texts.
Proof.
  induction fuel as [|fuel IH]; intros bef aft Hlen; [lia|].
  cbn [splitLoop].
  destruct (search Title17.tagRe bef aft) as [[b e]|] eqn:E.
  - destruct (search_some _ _ _ _ _ E) as (sk & Hsk & Hb & (others & Hm) & Hno).
    destruct (tag_sound b e others Hm) as (body & rest & Ha & Hne & Hbody & He).
    assert (Hrest : (length rest < fuel)%nat).
    { rewrite Hsk, Ha in Hlen. rewrite length_app in Hlen. simpl in Hlen.
      rewrite length_app in Hlen. simpl in Hlen. lia. }
    destruct (IH (before e) (after e)) as (texts & tags & Hs & Hl & Hw & Htags & Htexts).
    { rewrite He. exact Hrest. }
    exists (sk :: texts), ((60 :: body ++ [62]) :: tags).
    split; [|split; [|split; [|split]]].
    + rewrite Hs. cbn [alternate]. f_equal.
      * rewrite Hsk at 1 2. rewrite length_app.
        replace (length sk + length (after b) - length (after b))%nat
          with (length sk) by lia.
        apply take_app_length.
      * f_equal. rewrite He. apply group_captured.
    + simpl. rewrite Hl. reflexivity.
    + cbn [weave]. rewrite Hw, Hsk, Ha, He. simpl.
      rewrite <- app_assoc. reflexivity.
    + constructor; [|exact Htags]. exists body. auto.
    + constructor; [|exact Htexts].
      apply (no_tag_at bef sk (after b)). exact Hno.
  - exists [aft], []. split; [reflexivity|]. split; [reflexivity|].
    split; [simpl; apply app_nil_r|]. split; [constructor|].
    constructor; [|constructor].
    apply (no_tag_at bef aft []). intros s1 c s2 Hs.
    rewrite app_nil_r. apply (search_none _ _ _ E s1 (c :: s2) Hs).
Qed.

Lemma split_spec html :
  exists texts tags,
    split Title17.tagRe html = alternate texts tags
    /\ length texts = S (length tags)
    /\ weave texts tags = html
    /\ Forall isTag tags
    /\ Forall (fun x => ~ hasTag x) texts.
Proof. apply splitLoop_spec. lia. Qed.

Lemma imap_alternate (g : jsstring -> jsstring) texts : forall tags,
  concat (imap (fun i part => if Nat.odd i then part else g part)
            (alternate texts tags))
    = weave (map g texts) tags.
Proof.
  induction texts as [|t texts IH]; intros tags; [reflexivity|].
  destruct tags as [|tag tags].
  - simpl. reflexivity.
  - cbn [alternate imap concat weave map Nat.odd Nat.even negb].
    rewrite <- IH. do 3 f_equal.
Qed.

Theorem tags_untouched defs html :
  exists texts tags texts',
    html = weave texts tags
    /\ Title17.buildTermAnnotator defs html = weave texts' tags
    /\ length texts = S (length tags)
    /\ length texts' = length texts
    /\ Forall isTag tags
    /\ Forall (fun x => ~ hasTag x) texts.
Proof.
  destruct (split_spec html) as (texts & tags & Hs & Hl & Hw & Htags & Htexts).
  unfold Title17.buildTermAnnotator.
  destruct (sort _ _) as [|t terms].
  - exists texts, tags, texts. repeat split; auto.
  - exists texts, tags,
      (map (replaceAll (Title17.termRe (t :: terms))
              (Title17.wrapMatch (t :: terms))) texts).
    split; [auto|]. split.
    + unfold Title17.annotate. rewrite Hs. apply imap_alternate.
    + rewrite length_map. auto.
Qed.

(** ** No terms, no annotation *)

Theorem no_terms_identity (defs : list Title17.TermDef) :
  Forall (fun d => Title17.term d = [] \/ Title17.slug d = []) defs ->
  forall html, Title17.buildTermAnnotator defs html = html.
Proof.
  intros Hall html. unfold Title17.buildTermAnnotator.
  assert (Hf : filter (fun d => truthy (Title17.term d) && truthy (Title17.slug d) = true) defs = []).
  { induction Hall as [|d defs Hd _ IH]; [reflexivity|].
    rewrite filter_cons_False; [exact IH|].
    destruct Hd as [-> | ->]; simpl; [discriminate|].
    rewrite andb_false_r. discriminate. }
  rewrite Hf. reflexivity.
Qed.

(** ** Slugs *)

Lemma plus_single p c tail st :
  p c = true -> blocked p tail -> after st = c :: tail ->
  rmatch (Plus true (Chr p)) st = [advance [c] tail st].
Proof.
  intros Hc Hb Ha. unfold Plus.
  rewrite rmatch_seq, (rmatch_chr_hit p c tail st Ha Hc), flat_map_singleton.
  apply rmatch_star_stop. exact Hb.
Qed.

Lemma plus_blocked p st :
  blocked p (after st) -> rmatch (Plus true (Chr p)) st = [].
Proof.
  intros Hb. unfold Plus. rewrite rmatch_seq. unfold blocked in Hb.
  destruct (after st) as [|c rest] eqn:Ha.
  - rewrite rmatch_chr_end by done. reflexivity.
  - rewrite (rmatch_chr_miss p c rest) by done. reflexivity.
Qed.

Lemma nonAlnumRe_eq : nonAlnumRe = Plus true (Chr notSlugChar).
Proof. reflexivity. Qed.

Lemma collapse_in_run run : forall tail,
  forallb notSlugChar run = true ->
  collapseRuns true (run ++ tail) = collapseRuns true tail.
Proof.
  induction run as [|c run IH]; intros tail H; [reflexivity|].
  simpl in H. apply andb_true_iff in H as [Hc H].
  unfold notSlugChar in Hc. apply negb_true_iff in Hc.
  simpl. unfold isSlugChar. rewrite Hc. apply IH, H.
Qed.

Lemma collapse_flag tail :
  blocked notSlugChar tail -> collapseRuns true tail = collapseRuns false tail.
Proof.
  destruct tail as [|c tail]; [reflexivity|]. simpl. intros H.
  unfold notSlugChar in H. apply negb_false_iff in H.
  unfold isSlugChar. rewrite H. reflexivity.
Qed.

Lemma collapse_run c run tail :
  notSlugChar c = true -> forallb notSlugChar run = true ->
  blocked notSlugChar tail ->
  collapseRuns false (c :: run ++ tail) = 45 :: collapseRuns false tail.
Proof.
  intros Hc Hrun Hb. simpl. unfold notSlugChar in Hc.
  apply negb_true_iff in Hc. unfold isSlugChar. rewrite Hc.
  rewrite (collapse_in_run run tail Hrun), (collapse_flag tail Hb). reflexivity.
Qed.

Lemma render_match f pre m segs :
  render f ((false, pre) :: (true, m) :: segs) = pre ++ f m ++ render f segs.
Proof. reflexivity. Qed.

Lemma collapse_segments : forall n aft,
  (length aft <= n)%nat -> forall fuel bef, (length aft < fuel)%nat ->
  render (fun _ => js "-") (segments fuel nonAlnumRe bef aft)
    = collapseRuns false aft.
Proof.
  induction n as [|n IH]; intros aft Hn fuel bef Hfuel;
    (destruct fuel as [|fuel]; [lia|]).
  - destruct aft; [|simpl in Hn; lia].
    rewrite segments_none; [reflexivity|].
    apply search_end. rewrite nonAlnumRe_eq. apply plus_blocked. exact I.
  - destruct aft as [|c rest].
    { rewrite segments_none; [reflexivity|].
      apply search_end. rewrite nonAlnumRe_eq. apply plus_blocked. exact I. }
    destruct (notSlugChar c) eqn:Hc.
    + destruct (span_split notSlugChar rest) as (run & tail & -> & Hrun & Hb).
      set (st := MState bef (c :: run ++ tail) []).
      destruct (plus_run notSlugChar c run tail st Hc Hrun Hb eq_refl)
        as (others & Ho & _).
      rewrite <- nonAlnumRe_eq in Ho.
      pose proof (search_here _ _ _ _ _ Ho) as Hs.
      pose proof (segments_match fuel nonAlnumRe bef [] (c :: run) tail _ _ Hs
                    eq_refl eq_refl ltac:(discriminate)) as Hseg.
      cbn [app] in Hseg. rewrite Hseg.
      rewrite render_match. cbn [app].
      rewrite (IH tail); [|simpl in Hn; rewrite length_app in Hn; lia
                          |simpl in Hfuel; rewrite length_app in Hfuel; lia].
      rewrite (collapse_run c run tail Hc Hrun Hb). reflexivity.
    + rewrite render_miss.
      2:{ rewrite nonAlnumRe_eq. apply plus_blocked. exact Hc. }
      rewrite (IH rest); [|simpl in Hn; lia|simpl in Hfuel; lia].
      simpl. unfold notSlugChar in Hc. apply negb_false_iff in Hc.
      unfold isSlugChar. rewrite Hc. reflexivity.
Qed.

Lemma collapse_replace s :
  replaceAll nonAlnumRe (fun _ => js "-") s = collapseRuns false s.
Proof. rewrite replaceAll_render. apply (collapse_segments (length s)); lia. Qed.

Lemma collapse_head_true s :
  blocked (isChar 45) (collapseRuns true s).
Proof.
  induction s as [|c s IH]; [exact I|]. simpl.
  destruct (isSlugChar c) eqn:Hc; [|exact IH].
  simpl. unfold isChar. apply N.eqb_neq. intros ->. discriminate.
Qed.

Lemma singleHyphens_collapse s : forall b,
  singleHyphens (collapseRuns b s) = true.
Proof.
  induction s as [|c s IH]; intros b; [reflexivity|]. simpl.
  destruct (isSlugChar c) eqn:Hc.
  - simpl. rewrite IH.
    assert (Hne : (c =? 45) = false)
      by (apply N.eqb_neq; intros ->; discriminate).
    rewrite Hne. reflexivity.
  - destruct b; [apply IH|]. simpl. rewrite IH.
    pose proof (collapse_head_true s) as Hh. unfold blocked, isChar in Hh.
    destruct (collapseRuns true s); [reflexivity|]. rewrite Hh. reflexivity.
Qed.

(** A pattern that takes one hyphen off each end of a string in which
    hyphens are single. *)
Section EdgeHyphens.

Variable R : regex.
Hypothesis R_end : forall bef, rmatch R (MState bef [] []) = [].
Hypothesis R_other : forall bef c rest,
  c <> 45 -> rmatch R (MState bef (c :: rest) []) = [].
Hypothesis R_inner : forall bef c rest,
  bef <> [] -> c <> 45 -> rmatch R (MState bef (45 :: c :: rest) []) = [].
Hypothesis R_last : forall bef,
  bef <> [] ->
  exists others, rmatch R (MState bef [45] []) = MState (45 :: bef) [] [] :: others.
Hypothesis R_first : forall rest,
  blocked (isChar 45) rest ->
  exists others, rmatch R (MState [] (45 :: rest) []) = MState [45] rest [] :: others.

Lemma edge_inner : forall aft fuel bef,
  (length aft < fuel)%nat -> singleHyphens aft = true ->
  bef <> [] \/ blocked (isChar 45) aft ->
  render (fun _ => []) (segments fuel R bef aft) = dropTrailingHyphens aft.
Proof.
  induction aft as [|c rest IH]; intros fuel bef Hfuel Hs Hbef;
    (destruct fuel as [|fuel]; [lia|]).
  - rewrite segments_none; [reflexivity|]. apply search_end, R_end.
  - simpl in Hs. apply andb_true_iff in Hs as [Hc Hs].
    destruct (N.eq_dec c 45) as [->|Hne].
    + destruct Hbef as [Hbef|Hbl]; [|simpl in Hbl; discriminate].
      destruct rest as [|c' rest].
      * destruct (R_last bef Hbef) as (others & Ho).
        pose proof (search_here _ _ _ _ _ Ho) as Hsr.
        pose proof (segments_match fuel R bef [] [45] [] _ _ Hsr
                      eq_refl eq_refl ltac:(discriminate)) as Hseg.
        cbn [app] in Hseg. rewrite Hseg.
        rewrite render_match. cbn [app after before].
        destruct fuel as [|fuel]; [reflexivity|].
        rewrite segments_none; [reflexivity|]. apply search_end, R_end.
      * simpl in Hc. apply negb_true_iff, N.eqb_neq in Hc.
        rewrite render_miss by (apply R_inner; assumption).
        rewrite (IH (S fuel) (45 :: bef)); [|simpl in *; lia|exact Hs|left; discriminate].
        cbn [dropTrailingHyphens].
        destruct (dropTrailingHyphens rest) eqn:E; [|reflexivity].
        apply N.eqb_neq in Hc. rewrite Hc. reflexivity.
    + rewrite render_miss by (apply R_other; assumption).
      rewrite (IH (S fuel) (c :: bef)); [|simpl in *; lia|exact Hs|left; discriminate].
      cbn [dropTrailingHyphens]. apply N.eqb_neq in Hne. rewrite Hne.
      destruct (dropTrailingHyphens rest); reflexivity.
Qed.

Lemma edge_strip s :
  singleHyphens s = true ->
  replaceAll R (fun _ => []) s = dropTrailingHyphens (dropLeadingHyphens s).
Proof.
  intros Hs. rewrite replaceAll_render. destruct s as [|c rest].
  - rewrite segments_none; [reflexivity|]. apply search_end, R_end.
  - destruct (N.eq_dec c 45) as [->|Hne].
    + simpl in Hs. apply andb_true_iff in Hs as [Hc Hs].
      assert (Hb : blocked (isChar 45) rest).
      { destruct rest as [|c' rest]; [exact I|]. simpl in Hc.
        apply negb_true_iff in Hc. exact Hc. }
      destruct (R_first rest Hb) as (others & Ho).
      pose proof (search_here _ _ _ _ _ Ho) as Hsr.
      pose proof (segments_match (length (45 :: rest)) R [] [] [45] rest _ _ Hsr
                    eq_refl eq_refl ltac:(discriminate)) as Hseg.
      cbn [app] in Hseg. rewrite Hseg.
      rewrite render_match. cbn [app after before].
      rewrite edge_inner; [|simpl; lia|exact Hs|left; discriminate].
      cbn [dropLeadingHyphens]. rewrite N.eqb_refl.
      destruct rest as [|c' rest]; [reflexivity|].
      simpl in Hb. unfold isChar in Hb. cbn [dropLeadingHyphens].
      rewrite Hb. reflexivity.
    + rewrite edge_inner; [|simpl; lia|exact Hs|].
      * cbn [dropLeadingHyphens]. apply N.eqb_neq in Hne. rewrite Hne. reflexivity.
      * right. simpl. unfold isChar. apply N.eqb_neq. exact Hne.
Qed.

End EdgeHyphens.

Lemma rmatch_bol_seq X st :
  rmatch (Seq Bol X) st = match before st with [] => rmatch X st | _ :: _ => [] end.
Proof.
  rewrite rmatch_seq. cbn [rmatch]. destruct (before st); [|reflexivity].
  apply flat_map_singleton.
Qed.

Lemma rmatch_seq_eol X st :
  rmatch (Seq X Eol) st = filter (fun e => after e = []) (rmatch X st).
Proof.
  rewrite rmatch_seq. induction (rmatch X st) as [|e l IH]; [reflexivity|].
  cbn [flat_map]. rewrite IH. cbn [rmatch]. destruct (after e) eqn:E.
  - rewrite filter_cons_True by exact E. reflexivity.
  - rewrite filter_cons_False by (rewrite E; discriminate). reflexivity.
Qed.

Lemma rmatch_alt r1 r2 st : rmatch (Alt r1 r2) st = rmatch r1 st ++ rmatch r2 st.
Proof. reflexivity. Qed.

Lemma title17_edge_strip s :
  singleHyphens s = true ->
  replaceAll Title17.edgeHyphensRe (fun _ => []) s
    = dropTrailingHyphens (dropLeadingHyphens s).
Proof.
  apply edge_strip; unfold Title17.edgeHyphensRe.
  - intros bef. rewrite rmatch_alt, rmatch_bol_seq, rmatch_seq_eol.
    rewrite !plus_blocked by exact I. destruct bef; reflexivity.
  - intros bef c rest Hc. rewrite rmatch_alt, rmatch_bol_seq, rmatch_seq_eol.
    rewrite !plus_blocked by (simpl; unfold isChar; apply N.eqb_neq; exact Hc).
    destruct bef; reflexivity.
  - intros bef c rest Hbef Hc. rewrite rmatch_alt, rmatch_bol_seq, rmatch_seq_eol.
    rewrite (plus_single (isChar 45) 45 (c :: rest));
      [|reflexivity|simpl; unfold isChar; apply N.eqb_neq; exact Hc|reflexivity].
    destruct bef; [congruence|]. reflexivity.
  - intros bef Hbef. rewrite rmatch_alt, rmatch_bol_seq, rmatch_seq_eol.
    rewrite (plus_single (isChar 45) 45 []); [|reflexivity|exact I|reflexivity].
    destruct bef; [congruence|]. exists []. reflexivity.
  - intros rest Hb. rewrite rmatch_alt, rmatch_bol_seq, rmatch_seq_eol.
    rewrite (plus_single (isChar 45) 45 rest); [|reflexivity|exact Hb|reflexivity].
    eexists. reflexivity.
Qed.

Lemma uscode_edge_strip s :
  singleHyphens s = true ->
  replaceAll USCode.edgeHyphenRe (fun _ => []) s
    = dropTrailingHyphens (dropLeadingHyphens s).
Proof.
  apply edge_strip; unfold USCode.edgeHyphenRe.
  - intros bef. rewrite rmatch_alt, rmatch_bol_seq, rmatch_seq_eol.
    rewrite !rmatch_chr_end by reflexivity. destruct bef; reflexivity.
  - intros bef c rest Hc. rewrite rmatch_alt, rmatch_bol_seq, rmatch_seq_eol.
    rewrite !(rmatch_chr_miss _ c rest)
      by (try reflexivity; unfold isChar; apply N.eqb_neq; exact Hc).
    destruct bef; reflexivity.
  - intros bef c rest Hbef Hc. rewrite rmatch_alt, rmatch_bol_seq, rmatch_seq_eol.
    rewrite (rmatch_chr_hit _ 45 (c :: rest)) by reflexivity.
    destruct bef; [congruence|]. reflexivity.
  - intros bef Hbef. rewrite rmatch_alt, rmatch_bol_seq, rmatch_seq_eol.
    rewrite (rmatch_chr_hit _ 45 []) by reflexivity.
    destruct bef; [congruence|]. exists []. reflexivity.
  - intros rest Hb. rewrite rmatch_alt, rmatch_bol_seq, rmatch_seq_eol.
    rewrite (rmatch_chr_hit _ 45 rest) by reflexivity.
    eexists. reflexivity.
Qed.

Theorem slug_refines term :
  Title17.slugOf term = slugSpec term /\ USCode.slugOf term = slugSpec term.
Proof.
  unfold Title17.slugOf, USCode.slugOf, slugSpec.
  rewrite collapse_replace. split.
  - apply title17_edge_strip, singleHyphens_collapse.
  - apply uscode_edge_strip, singleHyphens_collapse.
Qed.

(** ** Quoted terms *)

Lemma quoted_at p st t post :
  after st = ldquo :: t ++ rdquo :: post -> t <> [] ->
  forallb p t = true -> p rdquo = false ->
  exists e others, rmatch (quotedRe p) st = e :: others /\ group 1 e = t.
Proof.
  intros Ha Hne Ht Hp. unfold quotedRe. cbn [seqs foldr].
  rewrite rmatch_seq, (rmatch_chr_hit _ ldquo (t ++ rdquo :: post)) by done.
  rewrite flat_map_singleton.
  destruct t as [|c t]; [congruence|]. simpl in Ht.
  apply andb_true_iff in Ht as [Hc Ht].
  set (st1 := advance [ldquo] ((c :: t) ++ rdquo :: post) st).
  destruct (plus_run p c t (rdquo :: post) st1 Hc Ht Hp eq_refl)
    as (others & Ho & _).
  rewrite rmatch_seq, rmatch_group, Ho. cbn [map flat_map].
  rewrite capture_advance by reflexivity.
  rewrite rmatch_seq, (rmatch_chr_hit _ rdquo post) by reflexivity.
  cbn [flat_map rmatch app]. eexists. eexists. split; [reflexivity|].
  reflexivity.
Qed.


(** ** The paragraph loop ends *)








Lemma title17_quoted_eq : Title17.quotedTermRe = quotedRe (notChar rdquo).
Proof. reflexivity. Qed.


(** ** The pattern of a term *)









(** ** The pattern of the annotator *)










(** ** Word boundaries around a phrase *)








(** ** Text without tags *)





(** ** Text without word characters holds no term *)












(** ** An occurrence of the first term *)


(** ** The table from lower-case term to slug and source *)






(** ** Sorting and filtering the records *)








(** ** Two records for one term *)





(** ** Anchors follow paths *)

Lemma forEach_anchor sec : forall l i m stk,
  (forall j meta, m !! j = Some meta -> anchorId meta = js "p-" ++ sec ++ path meta) ->
  forall j meta,
  (forEach (Title17.visit sec) i l (m, stk)).1 !! j = Some meta ->
  anchorId meta = js "p-" ++ sec ++ path meta.
Proof.
  induction l as [|b l IH]; intros i m stk Hm j meta Hj; [eauto|].
  simpl in Hj. destruct (designator b) as [tok|] eqn:Hdes.
  - rewrite (visit_designated sec m stk i b tok Hdes) in Hj.
    eapply IH; [|exact Hj]. intros k mk Hk.
    destruct (decide (k = i)) as [->|Hne].
    + rewrite lookup_insert_eq in Hk. inversion Hk. reflexivity.
    + rewrite lookup_insert_ne in Hk by congruence. eauto.
  - rewrite (visit_skipped sec _ i b Hdes) in Hj. eapply IH; eauto.
Qed.

Lemma build_anchor content sec j meta :
  Title17.buildParaMetaMap content sec !! j = Some meta ->
  anchorId meta = js "p-" ++ sec ++ path meta.
Proof.
  apply forEach_anchor. intros k mk Hk. rewrite lookup_empty in Hk. discriminate.
Qed.

Lemma designator_none b :
  ~ beginsWithDesignatorSpan (html b) -> designator b = None.
Proof.
  intros H. unfold designator. rewrite (splitBlockHtml_none _ H).
  destruct (isStructural (type b)); reflexivity.
Qed.

(** ** The paragraphs of the multi-title viewer *)

Lemma uscode_quoted_eq : USCode.quotedTermRe = quotedRe plainTermChar.
Proof. reflexivity. Qed.




(** * The claims *)

(** Equalities between closed terms are settled by evaluation. *)
Ltac evaluate := vm_compute; reflexivity.

(** ** C1: the address codec round trip *)

(** C1, as the code has it.  Decoding an encoded target gives the target
    back in the multi-title codec for the home target, for a title
    listing whose identifier is digits followed by capital letters, and
    for a section whose title and section identifiers have that shape and
    whose paragraph anchor is absent, an open parenthesis followed by at
    least one character, or [def/] followed by a non-empty slug (no line
    terminators in either); in the single-title codec for the home
    target, every chapter listing and every section without a paragraph
    anchor whose number has that shape. *)
Theorem C1_roundtrip_wellformed :
  (forall v, wellFormed v = true ->
     USCode.parseHash (USCode.viewToHash v) = v)
  /\ (forall v, plainTarget v = true ->
        Title17.parseHash (Title17.viewToHash v) = v).
Proof. split; [exact uscode_roundtrip|exact title17_roundtrip]. Qed.

Lemma C1_roundtrip_witness :
  USCode.parseHash
    (USCode.viewToHash (USCode.SectionV (js "17") (js "106A") (Some (js "(a)(1)"))))
    = USCode.SectionV (js "17") (js "106A") (Some (js "(a)(1)"))
  /\ Title17.parseHash (Title17.viewToHash (Title17.SectionV (js "1201") None))
     = Title17.SectionV (js "1201") None.
Proof.
  split.
  - apply (proj1 C1_roundtrip_wellformed). evaluate.
  - apply (proj2 C1_roundtrip_wellformed). evaluate.
Defined.

(** C1 as stated fails.  Section 78a of title 15 is encoded as [#t15/s78a],
    which no pattern of the multi-title decoder accepts (a lower-case
    letter), so it decodes to the home target; and the single-title
    encoder writes no paragraph anchor, so section 106 with the anchor
    (a)(1) comes back as section 106 without one. *)
Lemma C1_roundtrip_counterexample :
  USCode.parseHash (USCode.viewToHash (USCode.SectionV (js "15") (js "78a") None))
    = USCode.Home
  /\ Title17.parseHash
       (Title17.viewToHash (Title17.SectionV (js "106") (Some (js "(a)(1)"))))
     = Title17.SectionV (js "106") None.
Proof. split; evaluate. Qed.

(** ** C2: what the multi-title decoder returns *)

(** C2.  The decoder maps [t17/s106(a)(1)] to section 106 of title 17 with
    the paragraph anchor (a)(1), and [t17/s101/def/anonymous-work] to
    section 101 of title 17 with the anchor def/anonymous-work.  With the
    leading [#] (and [/]) taken off, an empty address is the home target;
    otherwise the result is that of the first pattern that matches, in
    the order definition anchor, paragraph anchor, bare section, title,
    and the home target when none does. *)
Theorem C2_decoder_examples_and_order :
  USCode.parseHash (js "t17/s106(a)(1)")
    = USCode.SectionV (js "17") (js "106") (Some (js "(a)(1)"))
  /\ USCode.parseHash (js "t17/s101/def/anonymous-work")
     = USCode.SectionV (js "17") (js "101") (Some (js "def/anonymous-work"))
  /\ forall hash,
       let h := replaceFirst hashPrefixRe (fun _ => []) hash in
       (h = [] -> USCode.parseHash hash = USCode.Home)
       /\ (h <> [] ->
           USCode.parseHash hash =
             match exec USCode.defRe h, exec USCode.secParenRe h,
                   exec USCode.secRe h, exec USCode.titleRe h with
             | Some (_, m), _, _, _ =>
                 USCode.SectionV (group 1 m) (group 2 m)
                   (Some (js "def/" ++ group 3 m))
             | None, Some (_, m), _, _ =>
                 USCode.SectionV (group 1 m) (group 2 m) (Some (group 3 m))
             | None, None, Some (_, m), _ =>
                 USCode.SectionV (group 1 m) (group 2 m) None
             | None, None, None, Some (_, m) => USCode.Title (group 1 m)
             | None, None, None, None => USCode.Home
             end).
Proof.
  split; [evaluate|]. split; [evaluate|].
  intros hash h. unfold USCode.parseHash. fold h. split.
  - intros ->. reflexivity.
  - intros Hne. destruct h as [|c h']; [congruence|]. cbn [truthy negb].
    destruct (exec USCode.defRe (c :: h')) as [[? ?]|]; [reflexivity|].
    destruct (exec USCode.secParenRe (c :: h')) as [[? ?]|]; [reflexivity|].
    destruct (exec USCode.secRe (c :: h')) as [[? ?]|]; [reflexivity|].
    destruct (exec USCode.titleRe (c :: h')) as [[? ?]|]; reflexivity.
Qed.

(** ** C3: paths have one token per level *)

(** C3, as the code has it.  In the single-title builder every block
    with a designator gets an entry, and when indents are contiguous from
    0 the path of a block at indent d is the concatenation of d+1
    designator tokens: one for each depth 0..d, each the designator of a
    block at that depth at or before the block, the last one the block's
    own; the two blocks of the claim, at indents 0 and 1, get the paths
    (b) and (b)(1).  The multi-title builder counts depth as indent - 1:
    when indents are contiguous from 1 it returns a map in which every
    block with a designator has an entry, and the path of a block at
    indent d+1 is the concatenation of d+1 designator tokens, one for each
    indent 1..d+1; the same two blocks at indents 1 and 2 get the paths
    (b) and (b)(1). *)
Theorem C3_paths_one_token_per_level :
  (forall content sec,
     contiguous content = true ->
     (forall i b, content !! i = Some b -> is_Some (designator b) ->
        is_Some (Title17.buildParaMetaMap content sec !! i))
     /\ (forall i meta,
          Title17.buildParaMetaMap content sec !! i = Some meta ->
          exists b tokens,
            content !! i = Some b /\ tokenPath content i b tokens
            /\ path meta = concat tokens))
  /\ (path <$> Title17.buildParaMetaMap Examples.outline (js "106") !! 0%nat
        = Some (js "(b)")
      /\ path <$> Title17.buildParaMetaMap Examples.outline (js "106") !! 1%nat
         = Some (js "(b)(1)"))
  /\ (forall blocks sec,
        contiguousFromOne 1 blocks = true ->
        (Z.of_nat (length blocks) <= USCode.maxArrayLength)%Z ->
        exists m,
          USCode.buildParaMetaMap blocks sec = USCode.Returns m
          /\ (forall i b, blocks !! i = Some b -> is_Some (firstNumSpan b) ->
                is_Some (m !! i))
          /\ (forall i meta,
                m !! i = Some meta ->
                exists b tokens,
                  blocks !! i = Some b /\ tokenPathFromOne blocks i b tokens
                  /\ path meta = concat tokens))
  /\ (pathAt (USCode.buildParaMetaMap Examples.outlineFromOne (js "106")) 0
        = Some (js "(b)")
      /\ pathAt (USCode.buildParaMetaMap Examples.outlineFromOne (js "106")) 1
         = Some (js "(b)(1)")).
Proof.
  split; [|split; [|split]].
  - intros content sec Hc. split.
    + intros i b. apply title17_entries.
    + intros i meta Hi.
      destruct (title17_paths content sec i meta Hc Hi)
        as (b & tokens & Hb & Htok & Hp & _).
      exists b, tokens. auto.
  - split; evaluate.
  - intros blocks sec Hc Hmax.
    destruct (uscode_paths blocks sec Hc Hmax) as (m & Hm & Hgood & Hall).
    exists m. split; [exact Hm|]. split; [exact Hall|].
    intros i meta Hi.
    destruct (Hgood i meta Hi) as (b & tokens & Hb & Htok & Hp & _).
    exists b, tokens. auto.
  - split; evaluate.
Qed.

Lemma C3_paths_witness :
  (exists b tokens,
     Examples.outline !! 1%nat = Some b
     /\ tokenPath Examples.outline 1 b tokens
     /\ js "(b)(1)" = concat tokens)
  /\ (exists m,
        USCode.buildParaMetaMap Examples.outlineFromOne (js "106")
          = USCode.Returns m
        /\ forall i meta,
             m !! i = Some meta ->
             exists b tokens,
               Examples.outlineFromOne !! i = Some b
               /\ tokenPathFromOne Examples.outlineFromOne i b tokens
               /\ path meta = concat tokens).
Proof.
  destruct C3_paths_one_token_per_level as (Hone & _ & Hmany & _). split.
  - destruct (Hone Examples.outline (js "106")) as (_ & H); [evaluate|].
    destruct (H 1%nat {| path := js "(b)(1)"; anchorId := js "p-106(b)(1)" |})
      as (b & tokens & Hb & Htok & Hp); [evaluate|].
    exists b, tokens. auto.
  - destruct (Hmany Examples.outlineFromOne (js "106"))
      as (m & Hm & _ & Hgood); [evaluate | simpl; unfold USCode.maxArrayLength; lia |].
    exists m. split; [exact Hm|exact Hgood].
Defined.

(** C3 as stated fails in the multi-title builder: on the two blocks of
    the claim, at indents 0 and 1, the depth of the first block is -1 and
    setting the stack's length to it raises a RangeError; no path comes
    back. *)
Lemma C3_paths_counterexample :
  USCode.buildParaMetaMap Examples.outline (js "106") = USCode.RangeError.
Proof. evaluate. Qed.

(** ** C4: anchor identifiers *)




(** ** C5: a block without a designator span *)

(** C5.  A block of a structural type whose markup does not begin with a
    designator span gets no entry in the map of the single-title builder
    (a total function: nothing in it can fail); the entries of all other
    blocks are what they would be without the block, those after it one
    index further on, so the block gives no token to any path; and the
    page shows the block by the default rendering of its markup. *)
Theorem C5_block_without_designator pre b post sec annotateTerms :
  isStructural (type b) = true ->
  ~ beginsWithDesignatorSpan (html b) ->
  let m := Title17.buildParaMetaMap (pre ++ b :: post) sec in
  let m' := Title17.buildParaMetaMap (pre ++ post) sec in
  m !! length pre = None
  /\ (forall i, (i < length pre)%nat -> m !! i = m' !! i)
  /\ (forall i, (length pre <= i)%nat -> m !! S i = m' !! i)
  /\ Title17.renderBlock m annotateTerms (length pre) b
     = Title17.DefaultBlock (annotateTerms (html b)).
Proof.
  intros _ Hno m m'.
  destruct (skipped_block pre b post sec (designator_none b Hno))
    as (Hnone & Hlt & Hge).
  fold m m' in Hnone, Hlt, Hge. repeat split; try assumption.
  unfold Title17.renderBlock. rewrite Hnone. reflexivity.
Qed.

Lemma C5_block_witness :
  Title17.buildParaMetaMap
    (Examples.before_bare ++ Examples.bare :: Examples.after_bare) (js "106")
    !! 1%nat = None
  /\ path <$> Title17.buildParaMetaMap
       (Examples.before_bare ++ Examples.bare :: Examples.after_bare) (js "106")
       !! 2%nat = Some (js "(a)(1)").
Proof.
  destruct (C5_block_without_designator Examples.before_bare Examples.bare
              Examples.after_bare (js "106") (fun h => h))
    as (Hnone & _ & Hge & _).
  - evaluate.
  - apply splitBlockHtml_iff. evaluate.
  - split; [exact Hnone|]. rewrite (Hge 1%nat); [evaluate|].
    apply Nat.le_refl.
Defined.

(** ** C6: tags are left alone *)

(** C6, as the code has it.  A tag segment is a [<], one or more characters
    other than [>], and the first [>] after them.  Every fragment is a
    sequence text, tag, text, ..., text of such tag segments and of text
    segments that hold none; the annotated fragment has the same tag
    segments in the same places, and only the text segments may differ.
    So a word inside an attribute value is left alone when no [>] comes
    before it inside its tag, as in the link whose title is the word
    author. *)
Theorem C6_tag_segments_unchanged :
  (forall defs html,
     exists texts tags texts',
       html = weave texts tags
       /\ Title17.buildTermAnnotator defs html = weave texts' tags
       /\ length texts = S (length tags)
       /\ length texts' = length texts
       /\ Forall isTag tags
       /\ Forall (fun x => ~ hasTag x) texts)
  /\ Title17.buildTermAnnotator [Examples.author] Examples.linkPlain
     = js "<a title=" ++ dq ++ js "author" ++ dq ++ js ">the "
         ++ Title17.defTermSpan (js "author", js "101") (js "author")
         ++ js "</a>".
Proof. split; [exact tags_untouched|evaluate]. Qed.

(** C6 as stated fails: in a link whose title attribute is [x > author],
    the tag segment ends at the [>] inside the attribute value, and the
    word author after it, still inside the attribute value, is wrapped in
    a span. *)
Lemma C6_tag_counterexample :
  Title17.buildTermAnnotator [Examples.author] Examples.linkWithGt
    = js "<a title=" ++ dq ++ js "x > "
        ++ Title17.defTermSpan (js "author", js "101") (js "author")
        ++ dq ++ js ">t</a>".
Proof. evaluate. Qed.

(** ** C7: the longer of two terms *)




(** ** C8: two records for one term *)




(** ** C9: the paragraphs of a definitions section *)



(** ** C10: no usable record *)

(** C10.  When every record has an empty term or an empty slug, and so
    also for the empty list, the annotator returns every fragment as it
    is. *)
Theorem C10_no_terms_identity (defs : list Title17.TermDef) :
  Forall (fun d => Title17.term d = [] \/ Title17.slug d = []) defs ->
  forall html, Title17.buildTermAnnotator defs html = html.
Proof. exact (no_terms_identity defs). Qed.

Lemma C10_no_terms_witness :
  Title17.buildTermAnnotator
    [Examples.termDef [] (js "work") (js "101");
     Examples.termDef (js "author") [] (js "101")]
    (js "the <b>author</b> of a work")
    = js "the <b>author</b> of a work"
  /\ Title17.buildTermAnnotator [] (js "an author") = js "an author".
Proof.
  split.
  - apply C10_no_terms_identity.
    constructor; [left; reflexivity|].
    constructor; [right; reflexivity|]. constructor.
  - apply C10_no_terms_identity. constructor.
Defined.

(** * Further proofs *)

Import JS Types Shape JSLib Props.

(** ** Deep links: from the address the tools offer to the element *)

Lemma strip_hash_section x :
  replaceFirst hashPrefixRe (fun _ => []) (js "#section/" ++ x)
    = js "section/" ++ x.
Proof. apply (strip_hash_s (js "ection/" ++ x)). Qed.

Lemma strip_hash_chapter x :
  replaceFirst hashPrefixRe (fun _ => []) (js "#chapter/" ++ x)
    = js "chapter/" ++ x.
Proof. apply (strip_hash_c (js "hapter/" ++ x)). Qed.





(** What the single-title decoder does with the text after
    [#section/]. *)
Lemma parseHash_section rest :
  Title17.parseHash (js "#section/" ++ rest) =
    match exec Title17.defAnchorRe rest with
    | Some (_, defMatch) =>
        Title17.SectionV (group 1 defMatch)
          (Some (js "def/" ++ group 2 defMatch))
    | None =>
        match indexOf 40 rest with
        | Some (S k) =>
            Title17.SectionV (take (S k) rest) (Some (slice (S k) rest))
        | _ => Title17.SectionV rest None
        end
    end.
Proof.
  change (js "#section/" ++ rest) with (35 :: 115 :: js "ection/" ++ rest).
  unfold Title17.parseHash. rewrite strip_hash_s.
  change (startsWith (js "section/") (115 :: js "ection/" ++ rest)) with true.
  cbn [truthy negb]. cbv iota.
  change (slice 8 (115 :: js "ection/" ++ rest)) with rest.
  reflexivity.
Qed.


(** ** The characters of a slug *)








(** ** Deep links of the multi-title viewer *)






(** ** The anchor of an entry of the multi-title builder *)

Lemma usc_forEach_anchor sec : forall l i acc m stack,
  (forall m0 stack0, acc = USCode.Returns (m0, stack0) ->
     forall j meta, m0 !! j = Some meta ->
       anchorId meta = js "p-" ++ sec ++ path meta) ->
  forEach (USCode.visit sec) i l acc = USCode.Returns (m, stack) ->
  forall j meta, m !! j = Some meta ->
    anchorId meta = js "p-" ++ sec ++ path meta.
Proof.
  induction l as [|b l IH]; intros i acc m stack Hacc Hrun j meta Hj.
  - simpl in Hrun. exact (Hacc m stack Hrun j meta Hj).
  - simpl in Hrun.
    refine (IH (S i) (USCode.visit sec acc i b) m stack _ Hrun j meta Hj).
    intros m1 stack1 Hstep k mk Hk.
    unfold USCode.visit in Hstep.
    destruct acc as [[m0 stack0]|]; [|discriminate].
    destruct (negb (isStructural (type b))).
    { inversion Hstep; subst. exact (Hacc _ _ eq_refl k mk Hk). }
    destruct (exec USCode.numSpanRe (html b)) as [[b0 e]|].
    2:{ inversion Hstep; subst. exact (Hacc _ _ eq_refl k mk Hk). }
    cbv zeta in Hstep.
    destruct ((indent b - 1 <? 0)%Z || (USCode.maxArrayLength <? indent b - 1)%Z);
      [discriminate|].
    inversion Hstep; subst m1 stack1. clear Hstep.
    destruct (decide (k = i)) as [->|Hne].
    + rewrite lookup_insert_eq in Hk. inversion Hk. reflexivity.
    + rewrite lookup_insert_ne in Hk by congruence.
      exact (Hacc _ _ eq_refl k mk Hk).
Qed.

Lemma usc_build_anchor blocks sec m j meta :
  USCode.buildParaMetaMap blocks sec = USCode.Returns m ->
  m !! j = Some meta -> anchorId meta = js "p-" ++ sec ++ path meta.
Proof.
  unfold USCode.buildParaMetaMap. intros Hb Hj.
  destruct (forEach (USCode.visit sec) 0 blocks (USCode.Returns (∅, [])))
    as [[m0 stack0]|] eqn:E; [|discriminate].
  inversion Hb; subst m0.
  eapply (usc_forEach_anchor sec blocks 0 _ m stack0); [|exact E|exact Hj].
  intros m1 s1 H1 k mk Hk. inversion H1; subst.
  rewrite lookup_empty in Hk. discriminate.
Qed.

(** ** The slug of a parsed definition *)





(** ** What a match tells about the input *)

Lemma in_chr p st e :
  In e (rmatch (Chr p) st) ->
  exists c, p c = true /\ after st = c :: after e
            /\ e = advance [c] (after e) st.
Proof.
  cbn [rmatch]. destruct (after st) as [|c rest] eqn:Ha; [intros []|].
  destruct (p c) eqn:Hp; [|intros []]. intros [<-|[]].
  exists c. repeat split; assumption || reflexivity.
Qed.

Lemma in_star_chr p g : forall fuel st e,
  In e (star fuel (rmatch (Chr p)) g st) ->
  exists run, forallb p run = true /\ after st = run ++ after e
              /\ e = advance run (after e) st.
Proof.
  induction fuel as [|fuel IH]; intros st e He.
  - destruct He as [<-|[]]. exists []. split; [reflexivity|].
    split; [reflexivity|]. symmetry. apply advance_nil.
  - cbn [star] in He.
    assert (Hmore : forall e,
      In e (flat_map
              (fun st' => if (length (after st') <? length (after st))%nat
                          then star fuel (rmatch (Chr p)) g st' else [])
              (rmatch (Chr p) st)) ->
      exists run, forallb p run = true /\ after st = run ++ after e
                  /\ e = advance run (after e) st).
    { intros e' He'. apply in_flat_map in He' as (st' & Hst' & He').
      destruct (length (after st') <? length (after st))%nat; [|destruct He'].
      apply in_chr in Hst' as (c & Hc & Ha & Hst').
      destruct (IH st' e' He') as (run & Hrun & Ha' & He'').
      exists (c :: run). split; [simpl; rewrite Hc; exact Hrun|].
      split; [rewrite Ha, Ha'; reflexivity|].
      rewrite He'', Hst'. apply advance_advance. }
    assert (Hnow : exists run, forallb p run = true /\ after st = run ++ after st
                               /\ st = advance run (after st) st).
    { exists []. split; [reflexivity|]. split; [reflexivity|].
      symmetry. apply advance_nil. }
    destruct g.
    + apply in_app_or in He as [He|[<-|[]]]; [apply Hmore, He|exact Hnow].
    + destruct He as [<-|He]; [exact Hnow|apply Hmore, He].
Qed.

Lemma in_star_class p g st e :
  In e (rmatch (Star g (Chr p)) st) ->
  exists run, forallb p run = true /\ after st = run ++ after e
              /\ e = advance run (after e) st.
Proof. apply in_star_chr. Qed.

Lemma in_plus_class p g st e :
  In e (rmatch (Plus g (Chr p)) st) ->
  exists run, run <> [] /\ forallb p run = true /\ after st = run ++ after e
              /\ e = advance run (after e) st.
Proof.
  unfold Plus. rewrite rmatch_seq. intros He.
  apply in_flat_map in He as (st' & Hst' & He).
  apply in_chr in Hst' as (c & Hc & Ha & Hst').
  apply in_star_class in He as (run & Hrun & Ha' & He).
  exists (c :: run). split; [discriminate|].
  split; [simpl; rewrite Hc; exact Hrun|].
  split; [rewrite Ha, Ha'; reflexivity|].
  rewrite He, Hst'. apply advance_advance.
Qed.

Lemma in_lit l : forall st e,
  In e (rmatch (Lit l) st) ->
  after st = l ++ after e /\ e = advance l (after e) st.
Proof.
  induction l as [|x l IH]; intros st e He.
  - destruct He as [<-|[]]. split; [reflexivity|]. symmetry. apply advance_nil.
  - change (Lit (x :: l)) with (Seq (Chr (isChar x)) (Lit l)) in He.
    rewrite rmatch_seq in He. apply in_flat_map in He as (st' & Hst' & He).
    apply in_chr in Hst' as (c & Hc & Ha & Hst').
    unfold isChar in Hc. apply N.eqb_eq in Hc. subst c.
    destruct (IH st' e He) as (Ha' & He').
    split; [rewrite Ha, Ha'; reflexivity|].
    rewrite He', Hst'. apply advance_advance.
Qed.

Lemma in_seq r1 r2 st e :
  In e (rmatch (Seq r1 r2) st) ->
  exists st', In st' (rmatch r1 st) /\ In e (rmatch r2 st').
Proof. rewrite rmatch_seq. apply in_flat_map. Qed.

Lemma in_group n r st e :
  In e (rmatch (Group n r) st) ->
  exists e0, In e0 (rmatch r st) /\ e = capture n st e0.
Proof.
  rewrite rmatch_group. intros He. apply in_map_iff in He as (e0 & <- & He0).
  exists e0. split; [exact He0|reflexivity].
Qed.

Lemma in_eps st e : In e (rmatch Eps st) -> e = st.
Proof. intros [<-|[]]. reflexivity. Qed.

Lemma head_in {A} (x : A) l rest : l = x :: rest -> In x l.
Proof. intros ->. left. reflexivity. Qed.

(** A match of the quoted-term pattern: what stands in the input. *)
Lemma quoted_sound p st e :
  In e (rmatch (quotedRe p) st) ->
  exists t, t <> [] /\ forallb p t = true
            /\ after st = ldquo :: t ++ rdquo :: after e
            /\ group 1 e = t.
Proof.
  unfold quotedRe. cbn [seqs foldr]. intros He.
  apply in_seq in He as (s1 & H1 & He).
  apply in_chr in H1 as (c1 & Hc1 & Ha1 & Hs1).
  unfold isChar in Hc1. apply N.eqb_eq in Hc1. subst c1.
  apply in_seq in He as (s2 & H2 & He).
  apply in_group in H2 as (s2' & H2 & Hs2).
  apply in_plus_class in H2 as (t & Hne & Ht & Ha2 & Hs2').
  apply in_seq in He as (s3 & H3 & He).
  apply in_chr in H3 as (c3 & Hc3 & Ha3 & Hs3).
  unfold isChar in Hc3. apply N.eqb_eq in Hc3. subst c3.
  apply in_eps in He. subst e.
  assert (Hs2a : after s2 = after s2') by (rewrite Hs2; reflexivity).
  exists t. split; [exact Hne|]. split; [exact Ht|]. split.
  - rewrite Ha1, Ha2, <- Hs2a, Ha3. reflexivity.
  - rewrite Hs3. unfold group, advance. cbn [caps]. rewrite Hs2.
    unfold capture. cbn [caps assoc]. rewrite Nat.eqb_refl. cbn [default].
    apply consumed_reaches. rewrite Ha2. reflexivity.
Qed.

(** The first match of the quoted-term pattern in a string: the text
    before it holds no quoted term. *)
Lemma quoted_exec_sound p s b e :
  exec (quotedRe p) s = Some (b, e) ->
  exists pre t,
    t <> [] /\ forallb p t = true
    /\ s = pre ++ ldquo :: t ++ rdquo :: after e
    /\ group 1 e = t
    /\ (forall s1 c s2, pre = s1 ++ c :: s2 ->
          rmatch (quotedRe p)
            (MState (reverse s1 ++ []) (c :: s2 ++ ldquo :: t ++ rdquo :: after e) [])
          = []).
Proof.
  unfold exec. intros H.
  destruct (search_some _ _ _ _ _ H) as (pre & Hs & Hb & (rest & Hm) & Hnone).
  destruct (quoted_sound p b e (head_in _ _ _ Hm)) as (t & Hne & Ht & Ha & Hg).
  exists pre, t. split; [exact Hne|]. split; [exact Ht|].
  split; [rewrite Hs, Ha; reflexivity|]. split; [exact Hg|].
  intros s1 c s2 Hpre. rewrite <- Ha. apply (Hnone s1 c s2 Hpre).
Qed.

(** ** The first occurrence of a string *)

Lemma indexOfStr_first t : forall pre post,
  (forall s1 c s2, pre = s1 ++ c :: s2 ->
     startsWith t (c :: s2 ++ t ++ post) = false) ->
  indexOfStr t (pre ++ t ++ post) = Some (length pre).
Proof.
  induction pre as [|c pre IH]; intros post Hfirst.
  - cbn [app length]. destruct (t ++ post) eqn:E.
    + simpl. destruct t; [reflexivity|discriminate].
    + cbn [indexOfStr]. rewrite <- E.
      rewrite (startsWith_complete t (t ++ post) post eq_refl). reflexivity.
  - cbn [app length indexOfStr].
    rewrite (Hfirst [] c pre eq_refl). rewrite IH; [reflexivity|].
    intros s1 c' s2 ->. apply (Hfirst (c :: s1) c' s2). reflexivity.
Qed.

Lemma indexOfStr_some t : forall s k,
  indexOfStr t s = Some k ->
  exists pre post,
    s = pre ++ t ++ post /\ length pre = k
    /\ (forall s1 c s2, pre = s1 ++ c :: s2 ->
          startsWith t (c :: s2 ++ t ++ post) = false).
Proof.
  induction s as [|c s IH]; intros k H.
  - simpl in H. destruct (startsWith t []) eqn:E; [|discriminate].
    inversion H; subst k. apply startsWith_app in E.
    exists [], (drop (length t) []). split; [exact E|]. split; [reflexivity|].
    intros s1 c s2 Hs. destruct s1; discriminate.
  - cbn [indexOfStr] in H. destruct (startsWith t (c :: s)) eqn:E.
    + inversion H; subst k. apply startsWith_app in E.
      exists [], (drop (length t) (c :: s)). split; [exact E|].
      split; [reflexivity|]. intros s1 c' s2 Hs. destruct s1; discriminate.
    + destruct (indexOfStr t s) as [k'|] eqn:Ek; [|discriminate].
      simpl in H. inversion H; subst k.
      destruct (IH k' eq_refl) as (pre & post & Hs & Hlen & Hfirst).
      exists (c :: pre), post. split; [rewrite Hs; reflexivity|].
      split; [simpl; rewrite Hlen; reflexivity|].
      intros s1 c' s2 Hpre. destruct s1 as [|x s1]; simpl in Hpre.
      * inversion Hpre; subst c' s2. rewrite <- Hs. exact E.
      * inversion Hpre; subst x pre. apply (Hfirst s1 c' s2). reflexivity.
Qed.

Lemma indexOfStr_none t : forall s,
  indexOfStr t s = None -> forall pre post, s <> pre ++ t ++ post.
Proof.
  induction s as [|c s IH]; intros H pre post Hs.
  - simpl in H. destruct (startsWith t []) eqn:E; [discriminate|].
    destruct pre; [|discriminate]. simpl in Hs.
    apply (startsWith_false t [] E post). exact Hs.
  - cbn [indexOfStr] in H. destruct (startsWith t (c :: s)) eqn:E; [discriminate|].
    destruct (indexOfStr t s) eqn:Ek; [discriminate|].
    destruct pre as [|x pre]; simpl in Hs.
    + apply (startsWith_false t (c :: s) E post). exact Hs.
    + inversion Hs; subst x. apply (IH eq_refl pre post). assumption.
Qed.

Lemma indexOfStr_occurs t pre post : is_Some (indexOfStr t (pre ++ t ++ post)).
Proof.
  destruct (indexOfStr t (pre ++ t ++ post)) eqn:E; [eauto|].
  exfalso. apply (indexOfStr_none t _ E pre post). reflexivity.
Qed.

(** An occurrence further to the left than the first one does not
    exist. *)
Lemma first_is_leftmost t pre post p r :
  (forall s1 c s2, pre = s1 ++ c :: s2 ->
     startsWith t (c :: s2 ++ t ++ post) = false) ->
  pre ++ t ++ post = p ++ t ++ r -> (length pre <= length p)%nat.
Proof.
  intros Hfirst Heq.
  destruct (decide (length pre <= length p)%nat) as [|Hlt]; [assumption|].
  exfalso. assert (Hp : (length p < length pre)%nat) by lia.
  assert (Hsplit : pre = take (length p) pre ++ drop (length p) pre)
    by (symmetry; apply take_drop).
  destruct (drop (length p) pre) as [|c s2] eqn:Ed.
  { apply (f_equal length) in Ed. rewrite length_drop in Ed. simpl in Ed. lia. }
  assert (Htake : take (length p) pre = p).
  { apply (f_equal (take (length p))) in Heq.
    rewrite take_app_le in Heq by lia.
    rewrite (take_app_length p) in Heq. exact Heq. }
  rewrite Htake in Hsplit.
  pose proof (Hfirst p c s2 Hsplit) as Hno.
  apply (startsWith_false _ _ Hno r).
  rewrite Hsplit, <- app_assoc in Heq. apply app_inv_head in Heq. exact Heq.
Qed.

Lemma drop_past (pre t post : jsstring) k :
  k = (length pre + length t)%nat -> drop k (pre ++ t ++ post) = post.
Proof.
  intros ->. rewrite app_assoc, <- length_app. apply drop_app_length.
Qed.

(** ** Splitting a definition at its term *)

Lemma splitAt_some html term before after :
  Title17Defs.splitAtFirstTerm html term = Some (before, after) ->
  html = before ++ [ldquo] ++ term ++ [rdquo] ++ after
  /\ (forall p r, html = p ++ [ldquo] ++ term ++ [rdquo] ++ r ->
        (length before <= length p)%nat).
Proof.
  unfold Title17Defs.splitAtFirstTerm. cbv zeta.
  destruct (indexOfStr ([ldquo] ++ term ++ [rdquo]) html) as [k|] eqn:E;
    [|discriminate].
  intros H. inversion H; subst before after. clear H.
  destruct (indexOfStr_some _ _ _ E) as (pre & post & Hs & Hlen & Hfirst).
  subst k. rewrite Hs. unfold slice.
  rewrite (take_app_length pre).
  rewrite (drop_past pre ([ldquo] ++ term ++ [rdquo]) post) by reflexivity.
  split; [rewrite <- !app_assoc; reflexivity|].
  intros p r Heq.
  apply (first_is_leftmost ([ldquo] ++ term ++ [rdquo]) pre post p r Hfirst).
  rewrite Heq, <- !app_assoc. reflexivity.
Qed.

Lemma splitAt_none html term :
  Title17Defs.splitAtFirstTerm html term = None <->
  forall p r, html <> p ++ [ldquo] ++ term ++ [rdquo] ++ r.
Proof.
  unfold Title17Defs.splitAtFirstTerm. cbv zeta. split.
  - destruct (indexOfStr ([ldquo] ++ term ++ [rdquo]) html) eqn:E; [discriminate|].
    intros _ p r Hs. apply (indexOfStr_none _ _ E p r).
    rewrite Hs, <- !app_assoc. reflexivity.
  - intros Hno.
    destruct (indexOfStr ([ldquo] ++ term ++ [rdquo]) html) as [k|] eqn:E;
      [|reflexivity].
    exfalso. destruct (indexOfStr_some _ _ _ E) as (pre & post & Hs & _).
    apply (Hno pre post). rewrite Hs, <- !app_assoc. reflexivity.
Qed.

(** The first quoted term of a text is where the text splits. *)
Lemma splitAt_quoted p s b e :
  p rdquo = false ->
  exec (quotedRe p) s = Some (b, e) ->
  exists before,
    Title17Defs.splitAtFirstTerm s (group 1 e) = Some (before, after e)
    /\ s = before ++ [ldquo] ++ group 1 e ++ [rdquo] ++ after e
    /\ group 1 e <> []
    /\ (forall x y t, t <> [] -> forallb p t = true ->
          before <> x ++ [ldquo] ++ t ++ [rdquo] ++ y).
Proof.
  intros Hp H.
  destruct (quoted_exec_sound p s b e H) as (pre & t & Hne & Ht & Hs & Hg & Hnone).
  rewrite Hg. exists pre.
  assert (Hidx : indexOfStr ([ldquo] ++ t ++ [rdquo]) s = Some (length pre)).
  { rewrite Hs.
    change (pre ++ ldquo :: t ++ rdquo :: after e)
      with (pre ++ (ldquo :: t ++ rdquo :: after e)).
    replace (ldquo :: t ++ rdquo :: after e)
      with (([ldquo] ++ t ++ [rdquo]) ++ after e)
      by (rewrite <- !app_assoc; reflexivity).
    apply indexOfStr_first. intros s1 c s2 Hpre.
    destruct (startsWith ([ldquo] ++ t ++ [rdquo])
                (c :: s2 ++ ([ldquo] ++ t ++ [rdquo]) ++ after e)) eqn:E;
      [|reflexivity].
    exfalso. apply startsWith_app in E.
    set (st := MState (reverse s1 ++ [])
                 (c :: s2 ++ ldquo :: t ++ rdquo :: after e) []).
    destruct (quoted_at p st t
                (drop (length ([ldquo] ++ t ++ [rdquo]))
                   (c :: s2 ++ ([ldquo] ++ t ++ [rdquo]) ++ after e)))
      as (e' & others & He' & _); try assumption.
    { cbn [st JS.after].
      transitivity (c :: s2 ++ ([ldquo] ++ t ++ [rdquo]) ++ after e).
      - repeat (rewrite <- app_assoc || cbn [app]). reflexivity.
      - rewrite E at 1. repeat (rewrite <- app_assoc || cbn [app]).
        reflexivity. }
    unfold st in He'. rewrite (Hnone s1 c s2 Hpre) in He'. discriminate. }
  split; [|split; [|split]].
  - unfold Title17Defs.splitAtFirstTerm. cbv zeta. rewrite Hidx.
    assert (Hs' : s = pre ++ ([ldquo] ++ t ++ [rdquo]) ++ after e).
    { rewrite Hs, <- !app_assoc. reflexivity. }
    rewrite Hs' at 1 2. unfold slice.
    rewrite (take_app_length pre).
    rewrite (drop_past pre ([ldquo] ++ t ++ [rdquo]) (after e)) by reflexivity.
    reflexivity.
  - rewrite Hs. reflexivity.
  - exact Hne.
  - intros x y t' Hne' Ht' Hbefore.
    assert (Hpre : pre = x ++ ldquo :: (t' ++ rdquo :: y)).
    { rewrite Hbefore. reflexivity. }
    pose proof (Hnone x ldquo (t' ++ rdquo :: y) Hpre) as Hno.
    set (st := MState (reverse x ++ [])
                 (ldquo :: (t' ++ rdquo :: y) ++ ldquo :: t ++ rdquo :: after e) []).
    destruct (quoted_at p st t' (y ++ ldquo :: t ++ rdquo :: after e))
      as (e' & others & He' & _); try assumption.
    { cbn [st JS.after]. repeat (rewrite <- app_assoc || cbn [app]).
      reflexivity. }
    unfold st in He'. rewrite Hno in He'. discriminate.
Qed.

(** ** A literal pattern finds the first occurrence *)

Lemma rmatch_lit l : forall st,
  rmatch (Lit l) st =
    if startsWith l (after st)
    then [advance l (drop (length l) (after st)) st] else [].
Proof.
  induction l as [|x l IH]; intros st.
  - cbn [startsWith length drop]. unfold drop. rewrite advance_nil. reflexivity.
  - change (Lit (x :: l)) with (Seq (Chr (isChar x)) (Lit l)).
    rewrite rmatch_seq. destruct (after st) as [|c rest] eqn:Ha.
    + rewrite rmatch_chr_end by exact Ha. reflexivity.
    + cbn [startsWith]. destruct (c =? x) eqn:E.
      * rewrite (rmatch_chr_hit _ c rest st Ha) by exact E.
        rewrite flat_map_singleton, IH. cbn [advance after andb].
        destruct (startsWith l rest); [|reflexivity].
        apply N.eqb_eq in E. subst c. cbn [length drop].
        f_equal. apply (advance_advance [x] rest l (drop (length l) rest) st).
      * rewrite (rmatch_chr_miss _ c rest st Ha) by exact E. reflexivity.
Qed.

Lemma search_lit l : forall aft bef,
  search (Group 1 (Lit l)) bef aft =
    match indexOfStr l aft with
    | None => None
    | Some k =>
        let b := MState (reverse (take k aft) ++ bef) (drop k aft) [] in
        Some (b, capture 1 b (advance l (drop (length l) (drop k aft)) b))
    end.
Proof.
  induction aft as [|c aft IH]; intros bef.
  - cbn [search indexOfStr]. rewrite rmatch_group, rmatch_lit. cbn [after].
    destruct (startsWith l []); reflexivity.
  - cbn [search indexOfStr]. rewrite rmatch_group, rmatch_lit. cbn [after].
    destruct (startsWith l (c :: aft)); [reflexivity|].
    cbn [map]. rewrite IH. destruct (indexOfStr l aft) as [k|]; [|reflexivity].
    cbn [fmap option_fmap option_map take drop].
    rewrite reverse_cons, <- app_assoc. reflexivity.
Qed.

Lemma indexOfStr_bound t s k :
  indexOfStr t s = Some k -> (k + length t <= length s)%nat.
Proof.
  intros H. destruct (indexOfStr_some t s k H) as (pre & post & -> & <- & _).
  rewrite !length_app. lia.
Qed.

Lemma uscode_split_agrees html term :
  USCodeDefs.splitAtFirstTerm html term = Title17Defs.splitAtFirstTerm html term.
Proof.
  unfold USCodeDefs.splitAtFirstTerm, Title17Defs.splitAtFirstTerm,
    USCodeDefs.firstTermRe, exec. cbv zeta.
  rewrite search_lit.
  destruct (indexOfStr ([ldquo] ++ term ++ [rdquo]) html) as [k|] eqn:E;
    [|reflexivity].
  pose proof (indexOfStr_bound _ _ _ E) as Hk.
  destruct (indexOfStr_some _ _ _ E) as (pre & post & Hs & Hlen & _).
  cbv zeta. cbn [after].
  rewrite length_drop.
  replace (length html - (length html - k))%nat with k by lia.
  assert (Hc : consumed
                 (MState (reverse (take k html) ++ []) (drop k html) [])
                 (capture 1
                    (MState (reverse (take k html) ++ []) (drop k html) [])
                    (advance ([ldquo] ++ term ++ [rdquo])
                       (drop (length ([ldquo] ++ term ++ [rdquo])) (drop k html))
                       (MState (reverse (take k html) ++ []) (drop k html) [])))
               = [ldquo] ++ term ++ [rdquo]).
  { apply consumed_reaches. cbn [after capture advance].
    rewrite Hs, <- Hlen, (drop_app_length pre).
    rewrite (drop_app_length ([ldquo] ++ term ++ [rdquo])). reflexivity. }
  rewrite Hc. reflexivity.
Qed.

(** ** Every definition with a term splits at it *)


Lemma uscode_def_splits html defs d :
  USCode.parseSec101Defs html = Some defs -> d ∈ defs ->
  USCode.term d <> [] ->
  exists before after,
    USCodeDefs.splitAtFirstTerm (USCode.innerHtml d) (USCode.term d)
      = Some (before, after)
    /\ USCode.innerHtml d
       = before ++ [ldquo] ++ USCode.term d ++ [rdquo] ++ after.
Proof.
  unfold USCode.parseSec101Defs. intros Hp Hd Ht.
  destruct (execLoop (S (length html)) pRegex [] html) as [ms|]; [|discriminate].
  simpl in Hp. inversion Hp; subst defs. clear Hp.
  apply list_elem_of_In, in_map_iff in Hd as (m & <- & _).
  rewrite uscode_split_agrees.
  unfold USCode.sec101Def in Ht |- *. cbv zeta in Ht |- *.
  destruct (bool_decide (group 1 m.2 = js "indent1"));
    [|exfalso; apply Ht; reflexivity].
  cbn [USCode.term USCode.innerHtml] in Ht |- *.
  destruct (exec USCode.quotedTermRe (group 2 m.2)) as [[b e]|] eqn:E;
    [|exfalso; apply Ht; reflexivity].
  rewrite uscode_quoted_eq in E.
  destruct (splitAt_quoted plainTermChar (group 2 m.2) b e eq_refl E)
    as (before & Hsplit & Hs & _).
  exists before, (after e). auto.
Qed.

(** ** The paragraphs of a definition popup *)

Lemma fullDefLoop_later idx : forall rest i parts,
  (idx < i)%nat ->
  Title17Defs.fullDefLoop idx i rest parts
    = parts ++ map Title17Defs.defPopupPara (subParagraphs rest).
Proof.
  induction rest as [|d rest IH]; intros i parts Hi.
  - simpl. rewrite app_nil_r. reflexivity.
  - cbn [Title17Defs.fullDefLoop subParagraphs].
    replace (idx <? i)%nat with true by (symmetry; apply Nat.ltb_lt; exact Hi).
    cbn [andb].
    destruct (bool_decide (Title17.indentClass d = js "indent1")).
    + simpl. rewrite app_nil_r. reflexivity.
    + rewrite IH by lia. cbn [map]. rewrite <- app_assoc. reflexivity.
Qed.

Lemma fullDefLoop_first idx d rest :
  Title17Defs.fullDefLoop idx idx (d :: rest) []
    = map Title17Defs.defPopupPara (d :: subParagraphs rest).
Proof.
  cbn [Title17Defs.fullDefLoop]. rewrite Nat.ltb_irrefl. cbn [andb].
  rewrite fullDefLoop_later by lia. reflexivity.
Qed.

Lemma findIndex_none {A} (p : A -> bool) l :
  (forall x, x ∈ l -> p x = false) -> findIndex p l = None.
Proof.
  induction l as [|x l IH]; intros H; [reflexivity|]. simpl.
  rewrite (H x) by constructor. rewrite IH; [reflexivity|].
  intros y Hy. apply H. constructor. exact Hy.
Qed.

Lemma findIndex_first {A} (p : A -> bool) pre x rest :
  (forall y, y ∈ pre -> p y = false) -> p x = true ->
  findIndex p (pre ++ x :: rest) = Some (length pre).
Proof.
  induction pre as [|y pre IH]; intros Hpre Hx; simpl.
  - rewrite Hx. reflexivity.
  - rewrite (Hpre y) by constructor. rewrite IH; [reflexivity| |exact Hx].
    intros z Hz. apply Hpre. constructor. exact Hz.
Qed.

Lemma getFullDefHtml_found pre d rest slug :
  (forall x, x ∈ pre -> Title17.defSlug x <> Some slug) ->
  Title17.defSlug d = Some slug ->
  Title17Defs.getFullDefHtml (pre ++ d :: rest) slug
    = concat (map Title17Defs.defPopupPara (d :: subParagraphs rest)).
Proof.
  intros Hpre Hd. unfold Title17Defs.getFullDefHtml.
  rewrite (findIndex_first _ pre d rest).
  - rewrite (drop_app_length pre). rewrite fullDefLoop_first. reflexivity.
  - intros y Hy. apply bool_decide_eq_false. apply Hpre, Hy.
  - apply bool_decide_eq_true. exact Hd.
Qed.

Lemma getFullDefHtml_missing defs slug :
  (forall x, x ∈ defs -> Title17.defSlug x <> Some slug) ->
  Title17Defs.getFullDefHtml defs slug = [].
Proof.
  intros H. unfold Title17Defs.getFullDefHtml. rewrite findIndex_none; [reflexivity|].
  intros x Hx. apply bool_decide_eq_false, H, Hx.
Qed.

(** ** The definitions of subsection (e) *)

Lemma sec115eDef_index i block d :
  Title17Defs.sec115eDef i block = Some d -> Title17Defs.blockIndex d = i.
Proof.
  unfold Title17Defs.sec115eDef.
  destruct (Types.indent block =? 2)%Z; [|discriminate].
  destruct (exec Title17.quotedTermRe (html block)) as [[b e]|]; [|discriminate].
  intros H. inversion H. reflexivity.
Qed.

(** What the loop adds to [defs] from block [i] on.  Every record was
    read off a block that does not open subsection (e) and that lies
    after a block that does. *)
Lemma sec115eLoop_spec : forall content i inE defs,
  exists added,
    Title17Defs.sec115eLoop i content inE defs = defs ++ added
    /\ Forall (fun d =>
         exists k block,
           content !! k = Some block
           /\ Title17Defs.sec115eDef (i + k) block = Some d
           /\ opensE block = false
           /\ (inE = true
               \/ exists j opener, (j < k)%nat /\ content !! j = Some opener
                                   /\ opensE opener = true)) added
    /\ ascending (map Title17Defs.blockIndex added)
    /\ Forall (fun d => (i <= Title17Defs.blockIndex d)%nat) added.
Proof.
  induction content as [|block rest IH]; intros i inE defs.
  - exists []. simpl. rewrite app_nil_r. repeat split; constructor.
  - cbn [Title17Defs.sec115eLoop].
    fold (opensE block). destruct (opensE block) eqn:Hopen.
    { destruct (IH (S i) true defs) as (added & Hrun & Hall & Hsort & Hge).
      exists added. split; [exact Hrun|]. split; [|split; [exact Hsort|]].
      - eapply Forall_impl; [exact Hall|]. intros d (k & b & Hk & Hd & Hb & _).
        exists (S k), b. split; [exact Hk|].
        split; [replace (i + S k)%nat with (S i + k)%nat by lia; exact Hd|].
        split; [exact Hb|]. right. exists 0%nat, block.
        split; [lia|]. split; [reflexivity|exact Hopen].
      - eapply Forall_impl; [exact Hge|]. intros d Hd. simpl in Hd. lia. }
    destruct (inE && bool_decide (type block = js "subsection")
              && (Types.indent block <=? 1)%Z).
    { exists []. rewrite app_nil_r. repeat split; constructor. }
    destruct inE; cbn [negb].
    + set (defs' := match Title17Defs.sec115eDef i block with
                    | Some d => defs ++ [d]
                    | None => defs
                    end).
      destruct (IH (S i) true defs') as (added & Hrun & Hall & Hsort & Hge).
      assert (Hshift : Forall (fun d =>
         exists k b,
           (block :: rest) !! k = Some b
           /\ Title17Defs.sec115eDef (i + k) b = Some d
           /\ opensE b = false
           /\ (true = true
               \/ exists j opener, (j < k)%nat
                    /\ (block :: rest) !! j = Some opener
                    /\ opensE opener = true)) added).
      { eapply Forall_impl; [exact Hall|]. intros d (k & b & Hk & Hd & Hb & _).
        exists (S k), b. split; [exact Hk|].
        split; [replace (i + S k)%nat with (S i + k)%nat by lia; exact Hd|].
        split; [exact Hb|]. left. reflexivity. }
      assert (Hge' : Forall (fun d => (i <= Title17Defs.blockIndex d)%nat) added).
      { eapply Forall_impl; [exact Hge|]. intros d Hd. simpl in Hd. lia. }
      subst defs'.
      destruct (Title17Defs.sec115eDef i block) as [d|] eqn:Hd.
      * exists (d :: added). split; [rewrite Hrun, <- app_assoc; reflexivity|].
        pose proof (sec115eDef_index i block d Hd) as Hi.
        split; [|split].
        -- constructor; [|exact Hshift]. exists 0%nat, block.
           split; [reflexivity|]. rewrite Nat.add_0_r.
           split; [exact Hd|]. split; [exact Hopen|]. left. reflexivity.
        -- cbn [map]. constructor; [|exact Hsort].
           rewrite map_fmap. apply Forall_fmap. eapply Forall_impl; [exact Hge|].
           intros x Hx. simpl in Hx |- *. lia.
        -- constructor; [lia|exact Hge'].
      * exists added. split; [exact Hrun|]. split; [exact Hshift|].
        split; [exact Hsort|exact Hge'].
    + destruct (IH (S i) false defs) as (added & Hrun & Hall & Hsort & Hge).
      exists added. split; [exact Hrun|]. split; [|split; [exact Hsort|]].
      * eapply Forall_impl; [exact Hall|].
        intros d (k & b & Hk & Hd & Hb & [Hf|(j & o & Hj & Ho & Hopn)]);
          [discriminate|].
        exists (S k), b. split; [exact Hk|].
        split; [replace (i + S k)%nat with (S i + k)%nat by lia; exact Hd|].
        split; [exact Hb|]. right. exists (S j), o.
        split; [lia|]. split; [exact Ho|exact Hopn].
      * eapply Forall_impl; [exact Hge|]. intros d Hd. simpl in Hd. lia.
Qed.

Lemma sec115eDef_fields i block d :
  Title17Defs.sec115eDef i block = Some d ->
  Types.indent block = 2%Z /\ Title17Defs.indent d = 2%Z
  /\ Title17Defs.term d <> []
  /\ (exists x y, html block = x ++ [ldquo] ++ Title17Defs.term d ++ [rdquo] ++ y)
  /\ Title17Defs.slug d = slugSpec (Title17Defs.term d)
  /\ startsWith (js "(e)") (Title17Defs.anchor d) = true.
Proof.
  unfold Title17Defs.sec115eDef.
  destruct (Types.indent block =? 2)%Z eqn:Hi; [|discriminate].
  apply Z.eqb_eq in Hi.
  destruct (exec Title17.quotedTermRe (html block)) as [[b e]|] eqn:E;
    [|discriminate].
  intros H. inversion H; subst d. clear H. cbn.
  rewrite title17_quoted_eq in E.
  destruct (quoted_exec_sound _ _ _ _ E) as (pre & t & Hne & Ht & Hs & Hg & _).
  rewrite Hg. split; [exact Hi|]. split; [reflexivity|]. split; [exact Hne|].
  split; [|split].
  - exists pre, (after e). rewrite Hs. repeat (rewrite <- app_assoc || cbn [app]).
    reflexivity.
  - apply (proj1 (slug_refines t)).
  - reflexivity.
Qed.

Lemma parse115e_no_opener content :
  (forall b, b ∈ content -> opensE b = false) ->
  Title17Defs.parseSec115eDefs content = [].
Proof.
  unfold Title17Defs.parseSec115eDefs. generalize 0%nat.
  induction content as [|b rest IH]; intros i H; [reflexivity|].
  cbn [Title17Defs.sec115eLoop]. fold (opensE b).
  rewrite (H b) by constructor. cbn [andb negb].
  apply IH. intros x Hx. apply H. constructor. exact Hx.
Qed.

Lemma parse115e_member content d :
  d ∈ Title17Defs.parseSec115eDefs content ->
  exists block j opener,
    content !! Title17Defs.blockIndex d = Some block
    /\ Types.indent block = 2%Z /\ Title17Defs.indent d = 2%Z
    /\ opensE block = false
    /\ Title17Defs.term d <> []
    /\ (exists x y,
          html block = x ++ [ldquo] ++ Title17Defs.term d ++ [rdquo] ++ y)
    /\ Title17Defs.slug d = Title17.slugOf (Title17Defs.term d)
    /\ startsWith (js "(e)") (Title17Defs.anchor d) = true
    /\ (j < Title17Defs.blockIndex d)%nat
    /\ content !! j = Some opener /\ opensE opener = true.
Proof.
  unfold Title17Defs.parseSec115eDefs.
  destruct (sec115eLoop_spec content 0 false []) as (added & Hrun & Hall & _).
  rewrite Hrun. cbn [app]. intros Hd.
  pose proof (proj1 (Forall_forall _ _) Hall d Hd)
    as (k & block & Hk & Hdef & Hopen & [Hf|(j & opener & Hj & Ho & Hopn)]);
    [discriminate|].
  cbn [Nat.add] in Hdef.
  pose proof (sec115eDef_index _ _ _ Hdef) as Hi.
  destruct (sec115eDef_fields _ _ _ Hdef) as (H1 & H2 & H3 & H4 & H5 & H6).
  exists block, j, opener. rewrite Hi.
  split; [exact Hk|]. split; [exact H1|]. split; [exact H2|].
  split; [exact Hopen|]. split; [exact H3|]. split; [exact H4|].
  split; [rewrite H5; symmetry; apply (proj1 (slug_refines _))|].
  split; [exact H6|]. split; [exact Hj|]. split; [exact Ho|exact Hopn].
Qed.

Lemma parse115e_ascending content :
  ascending (map Title17Defs.blockIndex (Title17Defs.parseSec115eDefs content)).
Proof.
  unfold Title17Defs.parseSec115eDefs.
  destruct (sec115eLoop_spec content 0 false []) as (added & Hrun & _ & Hsort & _).
  rewrite Hrun. exact Hsort.
Qed.

(** ** The blocks of a definition popup of subsection (e) *)

Lemma sec115eHtmlLoop_later def : forall rest i parts,
  (Title17Defs.blockIndex def < i)%nat ->
  Title17Defs.sec115eHtmlLoop def i rest parts
    = parts ++ map (Title17Defs.defPopupBlock def)
                 (deeperBlocks (Title17Defs.indent def) rest).
Proof.
  induction rest as [|b rest IH]; intros i parts Hi.
  - simpl. rewrite app_nil_r. reflexivity.
  - cbn [Title17Defs.sec115eHtmlLoop deeperBlocks].
    replace (Title17Defs.blockIndex def <? i)%nat with true
      by (symmetry; apply Nat.ltb_lt; exact Hi).
    cbn [andb].
    destruct (Types.indent b <=? Title17Defs.indent def)%Z.
    + simpl. rewrite app_nil_r. reflexivity.
    + rewrite IH by lia. cbn [map]. rewrite <- app_assoc. reflexivity.
Qed.

Lemma getSec115eDefHtml_at pre b rest def :
  length pre = Title17Defs.blockIndex def ->
  Title17Defs.getSec115eDefHtml (pre ++ b :: rest) def
    = concat (map (Title17Defs.defPopupBlock def)
                (b :: deeperBlocks (Title17Defs.indent def) rest)).
Proof.
  intros Hlen. unfold Title17Defs.getSec115eDefHtml.
  rewrite <- Hlen, (drop_app_length pre).
  cbn [Title17Defs.sec115eHtmlLoop]. rewrite Hlen, Nat.ltb_irrefl. cbn [andb].
  rewrite sec115eHtmlLoop_later by lia. reflexivity.
Qed.

Lemma getSec115eDefHtml_beyond content def :
  (length content <= Title17Defs.blockIndex def)%nat ->
  Title17Defs.getSec115eDefHtml content def = [].
Proof.
  intros H. unfold Title17Defs.getSec115eDefHtml.
  rewrite drop_ge by exact H. reflexivity.
Qed.

Lemma defPopupBlock_own def block :
  Types.indent block = Title17Defs.indent def ->
  Title17Defs.defPopupBlock def block
    = js "<div class=" ++ dq ++ js "def-popup-block" ++ dq
        ++ js " style=" ++ dq ++ js "padding-left:0px" ++ dq ++ js ">"
        ++ html block ++ js "</div>".
Proof.
  intros H. unfold Title17Defs.defPopupBlock. cbv zeta. rewrite H.
  rewrite Z.sub_diag. reflexivity.
Qed.

(** ** Loops over the matches of a pattern *)

Lemma execLoop_sound r :
  consuming r ->
  forall fuel bef aft, (length aft < fuel)%nat ->
  exists ms,
    execLoop fuel r bef aft = Some ms
    /\ Forall (fun m : mstate * mstate =>
         In m.2 (rmatch r m.1)
         /\ exists x, aft = x ++ after m.1) ms.
Proof.
  intros Hr. induction fuel as [|fuel IH]; intros bef aft Hlen; [lia|].
  cbn [execLoop]. destruct (search r bef aft) as [[b e]|] eqn:E.
  - destruct (search_some _ _ _ _ _ E) as (sk & Hsk & _ & (others & Hm) & _).
    assert (Hin : In e (rmatch r b)) by (rewrite Hm; left; reflexivity).
    pose proof (Hr b e Hin) as Hlt.
    destruct (IH (before e) (after e)) as (ms & Hms & Hall).
    { rewrite Hsk, length_app in Hlen. lia. }
    rewrite Hms. exists ((b, e) :: ms). split; [reflexivity|].
    constructor.
    + split; [exact Hin|]. exists sk. exact Hsk.
    + eapply Forall_impl; [exact Hall|]. intros m (Hm1 & x & Hx).
      split; [exact Hm1|].
      destruct (rmatch_reaches r b e Hin) as (l & Hl & _).
      exists (sk ++ l ++ x). rewrite Hsk, Hl, Hx, <- !app_assoc. reflexivity.
  - exists []. split; [reflexivity|constructor].
Qed.

Lemma seq_lit_consuming c l K : consuming (Seq (Lit (c :: l)) K).
Proof.
  intros st e He. apply in_seq in He as (st' & H1 & He).
  apply in_lit in H1 as (Ha & _). apply rmatch_reaches, reaches_length in He.
  rewrite Ha. simpl. rewrite length_app. lia.
Qed.

(** ** Public laws in a source credit *)

Lemma pubLaw_sound st e :
  In e (rmatch Title17Notes.pubLawRe st) ->
  exists ws1 ws2 congress dash law,
    after st = js "Pub." ++ ws1 ++ js "L." ++ ws2 ++ congress ++ [dash]
                 ++ law ++ after e
    /\ forallb isSpace ws1 = true /\ forallb isSpace ws2 = true
    /\ congress <> [] /\ forallb isDigit congress = true
    /\ (dash = 8211 \/ dash = 45)
    /\ law <> [] /\ forallb isDigit law = true
    /\ group 1 e = congress /\ group 2 e = law.
Proof.
  unfold Title17Notes.pubLawRe. cbn [seqs foldr]. intros He.
  apply in_seq in He as (s1 & H1 & He). apply in_lit in H1 as (A1 & E1).
  apply in_seq in He as (s2 & H2 & He).
  apply in_star_class in H2 as (ws1 & W1 & A2 & E2).
  apply in_seq in He as (s3 & H3 & He). apply in_lit in H3 as (A3 & E3).
  apply in_seq in He as (s4 & H4 & He).
  apply in_star_class in H4 as (ws2 & W2 & A4 & E4).
  apply in_seq in He as (s5 & H5 & He).
  apply in_group in H5 as (s5' & H5 & E5).
  apply in_plus_class in H5 as (congress & N5 & D5 & A5 & E5').
  apply in_seq in He as (s6 & H6 & He).
  apply in_chr in H6 as (dash & Hd & A6 & E6).
  apply in_seq in He as (s7 & H7 & He).
  apply in_group in H7 as (s7' & H7 & E7).
  apply in_plus_class in H7 as (law & N7 & D7 & A7 & E7').
  apply in_eps in He. subst e.
  assert (A5a : after s5 = after s5') by (rewrite E5; reflexivity).
  assert (A7a : after s7 = after s7') by (rewrite E7; reflexivity).
  exists ws1, ws2, congress, dash, law.
  split.
  { rewrite A1, A2, A3, A4, A5, <- A5a, A6, A7, <- A7a.
    repeat (rewrite <- app_assoc || cbn [app]). reflexivity. }
  split; [exact W1|]. split; [exact W2|]. split; [exact N5|].
  split; [exact D5|]. split.
  { apply orb_true_iff in Hd as [Hd|Hd]; apply N.eqb_eq in Hd; auto. }
  split; [exact N7|]. split; [exact D7|].
  assert (C7 : caps s7 = (2%nat, law) :: caps s6).
  { rewrite E7. unfold capture. cbn [caps]. rewrite E7'. cbn [caps advance].
    f_equal. f_equal. apply consumed_reaches. rewrite A7, E7'. reflexivity. }
  assert (C6 : caps s6 = caps s5) by (rewrite E6; reflexivity).
  assert (C5 : caps s5 = (1%nat, congress) :: caps s4).
  { rewrite E5. unfold capture. cbn [caps]. rewrite E5'. cbn [caps advance].
    f_equal. f_equal. apply consumed_reaches. rewrite A5, E5'. reflexivity. }
  unfold group. rewrite C7, C6, C5. split; reflexivity.
Qed.

Lemma pubLawRe_consuming : consuming Title17Notes.pubLawRe.
Proof. apply seq_lit_consuming. Qed.

Lemma setAdd_NoDup x seen : NoDup seen -> NoDup (Title17Notes.setAdd x seen).
Proof.
  intros H. unfold Title17Notes.setAdd. destruct (bool_decide (x ∈ seen)) eqn:E.
  - exact H.
  - apply bool_decide_eq_false in E. apply NoDup_app. split; [exact H|].
    split; [|apply NoDup_singleton].
    intros y Hy Hy'. apply list_elem_of_singleton in Hy'. subst y. contradiction.
Qed.

Lemma setAdd_elem x y seen :
  y ∈ Title17Notes.setAdd x seen <-> y = x \/ y ∈ seen.
Proof.
  unfold Title17Notes.setAdd. destruct (bool_decide (x ∈ seen)) eqn:E.
  - apply bool_decide_eq_true in E. split; [auto|]. intros [->|H]; assumption.
  - rewrite elem_of_app, list_elem_of_singleton. tauto.
Qed.

Lemma setAdd_fold {A} (key : A -> jsstring) : forall ms seen,
  NoDup seen ->
  let laws := foldl (fun seen m => Title17Notes.setAdd (key m) seen) seen ms in
  NoDup laws
  /\ forall k, k ∈ laws <-> k ∈ seen \/ exists m, m ∈ ms /\ k = key m.
Proof.
  induction ms as [|m ms IH]; intros seen Hnd; cbn [foldl].
  - split; [exact Hnd|]. intros k. split; [auto|].
    intros [H|(m & Hm & _)]; [exact H|inversion Hm].
  - destruct (IH (Title17Notes.setAdd (key m) seen) (setAdd_NoDup _ _ Hnd))
      as (Hnd' & Hiff).
    split; [exact Hnd'|]. intros k. rewrite Hiff, setAdd_elem. split.
    + intros [[->|H]|(m' & Hm' & ->)].
      * right. exists m. split; [constructor|reflexivity].
      * left. exact H.
      * right. exists m'. split; [constructor; exact Hm'|reflexivity].
    + intros [H|(m' & Hm' & ->)]; [auto|].
      apply elem_of_cons in Hm' as [->|Hm']; [auto|].
      right. exists m'. auto.
Qed.

Lemma extractPubLaws_spec s :
  exists laws,
    Title17Notes.extractPubLaws s = Some laws
    /\ NoDup laws
    /\ Forall isLawKey laws
    /\ (forall k, k ∈ laws ->
          exists congress law, k = congress ++ js "-" ++ law
                               /\ citesLaw s congress law).
Proof.
  unfold Title17Notes.extractPubLaws.
  destruct (execLoop_sound _ pubLawRe_consuming (S (length s)) [] s)
    as (ms & Hms & Hall); [lia|].
  rewrite Hms. cbn [fmap option_fmap option_map].
  destruct (setAdd_fold (fun m : mstate * mstate =>
                           group 1 m.2 ++ js "-" ++ group 2 m.2) ms [])
    as (Hnd & Hiff); [constructor|].
  eexists. split; [reflexivity|]. split; [exact Hnd|].
  assert (Hkey : forall k,
    k ∈ foldl (fun seen m => Title17Notes.setAdd
                 (group 1 m.2 ++ js "-" ++ group 2 m.2) seen) [] ms ->
    exists congress law,
      k = congress ++ js "-" ++ law
      /\ congress <> [] /\ forallb isDigit congress = true
      /\ law <> [] /\ forallb isDigit law = true
      /\ citesLaw s congress law).
  { intros k Hk. apply Hiff in Hk as [Hk|(m & Hm & ->)]; [inversion Hk|].
    pose proof (proj1 (Forall_forall _ _) Hall m Hm) as (Hin & x & Hx).
    destruct (pubLaw_sound _ _ Hin)
      as (ws1 & ws2 & c & dash & l & Ha & W1 & W2 & Nc & Dc & Hd & Nl & Dl & G1 & G2).
    exists c, l. rewrite G1, G2. split; [reflexivity|].
    repeat (split; [assumption|]).
    exists x, ws1, ws2, dash, (after m.2). rewrite Hx, Ha.
    repeat split; assumption. }
  split.
  - apply Forall_forall. intros k Hk.
    destruct (Hkey k Hk) as (c & l & -> & Nc & Dc & Nl & Dl & _).
    exists c, l. repeat split; assumption.
  - intros k Hk. destruct (Hkey k Hk) as (c & l & -> & _ & _ & _ & _ & Hc).
    exists c, l. split; [reflexivity|exact Hc].
Qed.

Lemma lawKey_head k :
  isLawKey k -> exists c rest, k = c :: rest /\ isDigit c = true.
Proof.
  intros (congress & law & -> & Hne & Hd & _).
  destruct congress as [|c congress]; [congruence|].
  simpl in Hd. apply andb_true_iff in Hd as [Hc _].
  exists c, (congress ++ js "-" ++ law). split; [reflexivity|exact Hc].
Qed.

Lemma lawKey_own k : isLawKey k -> k ∉ Title17Notes.objectPrototypeKeys.
Proof.
  intros Hk Hin. destruct (lawKey_head k Hk) as (c & rest & -> & Hc).
  unfold Title17Notes.objectPrototypeKeys in Hin.
  repeat (apply elem_of_cons in Hin as [Hin|Hin];
          [inversion Hin; subst c; discriminate|]).
  inversion Hin.
Qed.

(** ** The link resolver *)

Lemma no_match_nil {A} (l : list A) : (forall x, ~ In x l) -> l = [].
Proof. destruct l as [|x l]; [reflexivity|]. intros H. destruct (H x). left. reflexivity. Qed.

Lemma isDigit_alnum c : isDigit c = true -> isAlnum c = true.
Proof. unfold isAlnum. intros ->. apply orb_true_r. Qed.

Lemma usc_sound st e :
  In e (rmatch
          (seqs [LitI (js "/us/usc/t17/s");
                 Group 1 (Seq (Plus true (Chr isDigit))
                            (Star true (Chr (fun c => isUpper c || isLower c
                                                      || isDigit c))))]) st) ->
  isSectionId (group 1 e) = true.
Proof.
  cbn [seqs foldr]. intros He.
  apply in_seq in He as (s1 & H1 & He).
  apply in_seq in He as (s2 & H2 & He). apply in_eps in He. subst e.
  apply in_group in H2 as (s2' & H2 & E2).
  apply in_seq in H2 as (s3 & H3 & H4).
  apply in_plus_class in H3 as (d & Nd & Dd & A3 & E3).
  apply in_star_class in H4 as (a & Da & A4 & E4).
  rewrite E2. unfold group, capture. cbn [caps assoc]. rewrite Nat.eqb_refl.
  cbn [default].
  rewrite (consumed_reaches s1 s2' (d ++ a)).
  2:{ rewrite A3, A4, <- app_assoc. reflexivity. }
  destruct d as [|c d]; [congruence|]. simpl in Dd |- *.
  apply andb_true_iff in Dd as [Hc Hd]. rewrite Hc. cbn [andb].
  rewrite forallb_app. apply andb_true_iff. split; [|exact Da].
  apply forallb_forall. intros x Hx. apply isDigit_alnum.
  apply (proj1 (forallb_forall _ _) Hd x Hx).
Qed.

Lemma two_numbers_sound prefix st e :
  In e (rmatch
          (seqs [Lit prefix; Group 1 (Plus true (Chr isDigit)); Lit (js "/");
                 Group 2 (Plus true (Chr isDigit))]) st) ->
  isDigits (group 1 e) = true /\ isDigits (group 2 e) = true.
Proof.
  cbn [seqs foldr]. intros He.
  apply in_seq in He as (s1 & H1 & He). apply in_lit in H1 as (A1 & E1).
  apply in_seq in He as (s2 & H2 & He).
  apply in_group in H2 as (s2' & H2 & E2).
  apply in_plus_class in H2 as (a & Na & Da & A2 & E2').
  apply in_seq in He as (s3 & H3 & He). apply in_lit in H3 as (A3 & E3).
  apply in_seq in He as (s4 & H4 & He).
  apply in_group in H4 as (s4' & H4 & E4).
  apply in_plus_class in H4 as (b & Nb & Db & A4 & E4').
  apply in_eps in He. subst e.
  assert (C4 : caps s4 = (2%nat, b) :: caps s3).
  { rewrite E4. unfold capture. cbn [caps]. rewrite E4'. cbn [caps advance].
    f_equal. f_equal. apply consumed_reaches. rewrite A4, E4'. reflexivity. }
  assert (C3 : caps s3 = caps s2) by (rewrite E3; reflexivity).
  assert (C2 : caps s2 = (1%nat, a) :: caps s1).
  { rewrite E2. unfold capture. cbn [caps]. rewrite E2'. cbn [caps advance].
    f_equal. f_equal. apply consumed_reaches. rewrite A2, E2'. reflexivity. }
  unfold group. rewrite C4, C3, C2. cbn [assoc Nat.eqb default from_option]. unfold id.
  unfold isDigits. rewrite Da, Db.
  destruct a; [congruence|]. destruct b; [congruence|]. split; reflexivity.
Qed.

Lemma exec_bol_in r s b e :
  exec (Seq Bol r) s = Some (b, e) -> In e (rmatch r (MState [] s [])).
Proof.
  unfold exec. rewrite search_bol.
  destruct (rmatch r (MState [] s [])) as [|e' l]; [discriminate|].
  intros H. inversion H. left. reflexivity.
Qed.

(** A section number of digits and letters decodes as itself. *)
Lemma isAlnum_not c x : isAlnum c = true -> isAlnum x = false -> (c =? x) = false.
Proof.
  intros Hc Hx. apply N.eqb_neq. intros ->. congruence.
Qed.

Lemma isSectionId_alnum s : isSectionId s = true -> forallb isAlnum s = true.
Proof.
  destruct s as [|c s]; [discriminate|]. simpl. intros H.
  apply andb_true_iff in H as [Hc Hs]. rewrite (isDigit_alnum c Hc). exact Hs.
Qed.

Lemma defAnchorRe_alnum s :
  forallb isAlnum s = true -> exec Title17.defAnchorRe s = None.
Proof.
  intros Hs. unfold exec, Title17.defAnchorRe. cbn [seqs foldr].
  rewrite search_bol.
  rewrite (no_match_nil (rmatch _ _)); [reflexivity|].
  intros e He. apply in_seq in He as (s1 & H1 & He).
  apply in_seq in He as (s2 & H2 & _).
  apply in_lit in H2 as (A2 & _).
  destruct (rmatch_reaches _ _ _ H1) as (l & Hl & _). cbn [after] in Hl.
  rewrite Hl, A2, !forallb_app in Hs. apply andb_true_iff in Hs as [_ Hs].
  apply andb_true_iff in Hs as [Hs _]. discriminate.
Qed.

Lemma sectionId_roundtrip s :
  isSectionId s = true ->
  Title17.parseHash (Title17.viewToHash (Title17.SectionV s None))
    = Title17.SectionV s None.
Proof.
  intros Hs. apply isSectionId_alnum in Hs.
  unfold Title17.viewToHash. rewrite parseHash_section.
  rewrite (defAnchorRe_alnum s Hs). rewrite indexOf_absent; [reflexivity|].
  apply forallb_forall. intros c Hc. apply negb_true_iff.
  apply (isAlnum_not c 40); [|reflexivity].
  apply (proj1 (forallb_forall _ _) Hs c Hc).
Qed.

Lemma handleUslmClick_cases a :
  match Title17Notes.handleUslmClick a with
  | Title17Notes.Ignored =>
      forall href, a = Some (Some href) -> startsWith (js "/us/") href = false
  | Title17Notes.Navigate v =>
      exists s, v = Title17.SectionV s None /\ isSectionId s = true
  | Title17Notes.OpenWindow url =>
      exists x y,
        isDigits x = true /\ isDigits y = true
        /\ (url = js "https://www.govinfo.gov/link/plaw/" ++ x
                    ++ js "/public/" ++ y
            \/ url = js "https://www.govinfo.gov/link/statute/" ++ x
                       ++ js "/" ++ y)
  | Title17Notes.Prevented =>
      exists href, a = Some (Some href) /\ startsWith (js "/us/") href = true
  end.
Proof.
  unfold Title17Notes.handleUslmClick.
  destruct a as [[href|]|]; try (intros h; discriminate).
  destruct (truthy href) eqn:Ht; cbn [negb orb].
  2:{ intros h Hh. inversion Hh; subst h. destruct href; [reflexivity|discriminate]. }
  destruct (startsWith (js "/us/") href) eqn:Hs; cbn [negb].
  2:{ intros h Hh. inversion Hh; subst h. exact Hs. }
  destruct (exec Title17Notes.uscRe href) as [[b e]|] eqn:E1.
  { exists (group 1 e). split; [reflexivity|].
    apply exec_bol_in in E1. apply (usc_sound _ _ E1). }
  destruct (exec Title17Notes.plRe href) as [[b e]|] eqn:E2.
  { apply exec_bol_in in E2.
    destruct (two_numbers_sound _ _ _ E2) as [H1 H2].
    exists (group 1 e), (group 2 e). auto. }
  destruct (exec Title17Notes.statRe href) as [[b e]|] eqn:E3.
  { apply exec_bol_in in E3.
    destruct (two_numbers_sound _ _ _ E3) as [H1 H2].
    exists (group 1 e), (group 2 e). auto. }
  exists href. auto.
Qed.

(** ** The notes panel *)

Lemma noteStep_fold : forall notes rendered pending,
  foldl Title17Notes.noteStep (rendered, pending) notes
    = (rendered ++ (foldl Title17Notes.noteStep ([], pending) notes).1,
       (foldl Title17Notes.noteStep ([], pending) notes).2).
Proof.
  induction notes as [|n notes IH]; intros rendered pending.
  - simpl. rewrite app_nil_r. reflexivity.
  - cbn [foldl]. unfold Title17Notes.noteStep at 2 4 6.
    destruct (negb (truthy (Title17Notes.html n))).
    + apply IH.
    + rewrite IH. cbn [app].
      rewrite (IH [_] (Title17Notes.Text [])). cbn [fst snd].
      rewrite <- app_assoc. reflexivity.
Qed.

Lemma noteStep_bodies : forall notes pending,
  map Title17Notes.itemHtml (foldl Title17Notes.noteStep ([], pending) notes).1
    = List.filter truthy (map Title17Notes.html notes).
Proof.
  induction notes as [|n notes IH]; intros pending; [reflexivity|].
  cbn [foldl map List.filter]. unfold Title17Notes.noteStep at 2.
  destruct (truthy (Title17Notes.html n)) eqn:E; cbn [negb].
  - rewrite noteStep_fold. cbn [fst app]. cbn [map Title17Notes.itemHtml].
    rewrite IH. reflexivity.
  - apply IH.
Qed.

Lemma filter_truthy_idem l :
  List.filter truthy (List.filter truthy l) = List.filter truthy l.
Proof.
  induction l as [|x l IH]; [reflexivity|]. simpl.
  destruct (truthy x) eqn:E; [|exact IH]. simpl. rewrite E, IH. reflexivity.
Qed.

Lemma renderedNotes_bodies notes :
  List.filter truthy (map Title17Notes.itemHtml (Title17Notes.renderedNotes notes))
    = List.filter truthy (map Title17Notes.html notes).
Proof.
  unfold Title17Notes.renderedNotes.
  pose proof (noteStep_bodies notes (Title17Notes.Text [])) as H.
  destruct (foldl Title17Notes.noteStep ([], Title17Notes.Text []) notes)
    as [rendered pending].
  cbn [fst] in H.
  destruct (Title17Notes.truthyHeading pending).
  - rewrite map_app, List.filter_app. cbn [map Title17Notes.itemHtml List.filter truthy].
    rewrite app_nil_r, H. apply filter_truthy_idem.
  - rewrite H. apply filter_truthy_idem.
Qed.

(** A note without a body heads the note that follows it. *)
Lemma renderedNotes_group pre h n post :
  Title17Notes.html h = [] ->
  Title17Notes.truthyHeading (Title17Notes.headingOf h) = true ->
  Title17Notes.html n <> [] ->
  Title17Notes.renderedNotes (pre ++ h :: n :: post)
    = (foldl Title17Notes.noteStep ([], Title17Notes.Text []) pre).1
      ++ {| Title17Notes.itemHeading := Title17Notes.headingOf h;
            Title17Notes.isHeader := true;
            Title17Notes.itemHtml := Title17Notes.html n |}
      :: Title17Notes.renderedNotes post.
Proof.
  intros Hh Hhead Hn. unfold Title17Notes.renderedNotes.
  rewrite foldl_app. cbn [foldl].
  destruct (foldl Title17Notes.noteStep ([], Title17Notes.Text []) pre)
    as [r0 p0].
  unfold Title17Notes.noteStep at 3. rewrite Hh. cbn [truthy negb].
  unfold Title17Notes.noteStep at 2.
  destruct (Title17Notes.html n) as [|c body] eqn:En; [congruence|].
  cbn [truthy negb]. rewrite Hhead.
  rewrite noteStep_fold. cbn [fst].
  destruct (foldl Title17Notes.noteStep ([], Title17Notes.Text []) post)
    as [r1 p1].
  cbn [fst snd].
  destruct (Title17Notes.truthyHeading p1); rewrite <- ?app_assoc; reflexivity.
Qed.

(** ** Previous and next section *)

Lemma findIndex_unique {A} (key : A -> jsstring) : forall l i x,
  NoDup (map key l) -> l !! i = Some x ->
  findIndex (fun y => bool_decide (key y = key x)) l = Some i.
Proof.
  induction l as [|y l IH]; intros i x Hnd Hi; [destruct i; discriminate|].
  cbn [map] in Hnd. apply NoDup_cons in Hnd as [Hy Hnd].
  destruct i as [|i]; simpl in Hi.
  - inversion Hi; subst y. simpl. rewrite bool_decide_eq_true_2 by reflexivity.
    reflexivity.
  - simpl. rewrite bool_decide_eq_false_2.
    + rewrite (IH i x Hnd Hi). reflexivity.
    + intros E. apply Hy. rewrite E. rewrite map_fmap.
      apply list_elem_of_fmap. exists x. split; [reflexivity|].
      eapply list_elem_of_lookup_2, Hi.
Qed.

Lemma sectionIndex_unique all i s :
  NoDup (map TocSection.number all) -> all !! i = Some s ->
  Title17Nav.sectionIndex all (TocSection.number s) = Z.of_nat i.
Proof.
  intros Hnd Hi. unfold Title17Nav.sectionIndex.
  rewrite (findIndex_unique TocSection.number all i s Hnd Hi). reflexivity.
Qed.

Lemma sectionIndex_unknown all num :
  (forall s, s ∈ all -> TocSection.number s <> num) ->
  Title17Nav.sectionIndex all num = (-1)%Z.
Proof.
  intros H. unfold Title17Nav.sectionIndex. rewrite findIndex_none; [reflexivity|].
  intros x Hx. apply bool_decide_eq_false, H, Hx.
Qed.

Lemma nav_unknown all num :
  (forall s, s ∈ all -> TocSection.number s <> num) ->
  Title17Nav.prevSection all num = None
  /\ Title17Nav.nextSection all num = head all.
Proof.
  intros H. unfold Title17Nav.prevSection, Title17Nav.nextSection.
  rewrite (sectionIndex_unknown all num H). cbv zeta. split; [reflexivity|].
  destruct all as [|s all]; [reflexivity|].
  replace (-1 <? Z.of_nat (length (s :: all)) - 1)%Z with true
    by (symmetry; apply Z.ltb_lt; simpl; lia).
  reflexivity.
Qed.

Lemma nav_neighbours all i s t :
  NoDup (map TocSection.number all) ->
  all !! i = Some s -> all !! S i = Some t ->
  Title17Nav.nextSection all (TocSection.number s) = Some t
  /\ Title17Nav.prevSection all (TocSection.number t) = Some s.
Proof.
  intros Hnd Hs Ht. unfold Title17Nav.prevSection, Title17Nav.nextSection.
  rewrite (sectionIndex_unique all i s Hnd Hs).
  rewrite (sectionIndex_unique all (S i) t Hnd Ht). cbv zeta.
  pose proof (lookup_lt_Some _ _ _ Ht) as Hlen.
  replace (Z.of_nat i <? Z.of_nat (length all) - 1)%Z with true
    by (symmetry; apply Z.ltb_lt; lia).
  replace (0 <? Z.of_nat (S i))%Z with true by (symmetry; apply Z.ltb_lt; lia).
  replace (Z.to_nat (Z.of_nat i + 1)) with (S i) by lia.
  replace (Z.to_nat (Z.of_nat (S i) - 1)) with i by lia.
  split; assumption.
Qed.

Lemma nav_ends all s :
  NoDup (map TocSection.number all) ->
  (head all = Some s -> Title17Nav.prevSection all (TocSection.number s) = None)
  /\ (last all = Some s -> Title17Nav.nextSection all (TocSection.number s) = None).
Proof.
  intros Hnd. split; intros H.
  - unfold Title17Nav.prevSection.
    rewrite (sectionIndex_unique all 0 s Hnd); [reflexivity|].
    destruct all; [discriminate|exact H].
  - unfold Title17Nav.nextSection.
    rewrite last_lookup in H.
    rewrite (sectionIndex_unique all _ s Hnd H). cbv zeta.
    replace (Z.of_nat (Init.Nat.pred (length all)) <? Z.of_nat (length all) - 1)%Z
      with false; [reflexivity|].
    symmetry. apply Z.ltb_ge. lia.
Qed.

(** ** Open chapters *)

(** ** The search of the multi-title sidebar *)

Lemma searchSections_spec q title : forall secs results,
  (length results < 60)%nat ->
  USCodeNav.searchSections q title secs results
    = (take 60 (results ++ sectionHits q title secs),
       (60 <=? length (results ++ sectionHits q title secs))%nat).
Proof.
  induction secs as [|sec secs IH]; intros results Hlen.
  - cbn [USCodeNav.searchSections sectionHits List.filter map].
    rewrite app_nil_r, take_ge by lia.
    replace (60 <=? length results)%nat with false
      by (symmetry; apply Nat.leb_gt; lia).
    reflexivity.
  - cbn [USCodeNav.searchSections]. unfold sectionHits. cbn [List.filter].
    destruct (USCodeNav.hit q title sec) eqn:Hhit.
    + cbn [map]. fold (resultOf title sec). fold (sectionHits q title secs).
      destruct (60 <=? length (results ++ [resultOf title sec]))%nat eqn:E.
      * apply Nat.leb_le in E. rewrite length_app in E. simpl in E.
        assert (Hl : length (results ++ [resultOf title sec]) = 60%nat)
          by (rewrite length_app; simpl; lia).
        replace (results ++ resultOf title sec :: sectionHits q title secs)
          with ((results ++ [resultOf title sec]) ++ sectionHits q title secs)
          by (rewrite <- app_assoc; reflexivity).
        rewrite <- Hl at 1. rewrite take_app_length.
        replace (60 <=? _)%nat with true; [reflexivity|].
        symmetry. apply Nat.leb_le. rewrite length_app. lia.
      * apply Nat.leb_gt in E. rewrite IH by exact E.
        rewrite <- app_assoc. reflexivity.
    + fold (sectionHits q title secs). apply IH, Hlen.
Qed.

Lemma searchChapters_spec q title : forall chs results,
  (length results < 60)%nat ->
  USCodeNav.searchChapters q title chs results
    = (take 60 (results ++ chapterHits q title chs),
       (60 <=? length (results ++ chapterHits q title chs))%nat).
Proof.
  induction chs as [|ch chs IH]; intros results Hlen.
  - cbn [USCodeNav.searchChapters chapterHits flat_map].
    rewrite app_nil_r, take_ge by lia.
    replace (60 <=? length results)%nat with false
      by (symmetry; apply Nat.leb_gt; lia).
    reflexivity.
  - cbn [USCodeNav.searchChapters chapterHits flat_map].
    fold (chapterHits q title chs).
    rewrite searchSections_spec by exact Hlen.
    set (r := results ++ sectionHits q title (TocChapter.sections ch)).
    replace (results ++ sectionHits q title (TocChapter.sections ch)
               ++ chapterHits q title chs)
      with (r ++ chapterHits q title chs)
      by (unfold r; rewrite <- app_assoc; reflexivity).
    destruct (60 <=? length r)%nat eqn:E.
    + apply Nat.leb_le in E. rewrite take_app_le by exact E.
      replace (60 <=? length (r ++ chapterHits q title chs))%nat with true;
        [reflexivity|].
      symmetry. apply Nat.leb_le. rewrite length_app. lia.
    + apply Nat.leb_gt in E. rewrite (take_ge r) by lia. apply IH, E.
Qed.

Lemma searchTitles_spec q : forall titles results,
  (length results < 60)%nat ->
  USCodeNav.searchTitles q titles results
    = take 60 (results ++ allHits q titles).
Proof.
  induction titles as [|title titles IH]; intros results Hlen.
  - cbn [USCodeNav.searchTitles allHits flat_map].
    rewrite app_nil_r, take_ge by lia. reflexivity.
  - cbn [USCodeNav.searchTitles allHits flat_map].
    fold (allHits q titles).
    rewrite searchChapters_spec by exact Hlen.
    set (r := results ++ chapterHits q title (TocTitle.chapters title)).
    replace (results ++ chapterHits q title (TocTitle.chapters title)
               ++ allHits q titles)
      with (r ++ allHits q titles)
      by (unfold r; rewrite <- app_assoc; reflexivity).
    destruct (60 <=? length r)%nat eqn:E.
    + apply Nat.leb_le in E. rewrite take_app_le by exact E. reflexivity.
    + apply Nat.leb_gt in E. rewrite (take_ge r) by lia. apply IH, E.
Qed.

(** ** Highlighting the query in a heading *)

Lemma canon_lower c1 c2 :
  canonicalize c1 = canonicalize c2 -> toLowerChar c1 = toLowerChar c2.
Proof.
  unfold toLowerChar, canonicalize, isUpper, isLower, inRange.
  repeat match goal with
  | |- context [N.leb ?a ?b] => destruct (N.leb_spec a b)
  end; simpl; lia.
Qed.

Lemma in_litI_lower l : forall st e,
  In e (rmatch (LitI l) st) ->
  exists x, after st = x ++ after e /\ toLowerCase x = toLowerCase l /\ (l <> [] -> x <> []).
Proof.
  induction l as [|y l IH]; intros st e He.
  - destruct He as [<-|[]]. exists []. repeat split. congruence.
  - change (LitI (y :: l)) with (Seq (Chr (isCharI y)) (LitI l)) in He.
    apply in_seq in He as (st' & Hst' & He).
    apply in_chr in Hst' as (c & Hc & Ha & _).
    destruct (IH st' e He) as (x & Ha' & Hlow & _).
    exists (c :: x). split; [rewrite Ha, Ha'; reflexivity|]. split.
    + simpl. rewrite Hlow. f_equal. apply canon_lower.
      unfold isCharI in Hc. apply N.eqb_eq in Hc. exact Hc.
    + discriminate.
Qed.

(** The pieces of a split by a pattern that is one capture group:
    text, match, text, ..., text, and no code unit is lost. *)
Lemma splitLoop_group X (P : jsstring -> Prop) :
  (forall st e, In e (rmatch X st) -> P (consumed st e)) ->
  forall fuel bef aft,
  exists texts matches,
    splitLoop fuel (Group 1 X) bef aft = alternate texts matches
    /\ length texts = S (length matches)
    /\ weave texts matches = aft
    /\ Forall P matches.
Proof.
  intros HX. induction fuel as [|fuel IH]; intros bef aft.
  - exists [aft], []. cbn. rewrite app_nil_r. repeat split; constructor.
  - cbn [splitLoop]. destruct (search (Group 1 X) bef aft) as [[b e]|] eqn:E.
    + destruct (search_some _ _ _ _ _ E) as (sk & Hsk & Hb & (others & Hm) & _).
      assert (Hin : In e (rmatch (Group 1 X) b)) by (rewrite Hm; left; reflexivity).
      apply in_group in Hin as (e0 & He0 & He).
      destruct (IH (before e) (after e)) as (texts & ms & Hs & Hl & Hw & Hall).
      destruct (rmatch_reaches _ _ _ He0) as (l & Hl0 & _).
      assert (Hc : consumed b e0 = l) by (apply consumed_reaches; exact Hl0).
      exists (sk :: texts), (l :: ms). split; [|split; [|split]].
      * rewrite Hs. cbn [alternate]. f_equal.
        -- rewrite Hsk at 1 2. rewrite length_app.
           replace (length sk + length (after b) - length (after b))%nat
             with (length sk) by lia.
           apply take_app_length.
        -- f_equal. rewrite He. unfold group, capture. cbn [caps assoc].
           rewrite Nat.eqb_refl. exact Hc.
      * simpl. rewrite Hl. reflexivity.
      * cbn [weave]. rewrite Hw, Hsk, Hl0, He. cbn [capture after].
        rewrite <- ?app_assoc. reflexivity.
      * constructor; [|exact Hall]. rewrite <- Hc. apply HX, He0.
    + exists [aft], []. cbn. rewrite app_nil_r. repeat split; constructor.
Qed.

Lemma alternate_matches texts : forall ms m,
  length texts = S (length ms) -> m ∈ ms -> m ∈ alternate texts ms.
Proof.
  induction texts as [|t texts IH]; intros ms m Hl Hm; [discriminate|].
  destruct ms as [|x ms]; [inversion Hm|].
  cbn [alternate]. apply elem_of_cons in Hm as [->|Hm].
  - constructor. constructor.
  - constructor. constructor. apply IH; [simpl in Hl; lia|exact Hm].
Qed.

Lemma highlightText_pieces text query :
  query <> [] ->
  exists texts matches,
    map snd (Title17Nav.highlightText text query) = alternate texts matches
    /\ length texts = S (length matches)
    /\ weave texts matches = text
    /\ Forall (fun m => (true, m) ∈ Title17Nav.highlightText text query) matches.
Proof.
  intros Hq. unfold Title17Nav.highlightText.
  destruct query as [|c q]; [congruence|]. cbn [truthy negb].
  destruct (splitLoop_group (LitI (c :: q))
              (fun m => toLowerCase m = toLowerCase (c :: q))
              ltac:(intros st e He;
                    destruct (in_litI_lower _ _ _ He) as (x & Ha & Hlow & _);
                    rewrite (consumed_reaches st e x Ha); exact Hlow)
              (S (length text)) [] text)
    as (texts & ms & Hs & Hl & Hw & Hall).
  exists texts, ms. unfold split. rewrite Hs.
  split; [|split; [exact Hl|split; [exact Hw|]]].
  - rewrite map_map. cbn [snd]. apply map_id.
  - apply Forall_forall. intros m Hm.
    pose proof (proj1 (Forall_forall _ _) Hall m Hm) as Hlow.
    rewrite map_fmap. apply list_elem_of_fmap. exists m.
    split; [|apply alternate_matches; assumption].
    rewrite bool_decide_eq_true_2 by exact Hlow. reflexivity.
Qed.

Lemma weave_concat texts : forall ms,
  length texts = S (length ms) -> concat (alternate texts ms) = weave texts ms.
Proof.
  induction texts as [|t texts IH]; intros ms Hl; [discriminate|].
  destruct ms as [|m ms].
  - destruct texts; [|discriminate]. simpl. reflexivity.
  - cbn [alternate concat weave]. rewrite IH by (simpl in Hl; lia). reflexivity.
Qed.

Lemma highlightText_whole text query :
  concat (map snd (Title17Nav.highlightText text query)) = text.
Proof.
  destruct query as [|c q].
  - simpl. apply app_nil_r.
  - destruct (highlightText_pieces text (c :: q)) as (texts & ms & Hs & Hl & Hw & _);
      [discriminate|].
    rewrite Hs, weave_concat by exact Hl. exact Hw.
Qed.

(** ** A lazy run before the rest of a pattern *)

Lemma lazy_skip p n K st0 : forall run pre tail,
  after st0 = pre ++ run ++ tail -> forallb p run = true ->
  (forall s1 c s2, run = s1 ++ c :: s2 ->
     rmatch K (capture n st0 (advance (pre ++ s1) (c :: s2 ++ tail) st0)) = []) ->
  flat_map (rmatch K)
    (map (capture n st0)
       (rmatch (Star false (Chr p)) (advance pre (run ++ tail) st0)))
  = flat_map (rmatch K)
      (map (capture n st0)
         (rmatch (Star false (Chr p)) (advance (pre ++ run) tail st0))).
Proof.
  induction run as [|c run IH]; intros pre tail Ha Hrun Hno.
  - rewrite app_nil_r. reflexivity.
  - simpl in Hrun. apply andb_true_iff in Hrun as [Hc Hrun].
    rewrite (rmatch_star_hit p false c (run ++ tail)); [|reflexivity|exact Hc].
    cbn [map flat_map].
    pose proof (Hno [] c run eq_refl) as H0. rewrite app_nil_r in H0.
    cbn [app] in H0 |- *. rewrite H0. cbn [app].
    rewrite advance_advance.
    replace (pre ++ c :: run) with ((pre ++ [c]) ++ run)
      by (rewrite <- app_assoc; reflexivity).
    apply IH.
    + rewrite Ha, <- app_assoc. reflexivity.
    + exact Hrun.
    + intros s1 c' s2 Hs. rewrite <- app_assoc. cbn [app].
      apply (Hno (c :: s1) c' s2). rewrite Hs. reflexivity.
Qed.

Lemma lazy_head p n K st0 run tail :
  after st0 = run ++ tail -> forallb p run = true ->
  (forall s1 c s2, run = s1 ++ c :: s2 ->
     rmatch K (capture n st0 (advance s1 (c :: s2 ++ tail) st0)) = []) ->
  rmatch K (capture n st0 (advance run tail st0)) <> [] ->
  head (rmatch (Seq (Group n (Star false (Chr p))) K) st0)
    = head (rmatch K (capture n st0 (advance run tail st0))).
Proof.
  intros Ha Hrun Hno Hyes. rewrite rmatch_seq, rmatch_group.
  pose proof (lazy_skip p n K st0 run [] tail Ha Hrun Hno) as Hskip.
  cbn [app] in Hskip. rewrite <- Ha, advance_nil in Hskip. rewrite Hskip.
  destruct tail as [|c tail].
  - rewrite rmatch_star_stop by exact I. cbn [map flat_map].
    rewrite app_nil_r. reflexivity.
  - destruct (p c) eqn:Hc.
    + rewrite (rmatch_star_hit p false c tail); [|reflexivity|exact Hc].
      cbn [map flat_map].
      destruct (rmatch K (capture n st0 (advance run (c :: tail) st0)));
        [congruence|reflexivity].
    + rewrite rmatch_star_stop by exact Hc. cbn [map flat_map].
      rewrite app_nil_r. reflexivity.
Qed.

Lemma group_lit_app n l rest st K :
  after st = l ++ rest ->
  rmatch (Seq (Group n (Lit l)) K) st = rmatch K (captured n l rest st).
Proof.
  intros Ha. rewrite rmatch_seq, rmatch_group, rmatch_lit, Ha.
  rewrite (startsWith_complete l _ rest eq_refl), (drop_app_length l).
  cbn [map]. rewrite capture_advance by exact Ha. apply flat_map_singleton.
Qed.

Lemma group_lit_miss n l st K :
  startsWith l (after st) = false -> rmatch (Seq (Group n (Lit l)) K) st = [].
Proof.
  intros H. rewrite rmatch_seq, rmatch_group, rmatch_lit, H. reflexivity.
Qed.

(** ** The designator span of the multi-title viewer *)

Lemma first_close token rest :
  indexOfStr spanClose (token ++ spanClose ++ rest) = Some (length token) ->
  forall s1 c s2, token = s1 ++ c :: s2 ->
    startsWith spanClose (c :: s2 ++ spanClose ++ rest) = false.
Proof.
  intros H s1 c s2 Ht.
  destruct (indexOfStr_some _ _ _ H) as (pre & post & Hs & Hlen & Hfirst).
  assert (Hpre : pre = token).
  { apply (f_equal (take (length token))) in Hs.
    rewrite take_app_length in Hs. rewrite <- Hlen, take_app_length in Hs.
    symmetry. exact Hs. }
  subst pre. apply app_inv_head in Hs. apply app_inv_head in Hs. subst post.
  apply (Hfirst s1 c s2 Ht).
Qed.

Lemma closeAndRest_hit s rest :
  after s = spanClose ++ rest ->
  rmatch closeAndRest s
    = [captured 4 rest [] (captured 3 spanClose rest s)].
Proof.
  intros Ha. unfold closeAndRest. cbn [seqs foldr].
  rewrite (group_lit_app 3 spanClose rest) by exact Ha.
  destruct (star_run anyChar rest [] (captured 3 spanClose rest s))
    as (others & Ho & Hall).
  { apply forallb_anyChar. }
  { exact I. }
  { cbn [captured after]. rewrite app_nil_r. reflexivity. }
  apply (group_eol 4 _ rest _ others); [reflexivity|exact Ho|].
  eapply ahead_nonempty, Hall.
Qed.

Lemma closeAndRest_miss s :
  startsWith spanClose (after s) = false -> rmatch closeAndRest s = [].
Proof.
  intros H. unfold closeAndRest. cbn [seqs foldr].
  apply group_lit_miss, H.
Qed.

Lemma uscode_split_hit html token rest :
  beginsWithSpan html token rest ->
  USCodeDefs.splitBlockHtml html
    = Some {| USCodeDefs.numText := token; USCodeDefs.restHtml := rest |}.
Proof.
  intros (Hs & Hdot & Hfirst).
  unfold USCodeDefs.splitBlockHtml, exec, USCodeDefs.splitBlockHtmlRe.
  cbn [seqs foldr]. rewrite search_bol.
  set (st0 := MState [] html []).
  set (s1 := captured 1 spanNumOpen (token ++ spanClose ++ rest) st0).
  assert (H1 : rmatch (Seq (Group 1 (Lit spanNumOpen))
                         (Seq (Group 2 (Star false (Chr dot))) closeAndRest)) st0
               = rmatch (Seq (Group 2 (Star false (Chr dot))) closeAndRest) s1).
  { apply group_lit_app. exact Hs. }
  change (Seq (Group 3 (Lit spanClose))
            (Seq (Group 4 (Star true (Chr anyChar))) (Seq Eol Eps)))
    with closeAndRest.
  rewrite H1.
  pose proof (lazy_head dot 2 closeAndRest s1 token (spanClose ++ rest)) as Hh.
  rewrite capture_advance in Hh by reflexivity.
  rewrite (closeAndRest_hit _ rest) in Hh by reflexivity.
  specialize (Hh eq_refl Hdot).
  assert (Hhead : head (rmatch (Seq (Group 2 (Star false (Chr dot))) closeAndRest) s1)
    = Some (captured 4 rest []
              (captured 3 spanClose rest
                 (captured 2 token (spanClose ++ rest) s1)))).
  { apply Hh; [|discriminate].
    intros s1' c s2 Ht. apply closeAndRest_miss. cbn [capture advance after].
    apply (first_close token rest Hfirst s1' c s2 Ht). }
  destruct (rmatch (Seq (Group 2 (Star false (Chr dot))) closeAndRest) s1)
    as [|e l]; [discriminate|].
  cbn [head] in Hhead. apply (inj Some) in Hhead. subst e. reflexivity.
Qed.

Lemma uscode_split_sound html sp :
  USCodeDefs.splitBlockHtml html = Some sp ->
  beginsWithSpan html (USCodeDefs.numText sp) (USCodeDefs.restHtml sp).
Proof.
  intros H.
  assert (Hshape : exists u r, html = spanNumOpen ++ u ++ spanClose ++ r
                               /\ forallb dot u = true).
  { unfold USCodeDefs.splitBlockHtml in H.
    destruct (exec USCodeDefs.splitBlockHtmlRe html) as [[b e]|] eqn:E;
      [|discriminate].
    unfold USCodeDefs.splitBlockHtmlRe in E. cbn [seqs foldr] in E.
    apply exec_bol_in in E.
    apply in_seq in E as (s1 & H1 & E).
    apply in_group in H1 as (s1' & H1 & E1). apply in_lit in H1 as (A1 & _).
    apply in_seq in E as (s2 & H2 & E).
    apply in_group in H2 as (s2' & H2 & E2).
    apply in_star_class in H2 as (u & Du & A2 & _).
    apply in_seq in E as (s3 & H3 & E).
    apply in_group in H3 as (s3' & H3 & E3). apply in_lit in H3 as (A3 & _).
    exists u, (after s3'). split; [|exact Du].
    cbn [after] in A1. rewrite A1.
    replace (after s1') with (after s1) by (rewrite E1; reflexivity).
    rewrite A2.
    replace (after s2') with (after s2) by (rewrite E2; reflexivity).
    rewrite A3. reflexivity. }
  destruct Hshape as (u & r & Hs & Du).
  destruct (indexOfStr_occurs spanClose u r) as [k Hk].
  destruct (indexOfStr_some _ _ _ Hk) as (pre & post & Heq & Hlen & Hfirst).
  assert (Hle : (length pre <= length u)%nat).
  { apply (first_is_leftmost spanClose pre post u r Hfirst). symmetry. exact Heq. }
  assert (Hpre : pre = take (length pre) u).
  { apply (f_equal (take (length pre))) in Heq.
    rewrite take_app_le in Heq by exact Hle.
    rewrite take_app_length in Heq. symmetry. exact Heq. }
  assert (Hb : beginsWithSpan html pre post).
  { split; [rewrite Hs, Heq; reflexivity|]. split.
    - rewrite <- (take_drop (length pre) u), forallb_app in Du.
      apply andb_true_iff in Du as [Du _]. rewrite Hpre. exact Du.
    - rewrite <- Heq, Hk, Hlen. reflexivity. }
  rewrite (uscode_split_hit html pre post Hb) in H. inversion H; subst sp.
  exact Hb.
Qed.

Lemma numSpan_token html token rest :
  beginsWithSpan html token rest ->
  exists b e, exec USCode.numSpanRe html = Some (b, e) /\ group 1 e = token.
Proof.
  intros (Hs & Hdot & Hfirst). unfold exec, USCode.numSpanRe.
  cbn [seqs foldr].
  set (st0 := MState [] html []).
  assert (H1 : rmatch (Seq (Lit spanNumOpen)
                         (Seq (Group 1 (Star false (Chr dot)))
                            (Seq (Lit spanClose) Eps))) st0
               = rmatch (Seq (Group 1 (Star false (Chr dot)))
                           (Seq (Lit spanClose) Eps))
                   (advance spanNumOpen (token ++ spanClose ++ rest) st0)).
  { apply rmatch_lit_app. exact Hs. }
  set (s1 := advance spanNumOpen (token ++ spanClose ++ rest) st0) in *.
  pose proof (lazy_head dot 1 (Seq (Lit spanClose) Eps) s1 token
                (spanClose ++ rest) eq_refl Hdot) as Hh.
  rewrite capture_advance in Hh by reflexivity.
  rewrite (rmatch_lit_app spanClose rest) in Hh by reflexivity.
  assert (Hhead : head (rmatch (Seq (Group 1 (Star false (Chr dot)))
                                  (Seq (Lit spanClose) Eps)) s1)
    = Some (advance spanClose rest (captured 1 token (spanClose ++ rest) s1))).
  { apply Hh; [|discriminate].
    intros s1' c s2 Ht. apply rmatch_lit_miss. cbn [capture advance after].
    apply startsWith_false. apply (first_close token rest Hfirst s1' c s2 Ht). }
  destruct (rmatch (Seq (Group 1 (Star false (Chr dot)))
                      (Seq (Lit spanClose) Eps)) s1) as [|e l] eqn:E;
    [discriminate|].
  cbn [head] in Hhead. apply (inj Some) in Hhead. subst e.
  eexists _, _. split.
  - apply (search_here _ _ _ _ l). exact H1.
  - reflexivity.
Qed.

(** ** What the paragraph tools show *)

Lemma joinSlots_app a b :
  USCode.joinSlots (a ++ b) = USCode.joinSlots a ++ USCode.joinSlots b.
Proof. unfold USCode.joinSlots. rewrite map_app, concat_app. reflexivity. Qed.

(** Every entry of the multi-title builder was made for the block of
    its index, and its path ends with the token of that block. *)
Lemma usc_forEach_entry sec : forall l i acc m stack,
  forEach (USCode.visit sec) i l acc = USCode.Returns (m, stack) ->
  forall j meta, m !! j = Some meta ->
    (exists m0 s0, acc = USCode.Returns (m0, s0) /\ m0 !! j = Some meta)
    \/ (exists k b e0 e,
          j = (i + k)%nat /\ l !! k = Some b
          /\ isStructural (type b) = true
          /\ exec USCode.numSpanRe (html b) = Some (e0, e)
          /\ ((indent b <= USCode.maxArrayLength)%Z ->
              exists prefix, path meta = prefix ++ group 1 e)).
Proof.
  induction l as [|b l IH]; intros i acc m stack Hrun j meta Hj.
  - left. simpl in Hrun. eauto.
  - simpl in Hrun.
    destruct (IH _ _ _ _ Hrun j meta Hj)
      as [(m1 & s1 & Hstep & Hm1)|(k & b' & e0 & e & -> & Hk & Hrest)].
    2:{ right. exists (S k), b', e0, e. split; [lia|]. split; [exact Hk|exact Hrest]. }
    unfold USCode.visit in Hstep.
    destruct acc as [[m0 stack0]|]; [|discriminate].
    destruct (isStructural (type b)) eqn:Hty; cbn [negb] in Hstep.
    2:{ left. inversion Hstep; subst. eauto. }
    destruct (exec USCode.numSpanRe (html b)) as [[e0 e]|] eqn:He.
    2:{ left. inversion Hstep; subst. eauto. }
    cbv zeta in Hstep.
    destruct ((indent b - 1 <? 0)%Z || (USCode.maxArrayLength <? indent b - 1)%Z)
      eqn:Hrange; [discriminate|].
    apply orb_false_iff in Hrange as [Hlo Hhi].
    apply Z.ltb_ge in Hlo, Hhi.
    inversion Hstep; subst m1 s1. clear Hstep.
    destruct (decide (j = i)) as [->|Hne].
    + rewrite lookup_insert_eq in Hm1. inversion Hm1; subst meta. clear Hm1.
      right. exists 0%nat, b, e0, e. split; [lia|]. split; [reflexivity|].
      split; [exact Hty|]. split; [exact He|].
      intros Hmax. cbn [path].
      replace (indent b - 1 =? USCode.maxArrayLength)%Z with false
        by (symmetry; apply Z.eqb_neq; lia).
      exists (USCode.joinSlots (resize (Z.to_nat (indent b - 1)) None stack0)).
      rewrite take_ge.
      * rewrite joinSlots_app. unfold USCode.joinSlots at 2. simpl.
        rewrite app_nil_r. reflexivity.
      * rewrite length_app, length_resize. simpl. lia.
    + rewrite lookup_insert_ne in Hm1 by congruence. left. eauto.
Qed.

Lemma usc_entry blocks sec m i meta :
  USCode.buildParaMetaMap blocks sec = USCode.Returns m ->
  m !! i = Some meta ->
  exists b e0 e,
    blocks !! i = Some b /\ isStructural (type b) = true
    /\ exec USCode.numSpanRe (html b) = Some (e0, e)
    /\ ((indent b <= USCode.maxArrayLength)%Z ->
        exists prefix, path meta = prefix ++ group 1 e).
Proof.
  unfold USCode.buildParaMetaMap. intros Hb Hi.
  destruct (forEach (USCode.visit sec) 0 blocks (USCode.Returns (∅, [])))
    as [[m0 stack0]|] eqn:E; [|discriminate].
  inversion Hb; subst m0.
  destruct (usc_forEach_entry sec blocks 0 _ m stack0 E i meta Hi)
    as [(m1 & s1 & H1 & Hm1)|(k & b & e0 & e & -> & Hk & Hrest)].
  - inversion H1; subst. rewrite lookup_empty in Hm1. discriminate.
  - exists b, e0, e. split; [exact Hk|exact Hrest].
Qed.

Lemma usc_render_tools blocks sec m i b anchor button body :
  USCode.buildParaMetaMap blocks sec = USCode.Returns m ->
  blocks !! i = Some b ->
  (indent b <= USCode.maxArrayLength)%Z ->
  USCodeDefs.renderBlock m i b
    = USCodeDefs.ParagraphToolBlock anchor button body ->
  html b = spanNumOpen ++ button ++ spanClose ++ body
  /\ forallb dot button = true
  /\ exists prefix, anchor = js "p-" ++ sec ++ prefix ++ button.
Proof.
  intros Hm Hb Hmax Hr. unfold USCodeDefs.renderBlock in Hr.
  destruct (m !! i) as [meta|] eqn:Hi; [|discriminate].
  destruct (USCodeDefs.splitBlockHtml (html b)) as [sp|] eqn:Hsp; [|discriminate].
  inversion Hr; subst anchor button body. clear Hr.
  pose proof (uscode_split_sound _ _ Hsp) as Hspan.
  destruct Hspan as (Hs & Hdot & Hfirst).
  split; [exact Hs|]. split; [exact Hdot|].
  destruct (usc_entry blocks sec m i meta Hm Hi) as (b' & e0 & e & Hb' & _ & He & Hpath).
  rewrite Hb in Hb'. inversion Hb'; subst b'.
  destruct (Hpath Hmax) as (prefix & Hp).
  destruct (numSpan_token (html b) _ _ (conj Hs (conj Hdot Hfirst)))
    as (b0 & e1 & He1 & Hg).
  rewrite He in He1. inversion He1; subst. rewrite Hg in Hp.
  exists prefix. rewrite (usc_build_anchor blocks sec m i meta Hm Hi), Hp.
  reflexivity.
Qed.

(** ** The same for the single-title viewer *)

Lemma stackPath_cons e stack :
  Title17.stackPath (e :: stack)
    = Title17.stackPath stack ++ Title17.entryNumText e.
Proof.
  unfold Title17.stackPath. cbn [map]. rewrite reverse_cons, concat_app.
  simpl. rewrite app_nil_r. reflexivity.
Qed.

Lemma title17_forEach_entry sec : forall l i m stk,
  forall j meta,
  (forEach (Title17.visit sec) i l (m, stk)).1 !! j = Some meta ->
  m !! j = Some meta
  \/ (exists k b tok prefix,
        j = (i + k)%nat /\ l !! k = Some b /\ designator b = Some tok
        /\ path meta = prefix ++ tok).
Proof.
  induction l as [|b l IH]; intros i m stk j meta Hj.
  - left. exact Hj.
  - simpl in Hj. destruct (designator b) as [tok|] eqn:Hdes.
    + rewrite (visit_designated sec m stk i b tok Hdes) in Hj.
      destruct (IH _ _ _ _ _ Hj) as [Hm|(k & b' & tok' & prefix & -> & Hk & Hrest)].
      * destruct (decide (j = i)) as [->|Hne].
        -- rewrite lookup_insert_eq in Hm. inversion Hm; subst meta.
           right. exists 0%nat, b, tok. eexists. split; [lia|].
           split; [reflexivity|]. split; [exact Hdes|].
           unfold entryFor. cbn [path]. apply stackPath_cons.
        -- rewrite lookup_insert_ne in Hm by congruence. left. exact Hm.
      * right. exists (S k), b', tok', prefix. split; [lia|].
        split; [exact Hk|exact Hrest].
    + rewrite (visit_skipped sec _ i b Hdes) in Hj.
      destruct (IH _ _ _ _ _ Hj) as [Hm|(k & b' & tok' & prefix & -> & Hk & Hrest)].
      * left. exact Hm.
      * right. exists (S k), b', tok', prefix. split; [lia|].
        split; [exact Hk|exact Hrest].
Qed.

Lemma title17_entry content sec i meta :
  Title17.buildParaMetaMap content sec !! i = Some meta ->
  exists b tok prefix,
    content !! i = Some b /\ designator b = Some tok
    /\ path meta = prefix ++ tok.
Proof.
  unfold Title17.buildParaMetaMap. intros Hi.
  destruct (title17_forEach_entry sec content 0 ∅ [] i meta Hi)
    as [Hm|(k & b & tok & prefix & -> & Hk & Hrest)].
  - rewrite lookup_empty in Hm. discriminate.
  - exists b, tok, prefix. split; [exact Hk|exact Hrest].
Qed.

Lemma title17_split_sound html sp :
  Title17.splitBlockHtml html = Some sp ->
  html = spanNumOpen ++ Title17.numText sp ++ spanClose ++ Title17.restHtml sp
  /\ forallb (notChar 60) (Title17.numText sp) = true.
Proof.
  intros H.
  assert (Hshape : exists token rest,
            html = spanNumOpen ++ token ++ spanClose ++ rest
            /\ forallb (notChar 60) token = true).
  { unfold Title17.splitBlockHtml in H.
    destruct (exec Title17.splitBlockHtmlRe html) as [[b e]|] eqn:E;
      [|discriminate].
    unfold Title17.splitBlockHtmlRe in E. cbn [seqs foldr] in E.
    apply exec_bol_in in E.
    apply in_seq in E as (s1 & H1 & E). apply in_lit in H1 as (A1 & _).
    apply in_seq in E as (s2 & H2 & E).
    apply in_group in H2 as (s2' & H2 & E2).
    apply in_star_class in H2 as (token & Dt & A2 & _).
    apply in_seq in E as (s3 & H3 & E). apply in_lit in H3 as (A3 & _).
    exists token, (after s3). split; [|exact Dt].
    cbn [after] in A1. rewrite A1, A2.
    replace (after s2') with (after s2) by (rewrite E2; reflexivity).
    rewrite A3. reflexivity. }
  destruct Hshape as (token & rest & Hs & Dt).
  rewrite Hs in H. rewrite (splitBlockHtml_shape token rest Dt) in H.
  inversion H; subst sp. cbn. split; [exact Hs|exact Dt].
Qed.

Lemma title17_render_tools content sec annotateTerms i b anchor button body :
  content !! i = Some b ->
  Title17.renderBlock (Title17.buildParaMetaMap content sec) annotateTerms i b
    = Title17.ParagraphToolBlock anchor button body ->
  exists rest prefix,
    html b = spanNumOpen ++ button ++ spanClose ++ rest
    /\ forallb (notChar 60) button = true
    /\ body = annotateTerms rest
    /\ anchor = js "p-" ++ sec ++ prefix ++ trim button.
Proof.
  intros Hb Hr. unfold Title17.renderBlock in Hr.
  destruct (Title17.buildParaMetaMap content sec !! i) as [meta|] eqn:Hi;
    [|discriminate].
  destruct (Title17.splitBlockHtml (html b)) as [sp|] eqn:Hsp; [|discriminate].
  inversion Hr; subst anchor button body. clear Hr.
  destruct (title17_split_sound _ _ Hsp) as (Hs & Dt).
  destruct (title17_entry content sec i meta Hi) as (b' & tok & prefix & Hb' & Hdes & Hp).
  rewrite Hb in Hb'. inversion Hb'; subst b'.
  unfold designator in Hdes. rewrite Hsp in Hdes.
  destruct (isStructural (type b)); [|discriminate].
  simpl in Hdes. inversion Hdes; subst tok.
  exists (Title17.restHtml sp), prefix. split; [exact Hs|]. split; [exact Dt|].
  split; [reflexivity|].
  rewrite (build_anchor content sec i meta Hi), Hp. reflexivity.
Qed.

(** ** One request per title *)

Lemma fetch_invariant {Data} (events : list (USCodeFetch.Event Data)) :
  forall st,
  NoDup (USCodeFetch.requests st) ->
  (forall t, t ∈ USCodeFetch.requests st -> t ∈ USCodeFetch.titlePromises st) ->
  NoDup (USCodeFetch.requests (foldl USCodeFetch.step st events))
  /\ (forall t, t ∈ USCodeFetch.requests (foldl USCodeFetch.step st events) ->
        t ∈ USCodeFetch.titlePromises (foldl USCodeFetch.step st events)).
Proof.
  induction events as [|ev events IH]; intros st Hnd Hsub; [auto|].
  cbn [foldl]. apply IH.
  - destruct ev as [t|t d|t]; cbn [USCodeFetch.step]; try exact Hnd.
    unfold USCodeFetch.fetchTitle.
    destruct (USCodeFetch.titleCache st !! t); [exact Hnd|].
    destruct (bool_decide (t ∈ USCodeFetch.titlePromises st)) eqn:E; [exact Hnd|].
    apply bool_decide_eq_false in E. cbn.
    apply NoDup_app. split; [exact Hnd|]. split; [|apply NoDup_singleton].
    intros x Hx Hx'. apply list_elem_of_singleton in Hx'. subst x.
    apply E, Hsub, Hx.
  - destruct ev as [t|t d|t]; cbn [USCodeFetch.step]; try exact Hsub.
    unfold USCodeFetch.fetchTitle.
    destruct (USCodeFetch.titleCache st !! t); [exact Hsub|].
    destruct (bool_decide (t ∈ USCodeFetch.titlePromises st)); [exact Hsub|].
    cbn. intros x Hx. apply elem_of_app in Hx as [Hx|Hx].
    + apply elem_of_union. right. apply Hsub, Hx.
    + apply list_elem_of_singleton in Hx. subst x.
      apply elem_of_union. left. apply elem_of_singleton. reflexivity.
Qed.

Lemma fetch_cached {Data} (st : USCodeFetch.State Data) t data :
  USCodeFetch.titleCache st !! t = Some data ->
  USCodeFetch.fetchTitle st t = (st, USCodeFetch.Resolved data).
Proof. intros H. unfold USCodeFetch.fetchTitle. rewrite H. reflexivity. Qed.

(** * Further results *)

(** ** Deep links *)









(** X5.  The codec of the first revision of the single-title viewer,
    whose views carry no paragraph anchor, is an exact round trip:
    decoding the address of any view gives the view back. *)
Theorem X5_first_revision_roundtrip (v : Title17Rev1.ViewState) :
  Title17Rev1.parseHash (Title17Rev1.viewToHash v) = v.
Proof.
  destruct v as [|c|s]; unfold Title17Rev1.viewToHash, Title17Rev1.parseHash.
  - reflexivity.
  - rewrite strip_hash_chapter. reflexivity.
  - rewrite strip_hash_section. reflexivity.
Qed.

(** ** Definitions and their tools *)

(** X6.  [splitAtFirstTerm] of the single-title viewer cuts at the
    first occurrence of the term in curly quotes: when it returns a
    pair, the markup is the text before, the quoted term and the text
    after, and no occurrence of the quoted term starts further to the
    left; it returns [null] exactly when the quoted term does not occur
    in the markup. *)
Theorem X6_split_at_first_occurrence html term :
  match Title17Defs.splitAtFirstTerm html term with
  | Some (before, after) =>
      html = before ++ [ldquo] ++ term ++ [rdquo] ++ after
      /\ (forall p r, html = p ++ [ldquo] ++ term ++ [rdquo] ++ r ->
            (length before <= length p)%nat)
  | None => forall p r, html <> p ++ [ldquo] ++ term ++ [rdquo] ++ r
  end.
Proof.
  destruct (Title17Defs.splitAtFirstTerm html term) as [[before after]|] eqn:E.
  - apply splitAt_some, E.
  - apply splitAt_none, E.
Qed.

Lemma X6_split_at_first_occurrence_witness :
  Examples.inchMarkInner
    = ([ldquo] ++ js "5" ++ dq ++ js " disc" ++ [rdquo] ++ js " and ")
        ++ [ldquo] ++ js "other" ++ [rdquo] ++ [].
Proof.
  pose proof (X6_split_at_first_occurrence Examples.inchMarkInner (js "other"))
    as H.
  vm_compute in H. destruct H as [H _]. vm_compute. exact H.
Defined.



(** X8.  [splitAtFirstTerm] of the multi-title viewer, which searches
    with a pattern built from the escaped term, returns what the
    single-title one returns with [indexOf]; and every record of the
    definitions section that has a term splits at it: the call never
    returns [null] there, and the markup is the text before, the quoted
    term and the text after. *)
Theorem X8_uscode_definition_splits :
  (forall html term,
     USCodeDefs.splitAtFirstTerm html term
       = Title17Defs.splitAtFirstTerm html term)
  /\ (forall html defs d,
        USCode.parseSec101Defs html = Some defs -> d ∈ defs ->
        USCode.term d <> [] ->
        exists before after,
          USCodeDefs.splitAtFirstTerm (USCode.innerHtml d) (USCode.term d)
            = Some (before, after)
          /\ USCode.innerHtml d
             = before ++ [ldquo] ++ USCode.term d ++ [rdquo] ++ after).
Proof.
  split; [apply uscode_split_agrees|apply uscode_def_splits].
Qed.

Lemma X8_uscode_definition_splits_witness :
  exists before after,
    USCodeDefs.splitAtFirstTerm Examples.motionPictureInner (js "motion picture")
      = Some (before, after)
    /\ Examples.motionPictureInner
       = before ++ [ldquo] ++ js "motion picture" ++ [rdquo] ++ after.
Proof.
  apply (proj2 X8_uscode_definition_splits Examples.motionPicture
           [MoreExamples.motionPictureUsc] MoreExamples.motionPictureUsc).
  - evaluate.
  - constructor.
  - discriminate.
Defined.

(** X9.  [getFullDefHtml] gives the popup of a slug the paragraph of
    the first record with that slug, followed by the paragraphs after
    it up to the next paragraph of class [indent1], each wrapped in
    [<p class="def-popup-para ...">]; a later record with the same slug
    is never shown, and a slug no record has gives the empty string. *)
Theorem X9_full_definition_html :
  (forall defs slug,
     (forall x, x ∈ defs -> Title17.defSlug x <> Some slug) ->
     Title17Defs.getFullDefHtml defs slug = [])
  /\ (forall pre d rest slug,
        (forall x, x ∈ pre -> Title17.defSlug x <> Some slug) ->
        Title17.defSlug d = Some slug ->
        Title17Defs.getFullDefHtml (pre ++ d :: rest) slug
          = concat (map Title17Defs.defPopupPara (d :: subParagraphs rest))).
Proof.
  split; [apply getFullDefHtml_missing|apply getFullDefHtml_found].
Qed.

Lemma X9_full_definition_html_witness :
  Title17Defs.getFullDefHtml
    ([MoreExamples.nextDef] ++ MoreExamples.motionPictureDef
       :: [MoreExamples.subItem; MoreExamples.nextDef])
    (js "motion-picture")
  = Title17Defs.defPopupPara MoreExamples.motionPictureDef
      ++ Title17Defs.defPopupPara MoreExamples.subItem ++ [].
Proof.
  apply (proj2 X9_full_definition_html [MoreExamples.nextDef]
           MoreExamples.motionPictureDef
           [MoreExamples.subItem; MoreExamples.nextDef] (js "motion-picture")).
  - intros x Hx. apply list_elem_of_singleton in Hx. subst x. discriminate.
  - reflexivity.
Defined.

(** X10.  Every record [parseSec115eDefs] returns was read off a block
    of indent 2 that lies after a block opening subsection (e) and does
    not open it itself: the record's index is that block's, its term is
    a non-empty quoted span of the block's markup, its slug is the slug
    of the term, its anchor begins with (e) and its indent is 2; the
    records come in the order of their blocks, so no block gives two
    records; and content without a block opening subsection (e) gives
    no record. *)
Theorem X10_section_115e_definitions content :
  (forall d, d ∈ Title17Defs.parseSec115eDefs content ->
     exists block j opener,
       content !! Title17Defs.blockIndex d = Some block
       /\ Types.indent block = 2%Z /\ Title17Defs.indent d = 2%Z
       /\ opensE block = false
       /\ Title17Defs.term d <> []
       /\ (exists x y,
             html block = x ++ [ldquo] ++ Title17Defs.term d ++ [rdquo] ++ y)
       /\ Title17Defs.slug d = Title17.slugOf (Title17Defs.term d)
       /\ startsWith (js "(e)") (Title17Defs.anchor d) = true
       /\ (j < Title17Defs.blockIndex d)%nat
       /\ content !! j = Some opener /\ opensE opener = true)
  /\ ascending (map Title17Defs.blockIndex (Title17Defs.parseSec115eDefs content))
  /\ ((forall b, b ∈ content -> opensE b = false) ->
      Title17Defs.parseSec115eDefs content = []).
Proof.
  split; [apply parse115e_member|].
  split; [apply parse115e_ascending|apply parse115e_no_opener].
Qed.

Lemma X10_section_115e_definitions_witness :
  exists block j opener,
    MoreExamples.section115 !! 2%nat = Some block
    /\ Types.indent block = 2%Z
    /\ (j < 2)%nat /\ MoreExamples.section115 !! j = Some opener
    /\ opensE opener = true.
Proof.
  destruct (proj1 (X10_section_115e_definitions MoreExamples.section115)
              MoreExamples.coverDef)
    as (block & j & opener & H1 & H2 & _ & _ & _ & _ & _ & _ & H3 & H4 & H5).
  - assert (E : Title17Defs.parseSec115eDefs MoreExamples.section115
                = [MoreExamples.coverDef]) by evaluate.
    rewrite E. constructor.
  - exists block, j, opener. auto.
Defined.

(** X11.  The popup of a definition of subsection (e) begins with the
    block that defines the term, with no padding, followed by the blocks
    below it up to the next block that is not deeper than indent 2, each
    padded by 24 pixels for every level it lies below the definition
    (the indents being integers below 2^32, so that the padding is
    computed exactly and written in plain digits); a record whose index
    lies beyond the content gives the empty string. *)
Theorem X11_section_115e_popup content :
  (Forall plainIndent content ->
   forall d, d ∈ Title17Defs.parseSec115eDefs content ->
     exists pre block rest,
       content = pre ++ block :: rest
       /\ length pre = Title17Defs.blockIndex d
       /\ Title17Defs.getSec115eDefHtml content d
          = (js "<div class=" ++ dq ++ js "def-popup-block" ++ dq
               ++ js " style=" ++ dq ++ js "padding-left:0px" ++ dq ++ js ">"
               ++ html block ++ js "</div>")
            ++ concat (map (Title17Defs.defPopupBlock d) (deeperBlocks 2 rest)))
  /\ (forall def,
        (length content <= Title17Defs.blockIndex def)%nat ->
        Title17Defs.getSec115eDefHtml content def = []).
Proof.
  split; [|apply getSec115eDefHtml_beyond].
  intros _ d Hd.
  destruct (parse115e_member content d Hd)
    as (block & _ & _ & Hk & Hind & Hdind & _).
  apply list_elem_of_split_length in Hk as (pre & rest & -> & Hlen).
  exists pre, block, rest. split; [reflexivity|]. split; [symmetry; exact Hlen|].
  rewrite (getSec115eDefHtml_at pre block rest d) by (symmetry; exact Hlen).
  cbn [map concat]. rewrite Hdind.
  rewrite (defPopupBlock_own d block) by (rewrite Hind, Hdind; reflexivity).
  reflexivity.
Qed.

Lemma X11_section_115e_popup_witness :
  exists pre block rest,
    MoreExamples.section115 = pre ++ block :: rest
    /\ length pre = 2%nat
    /\ Title17Defs.getSec115eDefHtml MoreExamples.section115 MoreExamples.coverDef
       = (js "<div class=" ++ dq ++ js "def-popup-block" ++ dq
            ++ js " style=" ++ dq ++ js "padding-left:0px" ++ dq ++ js ">"
            ++ html block ++ js "</div>")
         ++ concat (map (Title17Defs.defPopupBlock MoreExamples.coverDef)
                      (deeperBlocks 2 rest)).
Proof.
  refine (proj1 (X11_section_115e_popup MoreExamples.section115) _
            MoreExamples.coverDef _);
    [repeat constructor; unfold plainIndent; simpl; lia|].
  assert (E : Title17Defs.parseSec115eDefs MoreExamples.section115
              = [MoreExamples.coverDef]) by evaluate.
  rewrite E. constructor.
Defined.

(** ** Notes, reports and cross-references *)

(** X12.  [extractPubLaws] always returns: a list without repetition
    of keys of the form digits, hyphen, digits, each read off a
    citation [Pub. L. congress-law] of the source credit, whether the
    credit writes it with a hyphen or with an en dash; none of the keys
    names a member of [Object.prototype], so [reportsForSourceCredit]
    returns the reports the table holds for these keys, the reports of
    a law once however often the credit cites it. *)
Theorem X12_public_laws_of_a_credit sourceCredit :
  exists laws,
    Title17Notes.extractPubLaws sourceCredit = Some laws
    /\ NoDup laws
    /\ Forall isLawKey laws
    /\ (forall k, k ∈ laws ->
          exists congress law,
            k = congress ++ js "-" ++ law
            /\ citesLaw sourceCredit congress law)
    /\ (forall k, k ∈ laws -> k ∉ Title17Notes.objectPrototypeKeys)
    /\ Title17Notes.reportsForSourceCredit sourceCredit
       = Some (flat_map Title17Notes.reportsOf laws).
Proof.
  destruct (extractPubLaws_spec sourceCredit) as (laws & He & Hnd & Hkeys & Hcite).
  exists laws. split; [exact He|]. split; [exact Hnd|]. split; [exact Hkeys|].
  split; [exact Hcite|]. split.
  - intros k Hk. apply lawKey_own.
    apply (proj1 (Forall_forall _ _) Hkeys k Hk).
  - unfold Title17Notes.reportsForSourceCredit. rewrite He. reflexivity.
Qed.

Lemma X12_public_laws_of_a_credit_witness :
  Title17Notes.extractPubLaws MoreExamples.credit
    = Some [js "94-553"; js "105-304"]
  /\ NoDup [js "94-553"; js "105-304"].
Proof.
  destruct (X12_public_laws_of_a_credit MoreExamples.credit)
    as (laws & He & Hnd & _).
  assert (E : Title17Notes.extractPubLaws MoreExamples.credit
              = Some [js "94-553"; js "105-304"]) by evaluate.
  rewrite E in He. inversion He; subst laws. split; [exact E|exact Hnd].
Defined.

(** X13.  What a click on a link can end in.  A link whose address
    does not begin with [/us/] is left to the browser.  Every other
    link is taken from the browser, and then: a navigation goes to a
    section of this title without paragraph anchor, whose number is a
    digit followed by digits and letters, and decoding the address of
    that view gives the view back; a window opens only on a public-law
    or statute link of govinfo.gov whose two parts are digits; and
    otherwise nothing happens. *)
Theorem X13_link_resolver a :
  match Title17Notes.handleUslmClick a with
  | Title17Notes.Ignored =>
      forall href, a = Some (Some href) -> startsWith (js "/us/") href = false
  | Title17Notes.Navigate v =>
      exists s, v = Title17.SectionV s None /\ isSectionId s = true
                /\ Title17.parseHash (Title17.viewToHash v) = v
  | Title17Notes.OpenWindow url =>
      exists x y,
        isDigits x = true /\ isDigits y = true
        /\ (url = js "https://www.govinfo.gov/link/plaw/" ++ x
                    ++ js "/public/" ++ y
            \/ url = js "https://www.govinfo.gov/link/statute/" ++ x
                       ++ js "/" ++ y)
  | Title17Notes.Prevented =>
      exists href, a = Some (Some href) /\ startsWith (js "/us/") href = true
  end.
Proof.
  pose proof (handleUslmClick_cases a) as H.
  destruct (Title17Notes.handleUslmClick a) as [|v|url|]; try exact H.
  destruct H as (s & -> & Hs). exists s. split; [reflexivity|].
  split; [exact Hs|apply sectionId_roundtrip, Hs].
Qed.

Lemma X13_link_resolver_witness :
  exists s,
    Title17.SectionV (js "106A") None = Title17.SectionV s None
    /\ isSectionId s = true
    /\ Title17.parseHash (Title17.viewToHash (Title17.SectionV (js "106A") None))
       = Title17.SectionV (js "106A") None.
Proof.
  pose proof (X13_link_resolver (Some (Some (js "/us/usc/t17/s106A/a")))) as H.
  vm_compute in H. vm_compute. exact H.
Defined.

(** X14.  The notes panel loses no body: the bodies of the rendered
    items that have one are the non-empty bodies of the notes, in the
    order of the notes, none twice. *)
Theorem X14_notes_keep_their_bodies notes :
  List.filter truthy
    (map Title17Notes.itemHtml (Title17Notes.renderedNotes notes))
  = List.filter truthy (map Title17Notes.html notes).
Proof. apply renderedNotes_bodies. Qed.

(** X15.  A note without a body heads the note after it: when a note
    has no body but a heading, and the next note has a body, the item
    rendered for that next note carries the heading of the first, marked
    as a group header, and its own heading is not shown; what is
    rendered before and after the pair is what the notes before and
    after it give. *)
Theorem X15_note_without_body_heads_the_next pre h n post :
  Title17Notes.html h = [] ->
  Title17Notes.truthyHeading (Title17Notes.headingOf h) = true ->
  Title17Notes.html n <> [] ->
  Title17Notes.renderedNotes (pre ++ h :: n :: post)
    = (foldl Title17Notes.noteStep ([], Title17Notes.Text []) pre).1
      ++ {| Title17Notes.itemHeading := Title17Notes.headingOf h;
            Title17Notes.isHeader := true;
            Title17Notes.itemHtml := Title17Notes.html n |}
      :: Title17Notes.renderedNotes post.
Proof. apply renderedNotes_group. Qed.

Lemma X15_note_without_body_heads_the_next_witness :
  Title17Notes.renderedNotes MoreExamples.notes
    = [{| Title17Notes.itemHeading := Title17Notes.Text (js "Editorial Notes");
          Title17Notes.isHeader := true;
          Title17Notes.itemHtml := js "<p>2004</p>" |};
       {| Title17Notes.itemHeading := Title17Notes.Text (js "Effective Date");
          Title17Notes.isHeader := false;
          Title17Notes.itemHtml := js "<p>1978</p>" |}].
Proof.
  pose proof (X15_note_without_body_heads_the_next []
                (MoreExamples.note (js "editorialNotes") [] [])
                (MoreExamples.note (js "amendments") [] (js "<p>2004</p>"))
                [MoreExamples.note (js "miscellaneous") (js "Effective Date")
                   (js "<p>1978</p>")]
                eq_refl eq_refl ltac:(discriminate)) as H.
  etransitivity; [exact H|]. evaluate.
Defined.

(** ** Moving through the table of contents *)

(** X16.  Previous and next section.  When no two sections of the
    list have the same number, the section after a section is its next
    and that section's previous is the section itself; the first section
    has no previous and the last no next.  For a section number that is
    not in the list there is no previous section, and the next section
    is the first of the list. *)
Theorem X16_previous_and_next all :
  (NoDup (map TocSection.number all) ->
     (forall i s t,
        all !! i = Some s -> all !! S i = Some t ->
        Title17Nav.nextSection all (TocSection.number s) = Some t
        /\ Title17Nav.prevSection all (TocSection.number t) = Some s)
     /\ (forall s, head all = Some s ->
           Title17Nav.prevSection all (TocSection.number s) = None)
     /\ (forall s, last all = Some s ->
           Title17Nav.nextSection all (TocSection.number s) = None))
  /\ (forall num,
        (forall s, s ∈ all -> TocSection.number s <> num) ->
        Title17Nav.prevSection all num = None
        /\ Title17Nav.nextSection all num = head all).
Proof.
  split.
  - intros Hnd. split; [|split].
    + intros i s t. apply nav_neighbours, Hnd.
    + intros s. apply (nav_ends all s Hnd).
    + intros s. apply (nav_ends all s Hnd).
  - apply nav_unknown.
Qed.

Lemma X16_previous_and_next_witness :
  Title17Nav.nextSection (Title17Nav.allSections MoreExamples.chapters) (js "102")
    = Some (MoreExamples.sec (js "201") (js "Ownership of copyright"))
  /\ Title17Nav.prevSection (Title17Nav.allSections MoreExamples.chapters)
       (js "201")
     = Some (MoreExamples.sec (js "102") (js "Subject matter")).
Proof.
  destruct (X16_previous_and_next (Title17Nav.allSections MoreExamples.chapters))
    as [H _].
  destruct H as (Hnb & _).
  - repeat constructor; vm_compute; intros Hin;
      repeat (apply elem_of_cons in Hin as [Hin|Hin]; [discriminate|]);
      inversion Hin.
  - apply (Hnb 1%nat (MoreExamples.sec (js "102") (js "Subject matter"))
             (MoreExamples.sec (js "201") (js "Ownership of copyright")));
      reflexivity.
Defined.

(** X17.  The search of the multi-title sidebar.  A query of white
    space only gives no result list; any other query gives the first
    sixty hits, in the order of the table of contents, so never more
    than sixty. *)
Theorem X17_search_gives_the_first_sixty titles query :
  match USCodeNav.searchResults titles query with
  | None => trim query = []
  | Some results =>
      trim query <> []
      /\ results = take 60 (allHits (toLowerCase query) titles)
      /\ (length results <= 60)%nat
  end.
Proof.
  unfold USCodeNav.searchResults.
  destruct (trim query) as [|c q] eqn:E; cbn [truthy negb]; [reflexivity|].
  split; [discriminate|].
  rewrite searchTitles_spec by (simpl; lia). cbn [app].
  split; [reflexivity|]. rewrite length_take. lia.
Qed.

(** X18.  [highlightText] loses nothing of the text: the parts it
    returns, marked or not, put together are the text.  For a non-empty
    query of Basic Latin characters the parts are text, match, text,
    ..., text, and every match is marked. *)
Theorem X18_highlight_keeps_the_text text query :
  concat (map snd (Title17Nav.highlightText text query)) = text
  /\ (query <> [] -> forallb isBasicLatin query = true ->
      exists texts matches,
        map snd (Title17Nav.highlightText text query) = alternate texts matches
        /\ length texts = S (length matches)
        /\ weave texts matches = text
        /\ Forall (fun m => (true, m) ∈ Title17Nav.highlightText text query)
             matches).
Proof.
  split; [apply highlightText_whole|].
  intros Hne _. apply highlightText_pieces, Hne.
Qed.

Lemma X18_highlight_keeps_the_text_witness :
  Title17Nav.highlightText (js "Copyright in Restored Works") (js "RE")
    = [(false, js "Copyright in "); (true, js "Re"); (false, js "sto");
       (true, js "re"); (false, js "d Works")]
  /\ exists texts matches,
       map snd (Title17Nav.highlightText (js "Copyright in Restored Works")
                  (js "RE"))
         = alternate texts matches
       /\ length texts = S (length matches).
Proof.
  split; [evaluate|].
  destruct (proj2 (X18_highlight_keeps_the_text
                     (js "Copyright in Restored Works") (js "RE")))
    as (texts & matches & H1 & H2 & _); [discriminate|reflexivity|].
  exists texts, matches. split; assumption.
Defined.

(** ** Paragraph tools on the page *)

(** X19.  [splitBlockHtml] of the multi-title viewer returns a pair
    exactly when the markup begins with the opening of a designator
    span, a token without line terminators that runs up to the first
    [</span>], and that closing; nothing of the markup is lost; and the
    token is the one the path builder reads off the same markup. *)
Theorem X19_uscode_designator_span html :
  (forall sp,
     USCodeDefs.splitBlockHtml html = Some sp <->
     beginsWithSpan html (USCodeDefs.numText sp) (USCodeDefs.restHtml sp))
  /\ (forall sp,
        USCodeDefs.splitBlockHtml html = Some sp ->
        exists b e,
          exec USCode.numSpanRe html = Some (b, e)
          /\ group 1 e = USCodeDefs.numText sp).
Proof.
  split.
  - intros sp. split; [apply uscode_split_sound|].
    intros H. rewrite (uscode_split_hit _ _ _ H). destruct sp; reflexivity.
  - intros sp H. apply uscode_split_sound in H.
    apply (numSpan_token _ _ _ H).
Qed.

Lemma X19_uscode_designator_span_witness :
  beginsWithSpan (spanNumOpen ++ js "(b)</span> text</span>") (js "(b)")
    (js " text</span>").
Proof.
  apply (proj1 (proj1 (X19_uscode_designator_span
                         (spanNumOpen ++ js "(b)</span> text</span>"))
                  {| USCodeDefs.numText := js "(b)";
                     USCodeDefs.restHtml := js " text</span>" |})).
  evaluate.
Defined.

(** X20.  In the multi-title viewer a block shown with paragraph
    tools has markup that is the opening of the span, the button's
    label, the closing and the body shown, the label without line
    terminators; and the id of its element is [p-], the section number
    and a path that ends with the label.  A block whose markup does not
    begin with such a span is shown as it is, whether or not the map has
    an entry for it. *)
Theorem X20_uscode_tools_on_the_page blocks sec m i b :
  USCode.buildParaMetaMap blocks sec = USCode.Returns m ->
  blocks !! i = Some b ->
  (indent b <= USCode.maxArrayLength)%Z ->
  match USCodeDefs.renderBlock m i b with
  | USCodeDefs.ParagraphToolBlock anchor button body =>
      html b = spanNumOpen ++ button ++ spanClose ++ body
      /\ forallb dot button = true
      /\ exists prefix, anchor = js "p-" ++ sec ++ prefix ++ button
  | USCodeDefs.DefaultBlock body => body = html b
  end.
Proof.
  intros Hm Hb Hmax.
  destruct (USCodeDefs.renderBlock m i b) as [anchor button body|body] eqn:E.
  - apply (usc_render_tools blocks sec m i b anchor button body Hm Hb Hmax E).
  - unfold USCodeDefs.renderBlock in E.
    destruct (m !! i); [destruct (USCodeDefs.splitBlockHtml (html b))|];
      inversion E; reflexivity.
Qed.

Lemma X20_uscode_tools_on_the_page_witness :
  exists m,
    USCode.buildParaMetaMap Examples.outlineFromOne (js "106") = USCode.Returns m
    /\ match USCodeDefs.renderBlock m 1
             (Examples.block (js "paragraph") 2
                (spanNumOpen ++ js "(1)</span> more")) with
       | USCodeDefs.ParagraphToolBlock anchor button body =>
           spanNumOpen ++ js "(1)</span> more"
             = spanNumOpen ++ button ++ spanClose ++ body
           /\ forallb dot button = true
           /\ exists prefix, anchor = js "p-" ++ js "106" ++ prefix ++ button
       | USCodeDefs.DefaultBlock body =>
           body = spanNumOpen ++ js "(1)</span> more"
       end.
Proof.
  destruct (USCode.buildParaMetaMap Examples.outlineFromOne (js "106"))
    as [m|] eqn:E.
  - exists m. split; [reflexivity|].
    apply (X20_uscode_tools_on_the_page Examples.outlineFromOne (js "106") m 1
             (Examples.block (js "paragraph") 2
                (spanNumOpen ++ js "(1)</span> more")) E).
    + reflexivity.
    + simpl. unfold USCode.maxArrayLength. lia.
  - vm_compute in E. discriminate.
Defined.

(** X21.  In the single-title viewer a block shown with paragraph
    tools has markup that is the opening of the span, the button's
    label, the closing and a rest, the label without [<]; the body shown
    is the annotated rest; and the id of its element is [p-], the
    section number and a path that ends with the trimmed label. *)
Theorem X21_title17_tools_on_the_page
    content sec annotateTerms i b anchor button body :
  content !! i = Some b ->
  Title17.renderBlock (Title17.buildParaMetaMap content sec) annotateTerms i b
    = Title17.ParagraphToolBlock anchor button body ->
  exists rest prefix,
    html b = spanNumOpen ++ button ++ spanClose ++ rest
    /\ forallb (notChar 60) button = true
    /\ body = annotateTerms rest
    /\ anchor = js "p-" ++ sec ++ prefix ++ trim button.
Proof. apply title17_render_tools. Qed.

Lemma X21_title17_tools_on_the_page_witness :
  exists rest prefix,
    spanNumOpen ++ js "(1)</span> more"
      = spanNumOpen ++ js "(1)" ++ spanClose ++ rest
    /\ forallb (notChar 60) (js "(1)") = true
    /\ js " more" = rest
    /\ js "p-106(b)(1)" = js "p-" ++ js "106" ++ prefix ++ trim (js "(1)").
Proof.
  apply (X21_title17_tools_on_the_page Examples.outline (js "106")
           (fun h => h) 1
           (Examples.block (js "paragraph") 1
              (spanNumOpen ++ js "(1)</span> more"))
           (js "p-106(b)(1)") (js "(1)") (js " more")).
  - reflexivity.
  - evaluate.
Defined.

(** ** Loading a title *)

(** X22.  However calls of [fetchTitle] and the arrivals and
    failures of its requests follow each other, no title is requested
    twice; and a call for a title whose data is in the cache answers
    with the data, asks for nothing and leaves the state as it is. *)
Theorem X22_titles_are_requested_once {Data}
    (events : list (USCodeFetch.Event Data)) :
  NoDup (USCodeFetch.requests (USCodeFetch.run events))
  /\ (forall t data,
        USCodeFetch.titleCache (USCodeFetch.run events) !! t = Some data ->
        USCodeFetch.fetchTitle (USCodeFetch.run events) t
          = (USCodeFetch.run events, USCodeFetch.Resolved data)).
Proof.
  split.
  - apply fetch_invariant; [constructor|]. intros t Ht. inversion Ht.
  - intros t data. apply fetch_cached.
Qed.
